(** * nbdime: the generic structural differ

    A shallow embedding of [nbdime/diffing/generic.py],
    [nbdime/diffing/sequences.py] and the predicates and entry points
    of [nbdime/diffing/notebooks.py], with the properties of the
    specification stated and proved over it.

    Python values are a closed inductive type; the [predicates]
    registry is a [defaultdict] shared by every recursive call, so it is
    threaded as state; exceptions are an error outcome; the recursion of
    [diff] through [diff_lists] and [diff_dicts] is bounded by fuel. *)

From Stdlib Require Import ZArith String Ascii List Bool Lia.
From Stdlib Require Import OrderedTypeEx.
From stdpp Require Import base option list gmap strings sorting.

Set Warnings "-register-all,-notation-for-abbreviation".

(** ** Data model *)

(** JSON-like Python values.  A [dict] is kept as the list of its items
    in insertion order; Python guarantees the keys are distinct
    ([wf_value] below). *)
Inductive Value : Type :=
| VNone
| VBool (b : bool)
| VInt (n : Z)
| VStr (s : string)
| VList (xs : list Value)
| VDict (items : list (string * Value)).

(** [type(x)] *)
Inductive PyType := TNoneType | TBool | TInt | TStr | TList | TDict.

Definition type_of (x : Value) : PyType :=
  match x with
  | VNone => TNoneType
  | VBool _ => TBool
  | VInt _ => TInt
  | VStr _ => TStr
  | VList _ => TList
  | VDict _ => TDict
  end.

Definition PyType_eqb (s t : PyType) : bool :=
  match s, t with
  | TNoneType, TNoneType | TBool, TBool | TInt, TInt
  | TStr, TStr | TList, TList | TDict, TDict => true
  | _, _ => false
  end.

(** [d[key]] on the items of a dict *)
Fixpoint dict_get (key : string) (items : list (string * Value)) : option Value :=
  match items with
  | [] => None
  | (k, v) :: rest => if String.eqb key k then Some v else dict_get key rest
  end.

Definition dict_keys (items : list (string * Value)) : list string :=
  map fst items.

(** Python's [==] on these values: [bool] is a subclass of [int], lists
    compare elementwise, dicts compare as maps (insertion order is
    irrelevant). *)
Fixpoint py_eq (x y : Value) {struct x} : bool :=
  match x, y with
  | VNone, VNone => true
  | VBool a, VBool b => Bool.eqb a b
  | VInt m, VInt n => Z.eqb m n
  | VBool a, VInt n => Z.eqb (if a then 1 else 0) n
  | VInt m, VBool b => Z.eqb m (if b then 1 else 0)
  | VStr s, VStr t => String.eqb s t
  | VList xs, VList ys =>
      (fix go (xs ys : list Value) {struct xs} : bool :=
         match xs, ys with
         | [], [] => true
         | x' :: xs', y' :: ys' => py_eq x' y' && go xs' ys'
         | _, _ => false
         end) xs ys
  | VDict m, VDict n =>
      Nat.eqb (length m) (length n) &&
      (fix go (m : list (string * Value)) {struct m} : bool :=
         match m with
         | [] => true
         | (k, v) :: m' =>
             match dict_get k n with
             | Some w => py_eq v w
             | None => false
             end && go m'
         end) m
  | _, _ => false
  end.

(** Keys of diff entries: a position in a sequence or a key of a mapping. *)
Inductive Key := KIdx (i : nat) | KStr (s : string).

(** One edit operation; [Patch] carries the nested diff. *)
Inductive DiffEntry : Type :=
| Add (key : Key) (value : Value)
| Remove (key : Key)
| Replace (key : Key) (value : Value)
| Patch (key : Key) (subdiff : list DiffEntry).

Notation Diff := (list DiffEntry).

Definition entry_key (e : DiffEntry) : Key :=
  match e with
  | Add k _ | Remove k | Replace k _ | Patch k _ => k
  end.

(** A comparison predicate; [operator.__eq__] is recognisable by identity
    ([compare is not operator.__eq__] in [diff_sequence]). *)
Inductive Compare :=
| OpEq
| Custom (f : Value -> Value -> bool).

Definition apply_compare (c : Compare) (x y : Value) : bool :=
  match c with
  | OpEq => py_eq x y
  | Custom f => f x y
  end.

Definition is_op_eq (c : Compare) : bool :=
  match c with OpEq => true | Custom _ => false end.

(** ** Exceptions and the shared registry *)

Inductive Error :=
| UnsupportedValueKind            (* RuntimeError: Can currently only diff list, dict, or str objects. *)
| PredicateConflict (path : string) (* RuntimeError: Found predicate(s) for path .. pointing to dict entry. *)
| UnsupportedPredicate            (* RuntimeError: Cannot use difflib with comparison other than ==. *)
| UnknownAlgorithm (name : string) (* RuntimeError: Unknown diff_sequence_algorithm .. *)
| MalformedDiff                   (* raised by validate_diff *)
| AssertionError
| IndexError
| KeyError (key : string)
| TypeError (msg : string).

Inductive outcome (A : Type) : Type :=
| Ret (x : A)
| Raise (e : Error)
| OutOfFuel.
Arguments Ret {A} x.
Arguments Raise {A} e.
Arguments OutOfFuel {A}.

(** The [predicates] argument: a [defaultdict] from path to a tuple of
    predicates.  It is one object passed down unchanged, and looking up
    a missing path stores the default there. *)
Notation Registry := (gmap string (list Compare)).

Definition M (A : Type) : Type := Registry -> outcome (A * Registry).

Definition ret {A} (x : A) : M A := fun r => Ret (x, r).
Definition raise {A} (e : Error) : M A := fun _ => Raise e.
Definition out_of_fuel {A} : M A := fun _ => OutOfFuel.

Definition bind {A B} (m : M A) (k : A -> M B) : M B :=
  fun r =>
    match m r with
    | Ret (x, r') => k x r'
    | Raise e => Raise e
    | OutOfFuel => OutOfFuel
    end.

Declare Scope py_scope.
Delimit Scope py_scope with py.
Notation "'let*' x ':=' m 'in' k" := (bind m (fun x => k))
  (at level 10, x pattern, m at level 100, k at level 200) : py_scope.
Notation "m ;;; k" := (bind m (fun _ => k))
  (at level 100, right associativity) : py_scope.
Open Scope py_scope.

(** [assert c] *)
Definition py_assert (c : bool) : M unit :=
  if c then ret tt else raise AssertionError.

(** [operator.__eq__,] is the default of [default_predicates()] *)
Definition default_compares : list Compare := [OpEq].

(** [predicates[path]] on the defaultdict *)
Definition predicates_getitem (path : string) : M (list Compare) :=
  fun r =>
    match r !! path with
    | Some cs => Ret (cs, r)
    | None => Ret (default_compares, <[path := default_compares]> r)
    end.

(** [path in predicates] *)
Definition predicates_contains (path : string) : M bool :=
  fun r => Ret (bool_decide (is_Some (r !! path)), r).

(** [default_predicates()]: a fresh, empty defaultdict *)
Definition default_predicates : Registry := ∅.

(** ** Collaborators outside the core

    The alignment algorithms, the snake computation and the validator
    live in sibling modules ([seq_bruteforce], [seq_myers], [seq_difflib],
    [snakes], [diff_format]); the differ only calls them.  They are the
    fields of an interface, and what the differ relies on is stated as
    contracts on that interface further down. *)

Definition Differ : Type := Value -> Value -> string -> M Diff.

Notation Snakes := (list (nat * nat * nat)).

Record Collaborators := {
  diff_sequence_bruteforce : list Value -> list Value -> Compare -> Diff;
  diff_sequence_myers : list Value -> list Value -> Compare -> Diff;
  diff_sequence_difflib : list Value -> list Value -> Diff;
  compute_snakes_multilevel : list Value -> list Value -> list Compare -> Snakes;
  compute_diff_from_snakes :
    list Value -> list Value -> Snakes -> string -> gmap string Differ -> M Diff;
  validate_diff : Diff -> bool
}.

(** A Python string seen as the sequence of its one-character strings. *)
Definition chars (s : string) : list Value :=
  map (fun c => VStr (String c EmptyString)) (list_ascii_of_string s).

(** Modelled from the spec: [count_consumed_symbols] of [diff_format]
    (not among the sources), from "each entry additionally carries how
    many source/target elements it consumes (1 for Add only affects
    target, 1 for Remove only affects source, etc.)". *)
Definition count_consumed_symbols (e : DiffEntry) : nat * nat :=
  match e with
  | Add _ _ => (0, 1)
  | Remove _ => (1, 0)
  | Replace _ _ => (1, 1)
  | Patch _ _ => (1, 1)
  end.

(** Order on keys used by the mapping builder: strings by code point. *)
Definition string_le (s t : string) : Prop := String.leb s t = true.

Definition key_le (k1 k2 : Key) : Prop :=
  match k1, k2 with
  | KIdx i, KIdx j => i <= j
  | KIdx _, KStr _ => True
  | KStr _, KIdx _ => False
  | KStr s, KStr t => string_le s t
  end.

Definition entry_le (e1 e2 : DiffEntry) : Prop :=
  key_le (entry_key e1) (entry_key e2).

Global Instance string_le_dec s t : Decision (string_le s t).
Proof. unfold string_le. apply _. Defined.

Global Instance key_le_dec k1 k2 : Decision (key_le k1 k2).
Proof. destruct k1, k2; simpl; apply _. Defined.

Global Instance entry_le_dec e1 e2 : Decision (entry_le e1 e2).
Proof. unfold entry_le. apply _. Defined.

(** [sorted(keys)] *)
Definition sorted (keys : list string) : list string :=
  merge_sort string_le keys.

Section Differ.

Context (env : Collaborators).

(** Modelled from the spec: [SequenceDiffBuilder.validated()] of
    [diff_format] (not among the sources): "returns an empty result when
    no entries were added; otherwise returns the entry list after
    passing it to the validator"; the sequence builder "does not re-sort
    sequence entries". *)
Definition sequence_validated (entries : Diff) : M Diff :=
  match entries with
  | [] => ret []
  | _ => if validate_diff env entries then ret entries else raise MalformedDiff
  end.

(** Modelled from the spec: [MappingDiffBuilder.validated()] of
    [diff_format] (not among the sources): as for sequences, but "for a
    Mapping-diff, entries are ordered by sorted key" ("an explicit sort
    for determinism"). *)
Definition mapping_validated (entries : Diff) : M Diff :=
  match entries with
  | [] => ret []
  | _ =>
      let d := merge_sort entry_le entries in
      if validate_diff env d then ret d else raise MalformedDiff
  end.

(** ** sequences.py *)

Definition diff_sequence_algorithm : string := "bruteforce".

Definition diff_sequence (a b : list Value) (compare : Compare) : M Diff :=
  if String.eqb diff_sequence_algorithm "difflib" then
    if negb (is_op_eq compare) then raise UnsupportedPredicate
    else ret (diff_sequence_difflib env a b)
  else if String.eqb diff_sequence_algorithm "bruteforce" then
    ret (diff_sequence_bruteforce env a b compare)
  else if String.eqb diff_sequence_algorithm "myers" then
    ret (diff_sequence_myers env a b compare)
  else raise (UnknownAlgorithm diff_sequence_algorithm).

Definition diff_strings (a b : string) : Diff :=
  diff_sequence_difflib env (chars a) (chars b).

(** ** generic.py *)

Definition is_atomic (x : Value) : bool :=
  match x with
  | VStr _ | VList _ | VDict _ => false
  | _ => true
  end.

(** [x[i]] on a list or tuple *)
Definition getitem {A} (xs : list A) (i : nat) : M A :=
  match xs !! i with
  | Some x => ret x
  | None => raise IndexError
  end.

(** [e.key] used as a sequence index *)
Definition sequence_index (e : DiffEntry) : M nat :=
  match entry_key e with
  | KIdx i => ret i
  | KStr _ => raise (TypeError "unsupported operand type(s) for -: 'str' and 'int'")
  end.

(** ["/".join((path, key))] *)
Definition join_path (path key : string) : string := path +:+ "/" +:+ key.

(** [differs.get(subpath, diff)] *)
Definition differs_get (differs : gmap string Differ) (subpath : string)
    (default : Differ) : Differ :=
  match differs !! subpath with
  | Some f => f
  | None => default
  end.

(** [for k in range(n)] of [diff_lists], from [k] on: diff the items that
    the shallow diff left unmentioned. *)
Fixpoint diff_items (diffit : Differ) (subpath : string) (a b : list Value)
    (i j k n : nat) (di : Diff) : M Diff :=
  match n with
  | 0 => ret di
  | S n' =>
      let* aval := getitem a (i + k) in
      let* bval := getitem b (j + k) in
      let* di' := (if negb (is_atomic aval) then
                let* cd := diffit aval bval subpath in
                ret (match cd with
                     | [] => di
                     | _ => di ++ [Patch (KIdx (i + k)) cd]
                     end)
              else ret di) in
      diff_items diffit subpath a b i j (S k) n' di'
  end.

(** [for ie in range(M+1)] of [diff_lists], over the remaining entries
    of the shallow diff; the empty list is the last round ([ie = M]).
    Returns the cursors and the builder's entries. *)
Fixpoint diff_lists_loop (diffit : Differ) (subpath : string) (a b : list Value)
    (shallow : Diff) (i j : nat) (di : Diff) : M (nat * nat * Diff) :=
  match shallow with
  | e :: rest =>
      let* index := sequence_index e in
      let n := Nat.max 0 (index - i) in
      let '(askip, bskip) := count_consumed_symbols e in
      let* di' := diff_items diffit subpath a b i j 0 n di in
      diff_lists_loop diffit subpath a b rest
        (i + (n + askip)) (j + (n + bskip)) (di' ++ [e])
  | [] =>
      let n := (Z.of_nat (length a) - Z.of_nat i)%Z in
      py_assert (0 <=? n)%Z ;;;
      py_assert (Z.of_nat (length b) - Z.of_nat j =? n)%Z ;;;
      let* di' := diff_items diffit subpath a b i j 0 (Z.to_nat n) di in
      ret (i + Z.to_nat n, j + Z.to_nat n, di')
  end.

Definition diff_sequence_multilevel (differs : gmap string Differ)
    (a b : list Value) (path : string) : M Diff :=
  let* compares := predicates_getitem path in
  let snakes := compute_snakes_multilevel env a b compares in
  compute_diff_from_snakes env a b snakes path differs.

Definition diff_lists (diff : Differ) (differs : gmap string Differ)
    (a b : list Value) (path : string) (shallow_diff : option Diff) : M Diff :=
  let* compares := predicates_getitem path in
  if 1 <? length compares then
    py_assert (bool_decide (shallow_diff = None)) ;;;
    diff_sequence_multilevel differs a b path
  else
    let* shallow := match shallow_diff with
               | None => let* c := getitem compares 0 in diff_sequence a b c
               | Some s => ret s
               end in
    let subpath := join_path path "*" in
    let diffit := differs_get differs subpath diff in
    let* (i, j, di) := diff_lists_loop diffit subpath a b shallow 0 0 [] in
    py_assert (i =? length a) ;;;
    py_assert (j =? length b) ;;;
    sequence_validated di.

(** [d[key]] on a dict *)
Definition dict_getitem (items : list (string * Value)) (key : string) : M Value :=
  match dict_get key items with
  | Some v => ret v
  | None => raise (KeyError key)
  end.

(** [set(d.keys())] *)
Definition key_set (items : list (string * Value)) : gset string :=
  list_to_set (dict_keys items).

(** [for key in sorted(akeys & bkeys)] of [diff_dicts], over the
    remaining keys. *)
Fixpoint diff_dicts_loop (diff : Differ) (differs : gmap string Differ)
    (a b : list (string * Value)) (path : string) (keys : list string)
    (di : Diff) : M Diff :=
  match keys with
  | [] => ret di
  | key :: rest =>
      let* avalue := dict_getitem a key in
      let* bvalue := dict_getitem b key in
      let* di' :=
        (if PyType_eqb (type_of avalue) (type_of bvalue) && negb (is_atomic avalue)
         then
           let subpath := join_path path key in
           let diffit := differs_get differs subpath diff in
           let* dd := diffit avalue bvalue subpath in
           ret (match dd with
                | [] => di
                | _ => di ++ [Patch (KStr key) dd]
                end)
         else
           let* registered := predicates_contains path in
           if registered : bool then raise (PredicateConflict path)
           else ret (if negb (py_eq avalue bvalue)
                     then di ++ [Replace (KStr key) bvalue]
                     else di)) in
      diff_dicts_loop diff differs a b path rest di'
  end.

(** [for key in sorted(bkeys - akeys): di.add(key, b[key])] *)
Fixpoint diff_dicts_adds (b : list (string * Value)) (keys : list string)
    (di : Diff) : M Diff :=
  match keys with
  | [] => ret di
  | key :: rest =>
      let* bvalue := dict_getitem b key in
      diff_dicts_adds b rest (di ++ [Add (KStr key) bvalue])
  end.

Definition diff_dicts (diff : Differ) (differs : gmap string Differ)
    (a b : Value) (path : string) : M Diff :=
  match a, b with
  | VDict a, VDict b =>
      let akeys := key_set a in
      let bkeys := key_set b in
      let di := map (fun key => Remove (KStr key)) (sorted (elements (akeys ∖ bkeys))) in
      let* di := diff_dicts_loop diff differs a b path
                   (sorted (elements (akeys ∩ bkeys))) di in
      let* di := diff_dicts_adds b (sorted (elements (bkeys ∖ akeys))) di in
      mapping_validated di
  | _, _ => raise AssertionError
  end.

(** [diff]: the recursion through [diff_lists] and [diff_dicts] and the
    default of [differs] is [diff] itself; [fuel] bounds its depth. *)
Fixpoint diff (fuel : nat) (differs : gmap string Differ)
    (a b : Value) (path : string) : M Diff :=
  match fuel with
  | 0 => out_of_fuel
  | S fuel' =>
      let self : Differ := diff fuel' differs in
      let* d :=
        match a, b with
        | VList la, VList lb => diff_lists self differs la lb path None
        | VDict _, VDict _ => diff_dicts self differs a b path
        | VStr sa, VStr sb => ret (diff_strings sa sb)
        | _, _ => raise UnsupportedValueKind
        end in
      if validate_diff env d then ret d else raise MalformedDiff
  end.

(** [default_differs()]: no override at any path *)
Definition default_differs : gmap string Differ := ∅.

End Differ.

Arguments diff_sequence_algorithm : simpl never.

(** ** notebooks.py: how the entry points call the generic differ *)

(** Parameter names of the generic functions, as in their [def] lines. *)
Definition diff_dicts_parameters : list string :=
  ["a"; "b"; "path"; "predicates"; "differs"].

Definition diff_lists_parameters : list string :=
  ["a"; "b"; "path"; "predicates"; "differs"; "shallow_diff"].

(** Binding of keyword arguments at a call: a keyword that is not a
    parameter of the callee raises [TypeError] before the body runs. *)
Definition call_with_keywords {A} (fname : string) (parameters keywords : list string)
    (body : M A) : M A :=
  match filter (fun kw => kw ∉ parameters) keywords with
  | [] => body
  | kw :: _ =>
      raise (TypeError (fname +:+ "() got an unexpected keyword argument '" +:+ kw +:+ "'"))
  end.

Section Notebooks.

Context (env : Collaborators).

(** [diff_single_cells(a, b)]:
    [diff_dicts(a, b, subdiffs={"source": .., "outputs": ..})] *)
Definition diff_single_cells (fuel : nat) (a b : Value) : M Diff :=
  call_with_keywords "diff_dicts" diff_dicts_parameters ["subdiffs"]
    (diff_dicts env (diff env fuel default_differs) default_differs a b "").

(** [diff_notebooks(nba, nbb)]:
    [diff_dicts(nba, nbb, subdiffs={"cells": diff_cells})] *)
Definition diff_notebooks (fuel : nat) (nba nbb : Value) : M Diff :=
  call_with_keywords "diff_dicts" diff_dicts_parameters ["subdiffs"]
    (diff_dicts env (diff env fuel default_differs) default_differs nba nbb "").

(** The call of [old_diff_cells]:
    [diff_lists(cells_a, cells_b, compare=operator.__eq__, shallow_diff=shallow_diff)] *)
Definition old_diff_cells_call (fuel : nat) (cells_a cells_b : list Value)
    (shallow_diff : Diff) : M Diff :=
  call_with_keywords "diff_lists" diff_lists_parameters ["compare"; "shallow_diff"]
    (diff_lists env (diff env fuel default_differs) default_differs
       cells_a cells_b "" (Some shallow_diff)).

End Notebooks.

(** ** Replaying a diff

    Modelled from the spec: the patch collaborator ([nbdime/patching.py],
    not among the sources), from the meaning the data model gives to the
    entries: "Add: insert value at key (mapping) or position (sequence);
    Remove: delete element at key; Replace: wholesale replacement at
    key; Patch: subdiff is a nested diff to apply recursively", a
    sequence diff being walked in increasing source position.  Replay is
    strict: an entry that does not apply yields [None]. *)

Definition dict_has (k : string) (items : list (string * Value)) : bool :=
  bool_decide (is_Some (dict_get k items)).

Definition dict_set (k : string) (v : Value) (items : list (string * Value))
  : list (string * Value) :=
  if dict_has k items
  then map (fun kv => if String.eqb k kv.1 then (k, v) else kv) items
  else items ++ [(k, v)].

Definition dict_del (k : string) (items : list (string * Value))
  : list (string * Value) :=
  filter (fun kv => k ≠ kv.1) items.

Fixpoint patch_sequence (patch_entry : DiffEntry -> Value -> option Value)
    (d : Diff) (xs : list Value) (taken : nat) {struct d} : option (list Value) :=
  match d with
  | [] => Some (drop taken xs)
  | e :: rest =>
      let copied k := take (k - taken) (drop taken xs) in
      match e with
      | Add (KIdx k) v =>
          if decide (k <= length xs) then
            out ← patch_sequence patch_entry rest xs (Nat.max taken k);
            Some (copied k ++ v :: out)
          else None
      | Remove (KIdx k) =>
          if decide (taken <= k < length xs) then
            out ← patch_sequence patch_entry rest xs (S k);
            Some (copied k ++ out)
          else None
      | Replace (KIdx k) v =>
          if decide (taken <= k < length xs) then
            out ← patch_sequence patch_entry rest xs (S k);
            Some (copied k ++ v :: out)
          else None
      | Patch (KIdx k) _ =>
          if decide (taken <= k) then
            x ← xs !! k;
            x' ← patch_entry e x;
            out ← patch_sequence patch_entry rest xs (S k);
            Some (copied k ++ x' :: out)
          else None
      | _ => None
      end
  end.

Fixpoint patch_mapping (patch_entry : DiffEntry -> Value -> option Value)
    (d : Diff) (items : list (string * Value)) {struct d}
  : option (list (string * Value)) :=
  match d with
  | [] => Some items
  | e :: rest =>
      match e with
      | Add (KStr k) v =>
          if dict_has k items then None
          else patch_mapping patch_entry rest (items ++ [(k, v)])
      | Remove (KStr k) =>
          if dict_has k items then patch_mapping patch_entry rest (dict_del k items)
          else None
      | Replace (KStr k) v =>
          if dict_has k items then patch_mapping patch_entry rest (dict_set k v items)
          else None
      | Patch (KStr k) _ =>
          x ← dict_get k items;
          x' ← patch_entry e x;
          patch_mapping patch_entry rest (dict_set k x' items)
      | _ => None
      end
  end.

Fixpoint join_chars (xs : list Value) : option string :=
  match xs with
  | [] => Some EmptyString
  | VStr c :: rest => s ← join_chars rest; Some (c +:+ s)
  | _ => None
  end.

Definition patch_with (patch_entry : DiffEntry -> Value -> option Value)
    (d : Diff) (obj : Value) : option Value :=
  match obj with
  | VList xs => VList <$> patch_sequence patch_entry d xs 0
  | VDict items => VDict <$> patch_mapping patch_entry d items
  | VStr s => out ← patch_sequence patch_entry d (chars s) 0; VStr <$> join_chars out
  | _ => None
  end.

Fixpoint patch_entry (e : DiffEntry) (x : Value) {struct e} : option Value :=
  match e with
  | Patch _ subdiff => patch_with patch_entry subdiff x
  | _ => None
  end.

Definition patch (obj : Value) (d : Diff) : option Value :=
  patch_with patch_entry d obj.

(** ** Edit scripts between two sequences

    [script K P i a b s]: [s] aligns [a] (whose head sits at source
    position [i]) with [b].  Every element of [a] is used by exactly one
    of keep, remove, replace or patch, every element of [b] by exactly
    one of keep, add, replace or patch.  Kept pairs (not mentioned in
    [s]) are related by [K], patched pairs by [P].  A key is the source
    position the walk has reached; an insertion may carry the key at
    which the preceding removals started. *)
Inductive script (K : Value -> Value -> Prop) (P : Value -> Value -> Diff -> Prop)
  : nat -> list Value -> list Value -> Diff -> Prop :=
| script_end i a b :
    Forall2 K a b -> script K P i a b []
| script_keep i k x y a b e s :
    K x y -> entry_key e = KIdx k -> i < k ->
    script K P (S i) a b (e :: s) ->
    script K P i (x :: a) (y :: b) (e :: s)
| script_remove i x a b s :
    script K P (S i) a b s ->
    script K P i (x :: a) b (Remove (KIdx i) :: s)
| script_add i k y a b s :
    k <= i ->
    script K P i a b s ->
    script K P i a (y :: b) (Add (KIdx k) y :: s)
| script_replace i x y a b s :
    script K P (S i) a b s ->
    script K P i (x :: a) (y :: b) (Replace (KIdx i) y :: s)
| script_patch i x y cd a b s :
    P x y cd ->
    script K P (S i) a b s ->
    script K P i (x :: a) (y :: b) (Patch (KIdx i) cd :: s).

(** The contract of a shallow aligner: an edit script without [Patch]
    whose unmentioned pairs satisfy the predicate. *)
Definition aligned (c : Compare) : nat -> list Value -> list Value -> Diff -> Prop :=
  script (fun x y => apply_compare c x y = true) (fun _ _ _ => False).

Definition is_patch (e : DiffEntry) : bool :=
  match e with Patch _ _ => true | _ => false end.

(** ** Well-formed documents *)

(** Keys of every dict are distinct. *)
Fixpoint wf_value (v : Value) : bool :=
  match v with
  | VList xs => forallb wf_value xs
  | VDict items =>
      bool_decide (NoDup (dict_keys items)) &&
      forallb (fun kv => wf_value kv.2) items
  | _ => true
  end.

(** "Composed only of sequences, mappings, and text". *)
Fixpoint text_only (v : Value) : bool :=
  match v with
  | VStr _ => true
  | VList xs => forallb text_only xs
  | VDict items => forallb (fun kv => text_only kv.2) items
  | _ => false
  end.

(** Nesting depth: the fuel [diff] needs. *)
Fixpoint depth (v : Value) : nat :=
  match v with
  | VList xs => S (foldr (fun x n => Nat.max (depth x) n) 0 xs)
  | VDict items => S (foldr (fun kv n => Nat.max (depth kv.2) n) 0 items)
  | _ => 1
  end.

(** Both sequences, both mappings, or both text. *)
Definition same_kind (a b : Value) : bool :=
  match a, b with
  | VList _, VList _ | VDict _, VDict _ | VStr _, VStr _ => true
  | _, _ => false
  end.

(** ** Specifications of computations

    [hoare I m Q E F]: from a registry satisfying [I], [m] returns a
    value and registry satisfying [Q], or raises an error in [E], or
    runs out of fuel only if [F]. *)
Definition hoare {A} (I : Registry -> Prop) (m : M A)
    (Q : A -> Registry -> Prop) (E : Error -> Prop) (F : Prop) : Prop :=
  forall r, I r ->
    match m r with
    | Ret (x, r') => Q x r'
    | Raise e => E e
    | OutOfFuel => F
    end.

(** Every registered tuple is the default [(operator.__eq__,)]: the
    registries reachable from [default_predicates()]. *)
Definition default_like (r : Registry) : Prop :=
  forall p cs, r !! p = Some cs -> cs = default_compares.

(** ** A reference instance of the collaborators

    Used to run the differ on concrete documents. *)
Module Reference.

(** Modelled from the spec: the exhaustive strategy of the sequence
    aligner ([seq_bruteforce], not among the sources): "Exhaustive:
    guarantees a minimum-edit-distance script; must be deterministic",
    producing Add and Remove entries keyed by source position, a matched
    pair being left unmentioned. *)
Fixpoint exhaustive_script (delete_first : bool) (c : Compare) (a : list Value)
  : nat -> list Value -> Diff :=
  match a with
  | [] => fun i b => map (Add (KIdx i)) b
  | x :: a' =>
      fix against (i : nat) (b : list Value) {struct b} : Diff :=
        match b with
        | [] => Remove (KIdx i) :: exhaustive_script delete_first c a' (S i) []
        | y :: b' =>
            if apply_compare c x y then exhaustive_script delete_first c a' (S i) b'
            else
              let del := Remove (KIdx i) :: exhaustive_script delete_first c a' (S i) b in
              let ins := Add (KIdx i) y :: against i b' in
              if (if delete_first then length del <=? length ins
                  else length del <? length ins)
              then del else ins
        end
  end.

(** On a tie the exhaustive strategy removes before it inserts. *)
Definition align (a b : list Value) (c : Compare) : Diff :=
  exhaustive_script true c a 0 b.

(** Modelled from the spec: the classic strategy ([seq_myers], not among
    the sources), "an edit script with guaranteed minimum number of
    non-matched operations"; the same search, but on a tie it inserts
    before it removes. *)
Definition align_classic (a b : list Value) (c : Compare) : Diff :=
  exhaustive_script false c a 0 b.

(** Modelled from the spec: the validator of [diff_format] (not among
    the sources), the checks that need no source document: "Patch
    entries carry a non-empty subdiff", "a mapping-diff never has two
    entries for the same key", sequence keys "are non-decreasing". *)
Fixpoint keys_ordered (prev : nat) (ks : list Key) : bool :=
  match ks with
  | [] => true
  | KIdx k :: rest => (prev <=? k) && keys_ordered k rest
  | KStr _ :: _ => false
  end.

Definition is_string_key (k : Key) : bool :=
  match k with KStr _ => true | KIdx _ => false end.

Global Instance Key_eq_dec : EqDecision Key.
Proof. solve_decision. Defined.

Definition keys_valid (ks : list Key) : bool :=
  keys_ordered 0 ks || (forallb is_string_key ks && bool_decide (NoDup ks)).

Fixpoint entry_valid (e : DiffEntry) : bool :=
  match e with
  | Patch _ subdiff =>
      match subdiff with [] => false | _ => true end &&
      keys_valid (map entry_key subdiff) && forallb entry_valid subdiff
  | _ => true
  end.

Definition validate (d : Diff) : bool :=
  keys_valid (map entry_key d) && forallb entry_valid d.

(** The multilevel aligner ([snakes]) is outside the statements of this
    file; the reference instance does not provide one. *)
Definition env : Collaborators := {|
  diff_sequence_bruteforce := align;
  diff_sequence_myers := align_classic;
  diff_sequence_difflib := fun a b => align a b OpEq;
  compute_snakes_multilevel := fun _ _ _ => [];
  compute_diff_from_snakes := fun _ _ _ _ _ => raise (UnknownAlgorithm "snakes");
  validate_diff := validate
|}.

End Reference.


Definition num (n : Z) : Value := VInt n.

(** Run a computation from a registry and forget the final registry. *)
Definition run_from {A} (r : Registry) (m : M A) : outcome A :=
  match m r with
  | Ret (x, _) => Ret x
  | Raise e => Raise e
  | OutOfFuel => OutOfFuel
  end.

Definition kept (K : Value -> Value -> Prop) (P : Value -> Value -> Diff -> Prop)
  : Value -> Value -> Prop :=
  fun x y => K x y /\ (is_atomic x = true \/ P x y []).

Definition patched (K : Value -> Value -> Prop) (P : Value -> Value -> Diff -> Prop)
  : Value -> Value -> Diff -> Prop :=
  fun x y cd => K x y /\ is_atomic x = false /\ cd <> [] /\ P x y cd.

Definition head_key_ge (m : nat) (s : Diff) : Prop :=
  match s with
  | [] => True
  | e :: _ => exists k, entry_key e = KIdx k /\ m <= k
  end.

(** What the inner loop of [diff_lists] appends for [n] kept pairs from
    offset [k]: only patches, which together with the kept pairs extend
    any script for what follows. *)
Definition items_post (a b : list Value)
    (K : Value -> Value -> Prop) (P : Value -> Value -> Diff -> Prop)
    (i j k n : nat) (di di' : Diff) : Prop :=
  exists ps, di' = di ++ ps /\ Forall (fun e => is_patch e = true) ps /\
    forall T,
      script (kept K P) (patched K P)
        (i + k + n) (drop (i + k + n) a) (drop (j + k + n) b) T ->
      ((0 < n -> head_key_ge (i + k + n) T) ->
       script (kept K P) (patched K P) (i + k) (drop (i + k) a) (drop (j + k) b) (ps ++ T)) /\
      (head_key_ge (i + k + n) T -> head_key_ge (i + k) (ps ++ T)).

(** What the outer loop of [diff_lists] returns from cursors [il], [jl]
    on the shallow script [s]: both cursors at the ends, and the entries
    appended are [s] with patches woven in, a script for the two
    sequences from the cursors on. *)
Definition loop_post (a b : list Value)
    (K : Value -> Value -> Prop) (P : Value -> Value -> Diff -> Prop)
    (il jl : nat) (s di : Diff) (res : nat * nat * Diff) : Prop :=
  let '(i', j', di') := res in
  i' = length a /\ j' = length b /\
  exists out, di' = di ++ out /\
    filter (fun e => is_patch e = false) out = s /\
    script (kept K P) (patched K P) il (drop il a) (drop jl b) out.

(** The test of [diff_dicts] for recursing into a pair of values:
    [type(avalue) == type(bvalue) and not is_atomic(avalue)]. *)
Definition recursed (x y : Value) : bool :=
  PyType_eqb (type_of x) (type_of y) && negb (is_atomic x).

(** The entries [diff_dicts] emits for a key of both mappings: a
    recursed pair gives a [Patch] unless its diff is empty, a plainly
    compared pair gives a [Replace] unless the values are equal. *)
Definition common_entry (a b : list (string * Value))
    (P : Value -> Value -> Diff -> Prop) (key : string) (es : Diff) : Prop :=
  exists x y, dict_get key a = Some x /\ dict_get key b = Some y /\
    ((recursed x y = true /\
      ((es = [] /\ P x y []) \/
       exists dd, dd <> [] /\ P x y dd /\ es = [Patch (KStr key) dd])) \/
     (recursed x y = false /\
      ((es = [] /\ py_eq x y = true) \/
       (es = [Replace (KStr key) y] /\ py_eq x y = false)))).

(** What [diff_lists] returns on [a] and [b] through the shallow script
    [s]: [s] with patches for the kept pairs whose recursive diff is not
    empty, a script for [a] and [b]. *)
Definition list_post (a b : list Value)
    (K : Value -> Value -> Prop) (P : Value -> Value -> Diff -> Prop)
    (s d : Diff) : Prop :=
  filter (fun e => is_patch e = false) d = s /\
  script (kept K P) (patched K P) 0 a b d.

(** What [diff_dicts] returns on [a] and [b]: the removals, the entries
    of the common keys and the additions, put in order by the builder. *)
Definition dict_post (a b : list (string * Value))
    (P : Value -> Value -> Diff -> Prop) (d : Diff) : Prop :=
  exists outs vs,
    Forall2 (common_entry a b P) (sorted (elements (key_set a ∩ key_set b))) outs /\
    Forall2 (fun key v => dict_get key b = Some v)
      (sorted (elements (key_set b ∖ key_set a))) vs /\
    d = merge_sort entry_le
          (map (fun key => Remove (KStr key)) (sorted (elements (key_set a ∖ key_set b)))
           ++ concat outs
           ++ zip_with (fun key v => Add (KStr key) v)
                (sorted (elements (key_set b ∖ key_set a))) vs).

(** When the entry [e] of a mapping diff applies to [items]: the key it
    acts on and the value it leaves there ([None] for a removal). *)
Definition entry_applies (items : list (string * Value)) (e : DiffEntry)
    (k : string) (o : option Value) : Prop :=
  match e with
  | Add (KStr k') v => k' = k /\ dict_get k items = None /\ o = Some v
  | Remove (KStr k') => k' = k /\ is_Some (dict_get k items) /\ o = None
  | Replace (KStr k') v => k' = k /\ is_Some (dict_get k items) /\ o = Some v
  | Patch (KStr k') _ =>
      k' = k /\ exists x x',
        dict_get k items = Some x /\ patch_entry e x = Some x' /\ o = Some x'
  | _ => False
  end.

(** Replaying [d] on [x] gives a document equal ([==]) to [y]. *)
Notation replays x d y :=
  (exists x', patch x d = Some x' /\ py_eq x' y = true).

(** The failures the round trip leaves open. *)
Definition conflict_or_malformed (e : Error) : Prop :=
  (exists path, e = PredicateConflict path) \/ e = MalformedDiff.

(** ** Diffs validated at every level *)

(** The sub-diff carried by a [Patch] passes [validate], and so do the
    sub-diffs nested in it. *)
Fixpoint entry_checked (validate : Diff -> bool) (e : DiffEntry) : bool :=
  match e with
  | Patch _ subdiff => validate subdiff && forallb (entry_checked validate) subdiff
  | _ => true
  end.

Definition checked (validate : Diff -> bool) (d : Diff) : bool :=
  validate d && forallb (entry_checked validate) d.

(** ** Mappings that agree in kind

    Every key that two mappings share, at any depth reached through
    mappings, holds a pair of values that [diff_dicts] recurses into:
    no pair falls to the plain comparison.  Sequences are not entered:
    the elements that [diff_lists] pairs are equal. *)
Fixpoint kinds_agree (a b : Value) : bool :=
  match a, b with
  | VDict da, VDict db =>
      forallb (fun kv =>
                 match dict_get kv.1 db with
                 | Some y => recursed kv.2 y && kinds_agree kv.2 y
                 | None => true
                 end) da
  | _, _ => true
  end.

(** ** notebooks.py: the predicates on cells and outputs *)

(** The predicates read cells with [x["key"]] and [x["data"].keys()];
    they raise where a key or a method is missing. *)
Inductive NotebookError :=
| NbKeyError (key : string)
| NbTypeError (msg : string)
| NbAttributeError (msg : string).

Inductive result (A : Type) : Type :=
| Ok (x : A)
| Fail (e : NotebookError).
Arguments Ok {A} x.
Arguments Fail {A} e.

Definition result_bind {A B} (m : result A) (k : A -> result B) : result B :=
  match m with
  | Ok x => k x
  | Fail e => Fail e
  end.

Declare Scope nb_scope.
Delimit Scope nb_scope with nb.
Notation "'get' x ':=' m 'in' k" := (result_bind m (fun x => k))
  (at level 10, x name, m at level 100, k at level 200) : nb_scope.

(** [x[key]] with a string key: only a dict has one. *)
Definition subscript (x : Value) (key : string) : result Value :=
  match x with
  | VDict items =>
      match dict_get key items with
      | Some v => Ok v
      | None => Fail (NbKeyError key)
      end
  | _ => Fail (NbTypeError "indices must be integers")
  end.

(** [set(x.keys())]: only a dict has the method. *)
Definition method_keys (x : Value) : result (gset string) :=
  match x with
  | VDict items => Ok (key_set items)
  | _ => Fail (NbAttributeError "object has no attribute 'keys'")
  end.

(** ["\n".join(xs)]: every item must be a string. *)
Fixpoint join_lines (xs : list Value) : result string :=
  match xs with
  | [] => Ok EmptyString
  | VStr s :: rest =>
      match rest with
      | [] => Ok s
      | _ =>
          match join_lines rest with
          | Ok t => Ok (s +:+ String "010"%char t)
          | Fail e => Fail e
          end
      end
  | _ => Fail (NbTypeError "sequence item: expected str instance")
  end.

(** [if isinstance(xs, list): xs = "\n".join(xs)] *)
Definition joined_if_list (xs : Value) : result Value :=
  match xs with
  | VList items =>
      match join_lines items with
      | Ok s => Ok (VStr s)
      | Fail e => Fail e
      end
  | _ => Ok xs
  end.

Section NotebookPredicates.

Open Scope nb_scope.

(** The three tests on [difflib.SequenceMatcher(None, xs, ys,
    autojunk=False)] against the threshold 0.7, taken as given:
    [s.real_quick_ratio() < threshold], [s.quick_ratio() < threshold]
    and [s.ratio() > threshold]. *)
Context (real_quick_ratio_below quick_ratio_below ratio_above :
           Value -> Value -> result bool).

Definition compare_cell_source_approximate (x y : Value) : result bool :=
  get xt := subscript x "cell_type" in
  get yt := subscript y "cell_type" in
  if negb (py_eq xt yt) then Ok false else
  get xs := subscript x "source" in
  get ys := subscript y "source" in
  get xs := joined_if_list xs in
  get ys := joined_if_list ys in
  if py_eq xs ys then Ok true else
  get below := real_quick_ratio_below xs ys in
  if below : bool then Ok false else
  get below := quick_ratio_below xs ys in
  if below : bool then Ok false else
  ratio_above xs ys.

Definition compare_cell_source_exact (x y : Value) : result bool :=
  get xt := subscript x "cell_type" in
  get yt := subscript y "cell_type" in
  if negb (py_eq xt yt) then Ok false else
  get xs := subscript x "source" in
  get ys := subscript y "source" in
  if negb (py_eq xs ys) then Ok false else
  Ok true.

Definition compare_cell_source_and_outputs (x y : Value) : result bool :=
  get xt := subscript x "cell_type" in
  get yt := subscript y "cell_type" in
  if negb (py_eq xt yt) then Ok false else
  get xs := subscript x "source" in
  get ys := subscript y "source" in
  if negb (py_eq xs ys) then Ok false else
  get xt := subscript x "cell_type" in
  if py_eq xt (VStr "code") then
    get xo := subscript x "outputs" in
    get yo := subscript y "outputs" in
    if negb (py_eq xo yo) then Ok false else Ok true
  else Ok true.

Definition compare_output_type (x y : Value) : result bool :=
  get xt := subscript x "output_type" in
  get yt := subscript y "output_type" in
  if negb (py_eq xt yt) then Ok false else
  Ok true.

Definition compare_output_data_keys (x y : Value) : result bool :=
  get xt := subscript x "output_type" in
  get yt := subscript y "output_type" in
  if negb (py_eq xt yt) then Ok false else
  get xd := subscript x "data" in
  get xk := method_keys xd in
  get yd := subscript y "data" in
  get yk := method_keys yd in
  if bool_decide (xk <> yk) then Ok false else
  Ok true.

Definition compare_output_data (x y : Value) : result bool :=
  get xt := subscript x "output_type" in
  get yt := subscript y "output_type" in
  if negb (py_eq xt yt) then Ok false else
  get xd := subscript x "data" in
  get xk := method_keys xd in
  get yd := subscript y "data" in
  get yk := method_keys yd in
  if bool_decide (xk <> yk) then Ok false else
  get xd := subscript x "data" in
  get yd := subscript y "data" in
  if negb (py_eq xd yd) then Ok false else
  Ok true.

End NotebookPredicates.
(** * Properties *)

(** ** Rules for [hoare] *)

Section HoareRules.

Context {A B : Type}.
Implicit Types (I : Registry -> Prop) (E : Error -> Prop) (F : Prop).

Lemma hoare_ret I (x : A) (Q : A -> Registry -> Prop) E F :
  (forall r, I r -> Q x r) -> hoare I (ret x) Q E F.
Proof. intros H r Hr. simpl. auto. Qed.

Lemma hoare_raise I e (Q : A -> Registry -> Prop) E F :
  E e -> hoare I (raise e) Q E F.
Proof. intros H r Hr. exact H. Qed.

Lemma hoare_out_of_fuel I (Q : A -> Registry -> Prop) E F :
  F -> hoare I out_of_fuel Q E F.
Proof. intros H r Hr. exact H. Qed.

Lemma hoare_bind I (m : M A) (k : A -> M B) (Q1 : A -> Registry -> Prop)
    (Q : B -> Registry -> Prop) E F :
  hoare I m Q1 E F ->
  (forall x, hoare (Q1 x) (k x) Q E F) ->
  hoare I (bind m k) Q E F.
Proof.
  intros Hm Hk r Hr. unfold bind. specialize (Hm r Hr).
  destruct (m r) as [[x r']| |]; auto.
  apply (Hk x r' Hm).
Qed.

Lemma hoare_weaken I I' (m : M A) (Q Q' : A -> Registry -> Prop) E E' F F' :
  hoare I' m Q' E' F' ->
  (forall r, I r -> I' r) ->
  (forall x r, Q' x r -> Q x r) ->
  (forall e, E' e -> E e) ->
  (F' -> F) ->
  hoare I m Q E F.
Proof.
  intros Hm HI HQ HE HF r Hr. specialize (Hm r (HI r Hr)).
  destruct (m r) as [[x r']| |]; auto.
Qed.

Lemma hoare_pure I (P : Prop) (m : M A) (Q : A -> Registry -> Prop) E F :
  (P -> hoare I m Q E F) -> hoare (fun r => P /\ I r) m Q E F.
Proof. intros H r [HP Hr]. exact (H HP r Hr). Qed.

End HoareRules.

Lemma hoare_assert I (c : bool) (Q : unit -> Registry -> Prop) E F :
  c = true -> (forall r, I r -> Q tt r) -> hoare I (py_assert c) Q E F.
Proof. intros -> H. apply hoare_ret, H. Qed.

Lemma hoare_getitem {A} I (xs : list A) i x (Q : A -> Registry -> Prop) E F :
  xs !! i = Some x -> (forall r, I r -> Q x r) -> hoare I (getitem xs i) Q E F.
Proof. intros Hx H. unfold getitem. rewrite Hx. apply hoare_ret, H. Qed.

Lemma hoare_dict_getitem I items key x (Q : Value -> Registry -> Prop) E F :
  dict_get key items = Some x -> (forall r, I r -> Q x r) ->
  hoare I (dict_getitem items key) Q E F.
Proof. intros Hx H. unfold dict_getitem. rewrite Hx. apply hoare_ret, H. Qed.

(** A step that returns [x] and leaves the registry alone. *)
Lemma hoare_bind_pure {A B} I (m : M A) (k : A -> M B) x
    (Q : B -> Registry -> Prop) E F :
  (forall r, m r = Ret (x, r)) ->
  hoare I (k x) Q E F ->
  hoare I (bind m k) Q E F.
Proof. intros Hm Hk r Hr. unfold bind. rewrite Hm. by apply Hk. Qed.

Lemma getitem_Some {A} (xs : list A) i x r :
  xs !! i = Some x -> getitem xs i r = Ret (x, r).
Proof. intros H. unfold getitem. by rewrite H. Qed.

Lemma dict_getitem_Some items key x r :
  dict_get key items = Some x -> dict_getitem items key r = Ret (x, r).
Proof. intros H. unfold dict_getitem. by rewrite H. Qed.

Lemma py_assert_true c r : c = true -> py_assert c r = Ret (tt, r).
Proof. by intros ->. Qed.
Lemma script_prepend_keep K P i x y a b s :
  K x y -> head_key_ge (S i) s -> script K P (S i) a b s ->
  script K P i (x :: a) (y :: b) s.
Proof.
  intros HK Hh Hs. destruct s as [|e s].
  - inversion Hs; subst. apply script_end. by constructor.
  - destruct Hh as (k & Hk & Hle). eapply script_keep; eauto with lia.
Qed.

Lemma head_key_ge_mono m m' s : m' <= m -> head_key_ge m s -> head_key_ge m' s.
Proof.
  destruct s as [|e s]; [done|]. intros Hle (k & Hk & Hm). exists k. split; [done|lia].
Qed.

Lemma hoare_pure_l {A} I (P : Prop) (m : M A) (Q : A -> Registry -> Prop) E F :
  (P -> hoare I m Q E F) -> hoare (fun r => I r /\ P) m Q E F.
Proof. intros H r [Hr HP]. exact (H HP r Hr). Qed.

(** ** The loops of [diff_lists] *)

Section ListLoop.

Context (diffit : Differ) (subpath : string) (a b : list Value).
Context (K : Value -> Value -> Prop) (P : Value -> Value -> Diff -> Prop).
Context (I : Registry -> Prop) (E : Error -> Prop) (F : Prop).

Hypothesis diffit_spec : forall x y,
  x ∈ a -> y ∈ b -> K x y -> is_atomic x = false ->
  hoare I (diffit x y subpath) (fun cd r => I r /\ P x y cd) E F.

Notation out_script := (script (kept K P) (patched K P)).

Lemma diff_items_spec i j n : forall k di,
  (forall t, t < n -> exists x y,
      a !! (i + k + t) = Some x /\ b !! (j + k + t) = Some y /\ K x y) ->
  hoare I (diff_items diffit subpath a b i j k n di)
    (fun di' r => I r /\ items_post a b K P i j k n di di') E F.
Proof.
  induction n as [|n IH]; intros k di Hpairs.
  - simpl. apply hoare_ret. intros r Hr. split; [done|].
    exists []. rewrite app_nil_r. split; [done|]. split; [constructor|].
    intros T HT. rewrite !Nat.add_0_r in *. simpl. done.
  - simpl.
    destruct (Hpairs 0 ltac:(lia)) as (x & y & Hx & Hy & HK).
    rewrite !Nat.add_0_r in Hx, Hy.
    assert (Hrest : forall t, t < n -> exists x y,
      a !! (i + S k + t) = Some x /\ b !! (j + S k + t) = Some y /\ K x y).
    { intros t Ht. destruct (Hpairs (S t) ltac:(lia)) as (x' & y' & ? & ? & ?).
      exists x', y'. replace (i + S k + t) with (i + k + S t) by lia.
      replace (j + S k + t) with (j + k + S t) by lia. done. }
    (* the remaining items, seen from the current pair *)
    assert (Hstep : forall ps T,
      (forall T,
        out_script (i + S k + n) (drop (i + S k + n) a) (drop (j + S k + n) b) T ->
        ((0 < n -> head_key_ge (i + S k + n) T) ->
         out_script (i + S k) (drop (i + S k) a) (drop (j + S k) b) (ps ++ T)) /\
        (head_key_ge (i + S k + n) T -> head_key_ge (i + S k) (ps ++ T))) ->
      out_script (i + k + S n) (drop (i + k + S n) a) (drop (j + k + S n) b) T ->
      head_key_ge (i + k + S n) T ->
      out_script (S (i + k)) (drop (S (i + k)) a) (drop (S (j + k)) b) (ps ++ T) /\
      head_key_ge (S (i + k)) (ps ++ T)).
    { intros ps T Hps HT1 HT2.
      replace (i + k + S n) with (i + S k + n) in * by lia.
      replace (j + k + S n) with (j + S k + n) in * by lia.
      replace (S (i + k)) with (i + S k) in * by lia.
      replace (S (j + k)) with (j + S k) in * by lia.
      destruct (Hps T HT1) as [H1 H2]. split; auto. }
    eapply hoare_bind_pure; [intros; by apply getitem_Some|].
    eapply hoare_bind_pure; [intros; by apply getitem_Some|].
    destruct (is_atomic x) eqn:Hatom; simpl.
    + (* atomic: no recursion, no entry *)
      eapply hoare_bind_pure; [done|].
      eapply hoare_weaken; [apply (IH (S k) di Hrest)|done| |done|done].
      intros di' r [Hr (ps & -> & Hall & Hps)]. split; [done|].
      exists ps. split; [done|]. split; [done|].
      intros T HT. rewrite (drop_S a x (i + k) Hx), (drop_S b y (j + k) Hy).
      assert (Hk : kept K P x y) by (split; auto).
      split.
      * intros Hh. destruct (Hstep ps T Hps HT (Hh ltac:(lia))) as [H1 H2].
        by apply script_prepend_keep.
      * intros Hh. destruct (Hstep ps T Hps HT Hh) as [H1 H2].
        eapply head_key_ge_mono; [|exact H2]. lia.
    + eapply (hoare_bind _ _ _ (fun di1 r => I r /\
          ((di1 = di /\ P x y []) \/
           exists cd, cd <> [] /\ P x y cd /\ di1 = di ++ [Patch (KIdx (i + k)) cd]))).
      { eapply hoare_bind.
        - apply diffit_spec; [by eapply list_elem_of_lookup_2..|done|done].
        - intros cd. apply hoare_ret. intros r [Hr HP]. split; [done|].
          destruct cd as [|e cd]; [by left|right]. by exists (e :: cd). }
      intros di1. simpl.
      intros r [Hr Hdi1]. revert r Hr.
      change (hoare I (diff_items diffit subpath a b i j (S k) n di1)
                (fun di' r => I r /\ items_post a b K P i j k (S n) di di') E F).
      eapply hoare_weaken; [apply (IH (S k) di1 Hrest)|done| |done|done].
      intros di' r [Hr (ps & -> & Hall & Hps)]. split; [done|].
      destruct Hdi1 as [[-> HP]|(cd & Hcd & HP & ->)].
      * exists ps. split; [done|]. split; [done|].
        intros T HT. rewrite (drop_S a x (i + k) Hx), (drop_S b y (j + k) Hy).
        assert (Hk : kept K P x y) by (split; auto).
        split.
        -- intros Hh. destruct (Hstep ps T Hps HT (Hh ltac:(lia))) as [H1 H2].
           by apply script_prepend_keep.
        -- intros Hh. destruct (Hstep ps T Hps HT Hh) as [H1 H2].
           eapply head_key_ge_mono; [|exact H2]. lia.
      * exists (Patch (KIdx (i + k)) cd :: ps). split; [by rewrite <- app_assoc|].
        split; [by constructor|].
        intros T HT. rewrite (drop_S a x (i + k) Hx), (drop_S b y (j + k) Hy).
        simpl. split.
        -- intros Hh. destruct (Hstep ps T Hps HT (Hh ltac:(lia))) as [H1 H2].
           apply script_patch; [|done]. by repeat split.
        -- intros _. exists (i + k). done.
Qed.

Lemma filter_patches_nil (ps : Diff) :
  Forall (fun e => is_patch e = true) ps ->
  filter (fun e => is_patch e = false) ps = [].
Proof.
  induction 1 as [|e ps He _ IH]; [done|].
  rewrite filter_cons_False; [done|]. by rewrite He.
Qed.

Lemma drop_cons_inv {A} (l : list A) n x l' :
  drop n l = x :: l' -> l !! n = Some x /\ drop (S n) l = l' /\ n < length l.
Proof.
  intros H.
  assert (Hx : l !! n = Some x).
  { rewrite <- (Nat.add_0_r n), <- lookup_drop, H. done. }
  split; [done|]. split.
  - rewrite (drop_S _ _ _ Hx) in H. congruence.
  - by eapply lookup_lt_Some.
Qed.

Lemma diff_lists_loop_spec s i ar br :
  script K (fun _ _ _ => False) i ar br s ->
  forall il jl m di,
    i = il + m -> ar = drop (il + m) a -> br = drop (jl + m) b ->
    il + m <= length a -> jl + m <= length b ->
    (forall t, t < m -> exists x y,
        a !! (il + t) = Some x /\ b !! (jl + t) = Some y /\ K x y) ->
    (0 < m -> s <> [] /\ head_key_ge (il + m) s) ->
    hoare I (diff_lists_loop diffit subpath a b s il jl di)
      (fun res r => I r /\ loop_post a b K P il jl s di res) E F.
Proof.
  induction 1 as [i ar br Hall | i k x y ar br e s HK Hkey Hlt Hs IH
                  | i x ar br s Hs IH | i k y ar br s Hle Hs IH
                  | i x y ar br s Hs IH | i x y cd ar br s HP Hs IH];
    intros il jl m di Hi Har Hbr Hla Hlb Hpend Hm.
  - (* the last round *)
    assert (m = 0) as -> by (destruct m; [done|]; destruct Hm as [? _]; [lia|done]).
    rewrite Nat.add_0_r in *. subst i ar br.
    pose proof (Forall2_length _ _ _ Hall) as Hlen. rewrite !length_drop in Hlen.
    simpl.
    eapply hoare_bind_pure; [intros; apply py_assert_true; lia|].
    eapply hoare_bind_pure; [intros; apply py_assert_true; lia|].
    eapply hoare_bind.
    + apply (diff_items_spec il jl _ 0 di).
      intros t Ht. rewrite !Nat.add_0_r.
      destruct (lookup_lt_is_Some_2 (drop il a) t) as [x Hx];
        [rewrite length_drop; lia|].
      destruct (Forall2_lookup_l _ _ _ _ _ Hall Hx) as (y & Hy & HK).
      rewrite lookup_drop in Hx, Hy. eauto.
    + intros di'. apply hoare_ret. intros r [Hr (ps & -> & Hps & Hext)].
      split; [done|]. split; [lia|]. split; [lia|].
      exists ps. split; [done|]. split; [by apply filter_patches_nil|].
      rewrite !Nat.add_0_r in Hext.
      destruct (Hext []) as [H1 _].
      * apply script_end. rewrite !drop_ge by lia. constructor.
      * rewrite app_nil_r in H1. apply H1. done.
  - (* a kept pair: it is consumed when the next entry is reached *)
    subst i. destruct (drop_cons_inv _ _ _ _ (eq_sym Har)) as (Hx & Ha' & ?).
    destruct (drop_cons_inv _ _ _ _ (eq_sym Hbr)) as (Hy & Hb' & ?).
    apply (IH il jl (S m) di).
    + lia.
    + rewrite <- Ha'. f_equal. lia.
    + rewrite <- Hb'. f_equal. lia.
    + lia.
    + lia.
    + intros t Ht. destruct (decide (t = m)) as [->|]; [eauto|].
      apply Hpend. lia.
    + intros _. split; [done|]. exists k. split; [done|lia].
  - (* Remove *)
    subst i. destruct (drop_cons_inv _ _ _ _ (eq_sym Har)) as (Hx & Ha' & ?).
    cbn [diff_lists_loop sequence_index entry_key count_consumed_symbols].
    eapply hoare_bind_pure; [done|].
    replace (Nat.max 0 (il + m - il)) with m by lia.
    eapply hoare_bind.
    { apply (diff_items_spec il jl m 0 di). intros t Ht. rewrite !Nat.add_0_r. auto. }
    intros di1. apply hoare_pure_l. intros (ps & -> & Hps & Hext).
    eapply hoare_weaken;
      [apply (IH (il + (m + 1)) (jl + (m + 0)) 0 ((di ++ ps) ++ [Remove (KIdx (il + m))]))
      |done| |done|done].
    + lia.
    + rewrite <- Ha'. f_equal. lia.
    + rewrite Hbr. f_equal. lia.
    + lia.
    + lia.
    + intros t Ht. lia.
    + intros Hm0. lia.
    + intros [[i' j'] di'] r [Hr (-> & -> & out & -> & Hf & Hout)].
      split; [done|]. split; [done|]. split; [done|].
      exists (ps ++ Remove (KIdx (il + m)) :: out).
      split; [by rewrite <- !app_assoc|]. split.
      * rewrite filter_app, (filter_patches_nil _ Hps), filter_cons_True by done.
        simpl. by rewrite Hf.
      * rewrite !Nat.add_0_r in Hext.
        destruct (Hext (Remove (KIdx (il + m)) :: out)) as [H1 _].
        -- rewrite <- Har, <- Hbr. apply script_remove.
           replace (S (il + m)) with (il + (m + 1)) by lia.
           rewrite <- Ha'. rewrite Hbr.
           replace (S (il + m)) with (il + (m + 1)) by lia.
           replace (jl + m) with (jl + (m + 0)) by lia. exact Hout.
        -- apply H1. intros _. exists (il + m). done.
  - (* Add *)
    subst i. destruct (drop_cons_inv _ _ _ _ (eq_sym Hbr)) as (Hy & Hb' & ?).
    cbn [diff_lists_loop sequence_index entry_key count_consumed_symbols].
    eapply hoare_bind_pure; [done|].
    assert (Hn : Nat.max 0 (k - il) = m).
    { destruct m; [lia|]. destruct Hm as [_ (k' & Hk' & ?)]; [lia|].
      simpl in Hk'. injection Hk' as ->. lia. }
    rewrite Hn.
    eapply hoare_bind.
    { apply (diff_items_spec il jl m 0 di). intros t Ht. rewrite !Nat.add_0_r. auto. }
    intros di1. apply hoare_pure_l. intros (ps & -> & Hps & Hext).
    eapply hoare_weaken;
      [apply (IH (il + (m + 0)) (jl + (m + 1)) 0 ((di ++ ps) ++ [Add (KIdx k) y]))
      |done| |done|done].
    + lia.
    + rewrite Har. f_equal. lia.
    + rewrite <- Hb'. f_equal. lia.
    + lia.
    + lia.
    + intros t Ht. lia.
    + intros Hm0. lia.
    + intros [[i' j'] di'] r [Hr (-> & -> & out & -> & Hf & Hout)].
      split; [done|]. split; [done|]. split; [done|].
      exists (ps ++ Add (KIdx k) y :: out).
      split; [by rewrite <- !app_assoc|]. split.
      * rewrite filter_app, (filter_patches_nil _ Hps), filter_cons_True by done.
        simpl. by rewrite Hf.
      * rewrite !Nat.add_0_r in Hext.
        destruct (Hext (Add (KIdx k) y :: out)) as [H1 _].
        -- rewrite <- Har, <- Hbr. apply script_add; [done|].
           rewrite Har, <- Hb'.
           replace (S (jl + m)) with (jl + (m + 1)) by lia.
           replace (il + m) with (il + (m + 0)) by lia. exact Hout.
        -- apply H1. intros Hm0. exists k. split; [done|]. lia.
  - (* Replace *)
    subst i. destruct (drop_cons_inv _ _ _ _ (eq_sym Har)) as (Hx & Ha' & ?).
    destruct (drop_cons_inv _ _ _ _ (eq_sym Hbr)) as (Hy & Hb' & ?).
    cbn [diff_lists_loop sequence_index entry_key count_consumed_symbols].
    eapply hoare_bind_pure; [done|].
    replace (Nat.max 0 (il + m - il)) with m by lia.
    eapply hoare_bind.
    { apply (diff_items_spec il jl m 0 di). intros t Ht. rewrite !Nat.add_0_r. auto. }
    intros di1. apply hoare_pure_l. intros (ps & -> & Hps & Hext).
    eapply hoare_weaken;
      [apply (IH (il + (m + 1)) (jl + (m + 1)) 0 ((di ++ ps) ++ [Replace (KIdx (il + m)) y]))
      |done| |done|done].
    + lia.
    + rewrite <- Ha'. f_equal. lia.
    + rewrite <- Hb'. f_equal. lia.
    + lia.
    + lia.
    + intros t Ht. lia.
    + intros Hm0. lia.
    + intros [[i' j'] di'] r [Hr (-> & -> & out & -> & Hf & Hout)].
      split; [done|]. split; [done|]. split; [done|].
      exists (ps ++ Replace (KIdx (il + m)) y :: out).
      split; [by rewrite <- !app_assoc|]. split.
      * rewrite filter_app, (filter_patches_nil _ Hps), filter_cons_True by done.
        simpl. by rewrite Hf.
      * rewrite !Nat.add_0_r in Hext.
        destruct (Hext (Replace (KIdx (il + m)) y :: out)) as [H1 _].
        -- rewrite <- Har, <- Hbr. apply script_replace.
           rewrite <- Ha', <- Hb'.
           replace (S (il + m)) with (il + (m + 1)) by lia.
           replace (S (jl + m)) with (jl + (m + 1)) by lia. exact Hout.
        -- apply H1. intros _. exists (il + m). done.
  - done.
Qed.

(** The loop of [diff_lists] over a shallow script for [a] and [b]. *)
Lemma diff_lists_loop_complete s :
  script K (fun _ _ _ => False) 0 a b s ->
  hoare I (diff_lists_loop diffit subpath a b s 0 0 [])
    (fun res r => I r /\ loop_post a b K P 0 0 s [] res) E F.
Proof.
  intros Hs. apply (diff_lists_loop_spec s 0 a b Hs 0 0 0 []); try done; lia.
Qed.

End ListLoop.

(** ** The loops of [diff_dicts] *)

Section DictLoop.

Context (diff : Differ) (differs : gmap string Differ).
Context (a b : list (string * Value)) (path : string).
Context (P : Value -> Value -> Diff -> Prop).
Context (I : Registry -> Prop) (E : Error -> Prop) (F : Prop).

Hypothesis recursion_spec : forall key x y,
  dict_get key a = Some x -> dict_get key b = Some y -> recursed x y = true ->
  hoare I (differs_get differs (join_path path key) diff x y (join_path path key))
    (fun dd r => I r /\ P x y dd) E F.

Hypothesis conflict_allowed : forall key x y,
  dict_get key a = Some x -> dict_get key b = Some y -> recursed x y = false ->
  E (PredicateConflict path).

Lemma diff_dicts_loop_spec keys : forall di,
  (forall key, key ∈ keys -> is_Some (dict_get key a) /\ is_Some (dict_get key b)) ->
  hoare I (diff_dicts_loop diff differs a b path keys di)
    (fun di' r => I r /\
       exists outs, Forall2 (common_entry a b P) keys outs /\ di' = di ++ concat outs)
    E F.
Proof.
  induction keys as [|key keys IH]; intros di Hkeys.
  - simpl. apply hoare_ret. intros r Hr. split; [done|].
    exists []. split; [constructor|]. by rewrite app_nil_r.
  - destruct (Hkeys key ltac:(left)) as [[x Hx] [y Hy]].
    cbn [diff_dicts_loop].
    eapply hoare_bind_pure; [intros; by apply dict_getitem_Some|].
    eapply hoare_bind_pure; [intros; by apply dict_getitem_Some|].
    eapply (hoare_bind _ _ _ (fun di1 r => I r /\
              exists es, common_entry a b P key es /\ di1 = di ++ es)).
    + fold (recursed x y). destruct (recursed x y) eqn:Hrec.
      * eapply hoare_bind; [by apply recursion_spec|].
        intros dd. apply hoare_ret. intros r [Hr HP]. split; [done|].
        destruct dd as [|e dd].
        -- exists []. rewrite app_nil_r. split; [|done].
           exists x, y. do 2 (split; [done|]). left. auto.
        -- eexists. split; [|done].
           exists x, y. do 2 (split; [done|]). left. split; [done|]. right.
           exists (e :: dd). done.
      * intros r Hr. unfold bind, predicates_contains.
        destruct (bool_decide (is_Some (r !! path))).
        -- simpl. by eapply conflict_allowed.
        -- simpl. split; [done|]. destruct (py_eq x y) eqn:Heq; simpl.
           ++ exists []. rewrite app_nil_r. split; [|done].
              exists x, y. do 2 (split; [done|]). right. auto.
           ++ eexists. split; [|done].
              exists x, y. do 2 (split; [done|]). right. auto.
    + intros di1. apply hoare_pure_l. intros (es & Hes & ->).
      eapply hoare_weaken; [apply (IH (di ++ es))|done| |done|done].
      * intros k Hk. apply Hkeys. by right.
      * intros di' r [Hr (outs & Houts & ->)]. split; [done|].
        exists (es :: outs). split; [by constructor|].
        simpl. by rewrite <- app_assoc.
Qed.

End DictLoop.

Lemma diff_dicts_adds_spec b keys : forall di r,
  (forall key, key ∈ keys -> is_Some (dict_get key b)) ->
  exists vs, Forall2 (fun key v => dict_get key b = Some v) keys vs /\
    diff_dicts_adds b keys di r
    = Ret (di ++ zip_with (fun key v => Add (KStr key) v) keys vs, r).
Proof.
  induction keys as [|key keys IH]; intros di r Hkeys.
  - exists []. split; [constructor|]. simpl. by rewrite app_nil_r.
  - destruct (Hkeys key ltac:(left)) as [v Hv].
    destruct (IH (di ++ [Add (KStr key) v]) r) as (vs & Hvs & Heq).
    { intros k Hk. apply Hkeys. by right. }
    exists (v :: vs). split; [by constructor|].
    simpl. unfold bind. rewrite (dict_getitem_Some _ _ _ _ Hv), Heq.
    by rewrite <- app_assoc.
Qed.

(** ** The order on keys *)

Lemma string_le_iff s t :
  string_le s t <-> s = t \/ String_as_OT.lt s t.
Proof.
  unfold string_le, String.leb.
  pose proof (String_as_OT.cmp_eq s t) as Heq.
  pose proof (String_as_OT.cmp_lt s t) as Hlt.
  pose proof (String_as_OT.cmp_lt t s) as Hgt.
  pose proof (String_as_OT.cmp_antisym s t) as Hanti.
  unfold String_as_OT.cmp in *.
  destruct (String.compare s t) eqn:Hc.
  - split; [intros _; left; by apply Heq|done].
  - split; [intros _; right; by apply Hlt|done].
  - split; [done|]. intros [->|H].
    + assert (String.compare t t = Eq) by (by apply String_as_OT.cmp_eq). congruence.
    + apply Hlt in H. discriminate.
Qed.

Global Instance string_le_total : Total string_le.
Proof. intros s t. apply String.leb_total. Qed.

Global Instance string_le_antisymm : AntiSymm (=) string_le.
Proof. intros s t. apply String.leb_antisym. Qed.

Global Instance string_le_trans : Transitive string_le.
Proof.
  intros s t u. rewrite !string_le_iff. intros [->|H1] [->|H2]; auto.
  right. by eapply String_as_OT.lt_trans.
Qed.

Global Instance string_le_refl : Reflexive string_le.
Proof. intros s. apply string_le_iff. by left. Qed.

Global Instance key_le_total : Total key_le.
Proof.
  intros [i|s] [j|t]; simpl; auto.
  - lia.
  - apply string_le_total.
Qed.

Global Instance key_le_trans : Transitive key_le.
Proof.
  intros [i|s] [j|t] [k|u]; simpl; try done; try lia.
  apply string_le_trans.
Qed.

Global Instance entry_le_total : Total entry_le.
Proof. intros e1 e2. apply key_le_total. Qed.

Global Instance entry_le_trans : Transitive entry_le.
Proof. intros e1 e2 e3. apply key_le_trans. Qed.

(** [sorted] of a set of keys *)
Lemma elem_of_sorted key keys : key ∈ sorted keys <-> key ∈ keys.
Proof. unfold sorted. by rewrite merge_sort_Permutation. Qed.

Lemma sorted_Sorted keys : Sorted string_le (sorted keys).
Proof. apply Sorted_merge_sort, _. Qed.

Lemma sorted_NoDup keys : NoDup keys -> NoDup (sorted keys).
Proof. unfold sorted. by rewrite merge_sort_Permutation. Qed.

(** Sorting depends on the set of keys only. *)
Lemma sorted_perm keys keys' : keys ≡ₚ keys' -> sorted keys = sorted keys'.
Proof.
  intros Hp. apply (Sorted_unique string_le).
  - apply sorted_Sorted.
  - apply sorted_Sorted.
  - unfold sorted. by rewrite !merge_sort_Permutation.
Qed.

Lemma dict_get_is_Some key items :
  is_Some (dict_get key items) <-> key ∈ dict_keys items.
Proof.
  induction items as [|[k v] items IH]; simpl.
  - split; [by intros [? ?]|by intros ?%elem_of_nil].
  - destruct (String.eqb_spec key k) as [->|Hne].
    + split; [intros _; left|eauto].
    + rewrite IH. split; [by right|]. intros [?|?]%elem_of_cons; done.
Qed.

Lemma elem_of_key_set key items :
  key ∈ key_set items <-> is_Some (dict_get key items).
Proof. unfold key_set. by rewrite elem_of_list_to_set, dict_get_is_Some. Qed.

(** ** Values: induction, equality, well-formedness *)

Lemma Value_nested_ind (P : Value -> Prop) :
  P VNone ->
  (forall b, P (VBool b)) ->
  (forall n, P (VInt n)) ->
  (forall s, P (VStr s)) ->
  (forall xs, Forall P xs -> P (VList xs)) ->
  (forall items, Forall (fun kv => P kv.2) items -> P (VDict items)) ->
  forall v, P v.
Proof.
  intros HNone HBool HInt HStr HList HDict.
  fix IH 1. intros [ |b|n|s|xs|items].
  - exact HNone.
  - apply HBool.
  - apply HInt.
  - apply HStr.
  - apply HList. induction xs as [|x xs IHxs]; constructor; [apply IH|exact IHxs].
  - apply HDict. induction items as [|[k v] items IHitems]; constructor;
      [apply IH|exact IHitems].
Qed.

Lemma py_eq_list xs ys :
  py_eq (VList xs) (VList ys) = true <-> Forall2 (fun x y => py_eq x y = true) xs ys.
Proof.
  revert ys. induction xs as [|x xs IH]; intros [|y ys]; simpl.
  - split; [constructor|done].
  - split; [done|inversion 1].
  - split; [done|inversion 1].
  - rewrite andb_true_iff. specialize (IH ys). simpl in IH. rewrite IH.
    split; [intros []; by constructor|inversion 1; by subst].
Qed.

Lemma py_eq_dict m n :
  py_eq (VDict m) (VDict n) = true <->
  length m = length n /\
  Forall (fun kv => exists w, dict_get kv.1 n = Some w /\ py_eq kv.2 w = true) m.
Proof.
  simpl. rewrite andb_true_iff, Nat.eqb_eq.
  apply and_iff_compat_l.
  induction m as [|[k v] m IH]; simpl.
  - split; [constructor|done].
  - rewrite andb_true_iff, IH. split.
    + intros [Hk Hm]. constructor; [|done]. simpl.
      destruct (dict_get k n) as [w|]; [eauto|done].
    + inversion 1 as [|? ? (w & Hw & Heq) Hm]; subst. simpl in *.
      rewrite Hw. done.
Qed.

Lemma dict_get_elem_of key v items :
  NoDup (dict_keys items) -> (key, v) ∈ items -> dict_get key items = Some v.
Proof.
  induction items as [|[k w] items IH]; simpl; intros Hnd Hin.
  - by apply elem_of_nil in Hin.
  - apply NoDup_cons in Hnd as [Hk Hnd].
    apply elem_of_cons in Hin as [Heq|Hin].
    + injection Heq as -> ->. by rewrite String.eqb_refl.
    + destruct (String.eqb_spec key k) as [->|Hne]; [|by apply IH].
      exfalso. apply Hk. unfold dict_keys. apply list_elem_of_fmap.
      by exists (k, v).
Qed.

Lemma dict_get_Some_elem_of key v items :
  dict_get key items = Some v -> (key, v) ∈ items.
Proof.
  induction items as [|[k w] items IH]; simpl; [done|].
  destruct (String.eqb_spec key k) as [->|Hne].
  - intros [= ->]. left.
  - intros H. right. by apply IH.
Qed.

Lemma wf_value_list xs :
  wf_value (VList xs) = true <-> Forall (fun x => wf_value x = true) xs.
Proof. simpl. by rewrite forallb_forall, Forall_forall; setoid_rewrite list_elem_of_In. Qed.

Lemma wf_value_dict items :
  wf_value (VDict items) = true <->
  NoDup (dict_keys items) /\ Forall (fun kv => wf_value kv.2 = true) items.
Proof.
  simpl. rewrite andb_true_iff, bool_decide_eq_true.
  apply and_iff_compat_l.
  by rewrite forallb_forall, Forall_forall; setoid_rewrite list_elem_of_In.
Qed.

Lemma py_eq_refl v : wf_value v = true -> py_eq v v = true.
Proof.
  induction v as [ |b|n|s|xs IH|items IH] using Value_nested_ind; intros Hwf.
  - done.
  - by destruct b.
  - simpl. apply Z.eqb_refl.
  - simpl. apply String.eqb_refl.
  - apply py_eq_list. apply wf_value_list in Hwf.
    induction xs as [|x xs IHxs]; [constructor|].
    inversion IH; inversion Hwf; subst. constructor; auto.
  - apply py_eq_dict. split; [done|].
    apply wf_value_dict in Hwf as [Hnd Hwf].
    apply Forall_forall. intros [k v] Hin. simpl.
    exists v. split; [by apply dict_get_elem_of|].
    rewrite Forall_forall in IH, Hwf. apply (IH (k, v) Hin), (Hwf (k, v) Hin).
Qed.

(** Values that [==] relates are of the same kind, booleans and
    integers apart. *)
Lemma py_eq_same_kind x y :
  py_eq x y = true -> is_atomic x = false -> same_kind x y = true.
Proof. destruct x, y; done. Qed.

Lemma py_eq_atomic x y :
  py_eq x y = true -> is_atomic y = is_atomic x.
Proof. destruct x, y; done. Qed.

Lemma py_eq_VStr_r x t : py_eq x (VStr t) = true -> x = VStr t.
Proof. destruct x; try done. simpl. by intros ->%String.eqb_eq. Qed.

Lemma py_eq_VStr_l s y : py_eq (VStr s) y = true -> y = VStr s.
Proof. destruct y; try done. simpl. by intros ->%String.eqb_eq. Qed.

Lemma py_eq_VList_l xs y :
  py_eq (VList xs) y = true -> exists ys, y = VList ys.
Proof. destruct y; try done. by eexists. Qed.

Lemma same_kind_recursed x y :
  same_kind x y = true -> recursed x y = true.
Proof. destruct x, y; done. Qed.

Lemma recursed_same_kind x y :
  recursed x y = true -> same_kind x y = true.
Proof. destruct x, y; done. Qed.

Lemma text_only_list xs :
  text_only (VList xs) = true <-> Forall (fun x => text_only x = true) xs.
Proof. simpl. by rewrite forallb_forall, Forall_forall; setoid_rewrite list_elem_of_In. Qed.

Lemma text_only_dict items :
  text_only (VDict items) = true <-> Forall (fun kv => text_only kv.2 = true) items.
Proof. simpl. by rewrite forallb_forall, Forall_forall; setoid_rewrite list_elem_of_In. Qed.

Lemma text_only_not_atomic x : text_only x = true -> is_atomic x = false.
Proof. by destruct x. Qed.

Lemma text_only_recursed x : text_only x = true -> recursed x x = true.
Proof. by destruct x. Qed.

Lemma depth_pos v : 1 <= depth v.
Proof. destruct v; simpl; lia. Qed.

Lemma depth_list_elem x xs : x ∈ xs -> depth x < depth (VList xs).
Proof.
  simpl. induction 1 as [x xs|x y xs _ IH]; simpl; lia.
Qed.

Lemma depth_dict_elem k x items : (k, x) ∈ items -> depth x < depth (VDict items).
Proof.
  simpl. intros H. remember (k, x) as kv eqn:Hkv. revert Hkv.
  induction H as [kv items|kv kv' items _ IH]; intros ->; simpl; [lia|].
  specialize (IH eq_refl). lia.
Qed.

Lemma chars_py_eq_refl s :
  Forall2 (fun x y => py_eq x y = true) (chars s) (chars s).
Proof.
  unfold chars. induction (list_ascii_of_string s) as [|c cs IH]; simpl; constructor.
  - apply (String.eqb_refl (String c "")).
  - exact IH.
Qed.

(** A script whose patched pairs are impossible has no [Patch]. *)
Lemma script_no_patch K P i a b d :
  script K P i a b d -> (forall x y cd, ~ P x y cd) ->
  Forall (fun e => is_patch e = false) d.
Proof.
  intros Hs HP. induction Hs; try (constructor; done); try done.
  by destruct (HP x y cd).
Qed.

Lemma filter_all {A} (Q : A -> Prop) `{forall x, Decision (Q x)} (l : list A) :
  Forall Q l -> filter Q l = l.
Proof.
  induction 1 as [|x l Hx _ IH]; [done|]. by rewrite filter_cons_True, IH.
Qed.

(** ** [diff_lists] and [diff_dicts] around their loops *)

Section Wrappers.

Context (env : Collaborators) (diff : Differ) (differs : gmap string Differ).
Context (I : Registry -> Prop) (E : Error -> Prop) (F : Prop).

(** With a single predicate [c] registered (or defaulted) at [path],
    [diff_lists] is its loop over the script of the default aligner,
    followed by the two final asserts and the validation. *)
Lemma diff_lists_unfold a b path c r r' :
  predicates_getitem path r = Ret ([c], r') ->
  diff_lists env diff differs a b path None r =
  (let* res := diff_lists_loop (differs_get differs (join_path path "*") diff)
                 (join_path path "*") a b (diff_sequence_bruteforce env a b c) 0 0 [] in
   let '(i, j, di) := res in
   py_assert (i =? length a) ;;;
   py_assert (j =? length b) ;;;
   sequence_validated env di) r'.
Proof.
  intros Hg. unfold diff_lists. unfold bind at 1. rewrite Hg. simpl.
  unfold bind at 1. unfold bind at 1. simpl. unfold diff_sequence.
  change (String.eqb diff_sequence_algorithm "difflib") with false.
  change (String.eqb diff_sequence_algorithm "bruteforce") with true.
  cbv iota. simpl. unfold bind at 1. unfold bind at 3.
  by destruct (diff_lists_loop _ _ a b _ 0 0 [] r') as [[[[i j] di] r'']| |].
Qed.

Lemma diff_lists_spec (I0 : Registry -> Prop) a b path c K P :
  (forall r, I0 r -> exists r', predicates_getitem path r = Ret ([c], r') /\ I r') ->
  script K (fun _ _ _ => False) 0 a b (diff_sequence_bruteforce env a b c) ->
  (forall x y, x ∈ a -> y ∈ b -> K x y -> is_atomic x = false ->
     hoare I (differs_get differs (join_path path "*") diff x y (join_path path "*"))
       (fun cd r => I r /\ P x y cd) E F) ->
  (forall d, list_post a b K P (diff_sequence_bruteforce env a b c) d ->
     d <> [] -> validate_diff env d = false -> E MalformedDiff) ->
  hoare I0 (diff_lists env diff differs a b path None)
    (fun d r => I r /\ list_post a b K P (diff_sequence_bruteforce env a b c) d) E F.
Proof.
  intros Hget Hs Hrec Hval r Hr.
  destruct (Hget r Hr) as (r' & Hg & Hr').
  rewrite (diff_lists_unfold a b path c r r' Hg).
  pose proof (diff_lists_loop_complete _ _ a b K P I E F Hrec _ Hs r' Hr') as Hloop.
  unfold bind at 1.
  destruct (diff_lists_loop _ _ a b _ 0 0 [] r') as [[[[i j] di] r'']| |]; [|done..].
  destruct Hloop as (Hr'' & -> & -> & out & -> & Hf & Hout).
  simpl. unfold bind. rewrite !py_assert_true by apply Nat.eqb_refl.
  unfold sequence_validated. destruct out as [|e out].
  - simpl. split; [done|]. split; done.
  - destruct (validate_diff env (e :: out)) eqn:Hv; simpl.
    + split; [done|]. split; done.
    + apply (Hval (e :: out)); [by split|done|exact Hv].
Qed.

Lemma diff_dicts_spec a b path P :
  (forall key x y,
     dict_get key a = Some x -> dict_get key b = Some y -> recursed x y = true ->
     hoare I (differs_get differs (join_path path key) diff x y (join_path path key))
       (fun dd r => I r /\ P x y dd) E F) ->
  (forall key x y,
     dict_get key a = Some x -> dict_get key b = Some y -> recursed x y = false ->
     E (PredicateConflict path)) ->
  (forall d, dict_post a b P d -> d <> [] -> validate_diff env d = false ->
     E MalformedDiff) ->
  hoare I (diff_dicts env diff differs (VDict a) (VDict b) path)
    (fun d r => I r /\ dict_post a b P d) E F.
Proof.
  intros Hrec Hconf Hval. unfold diff_dicts.
  eapply hoare_bind.
  { apply (diff_dicts_loop_spec diff differs a b path P I E F Hrec Hconf).
    intros key Hkey. apply elem_of_sorted, elem_of_elements, elem_of_intersection in Hkey.
    by rewrite <- !elem_of_key_set. }
  intros di1. apply hoare_pure_l. intros (outs & Houts & ->).
  intros r Hr. unfold bind.
  destruct (diff_dicts_adds_spec b (sorted (elements (key_set b ∖ key_set a)))
              (map (fun key => Remove (KStr key)) (sorted (elements (key_set a ∖ key_set b)))
               ++ concat outs) r) as (vs & Hvs & ->).
  { intros key Hkey. apply elem_of_sorted, elem_of_elements, elem_of_difference in Hkey.
    rewrite <- elem_of_key_set. tauto. }
  rewrite <- app_assoc.
  set (entries := _ ++ _ ++ _).
  assert (Hpost : dict_post a b P (merge_sort entry_le entries)).
  { exists outs, vs. done. }
  clearbody entries. unfold mapping_validated. destruct entries as [|e rest].
  - simpl. split; [done|]. exact Hpost.
  - destruct (validate_diff env (merge_sort entry_le (e :: rest))) eqn:Hv; simpl.
    + split; done.
    + eapply Hval; [exact Hpost| |exact Hv].
      intros Hnil. apply (f_equal length) in Hnil.
      rewrite (Permutation_length (merge_sort_Permutation _ _)) in Hnil. done.
Qed.

End Wrappers.

(** ** The reference aligner meets the contract of a shallow aligner *)

Lemma exhaustive_script_unfold df c x a' i b :
  Reference.exhaustive_script df c (x :: a') i b =
  match b with
  | [] => Remove (KIdx i) :: Reference.exhaustive_script df c a' (S i) []
  | y :: b' =>
      if apply_compare c x y then Reference.exhaustive_script df c a' (S i) b'
      else
        let del := Remove (KIdx i) :: Reference.exhaustive_script df c a' (S i) b in
        let ins := Add (KIdx i) y :: Reference.exhaustive_script df c (x :: a') i b' in
        if (if df then length del <=? length ins else length del <? length ins)
        then del else ins
  end.
Proof. by destruct b. Qed.

Lemma exhaustive_script_head_key df c a : forall i b,
  head_key_ge i (Reference.exhaustive_script df c a i b).
Proof.
  induction a as [|x a' IHa]; intros i b.
  - destruct b; simpl; [done|]. by exists i.
  - induction b as [|y b' IHb]; rewrite exhaustive_script_unfold.
    + by exists i.
    + destruct (apply_compare c x y).
      * eapply head_key_ge_mono; [|apply IHa]. lia.
      * cbv zeta. destruct (if df then _ else _); by exists i.
Qed.

Lemma exhaustive_script_aligned df c a : forall i b,
  aligned c i a b (Reference.exhaustive_script df c a i b).
Proof.
  unfold aligned. induction a as [|x a' IHa]; intros i b.
  - induction b as [|y b' IHb]; simpl.
    + apply script_end. constructor.
    + by apply script_add.
  - induction b as [|y b' IHb]; rewrite exhaustive_script_unfold.
    + apply script_remove, IHa.
    + destruct (apply_compare c x y) eqn:Hc.
      * apply script_prepend_keep; [done|apply exhaustive_script_head_key|apply IHa].
      * cbv zeta. destruct (if df then _ else _).
        -- apply script_remove, IHa.
        -- by apply script_add.
Qed.

Lemma exhaustive_script_equal df c a : forall i b,
  Forall2 (fun x y => apply_compare c x y = true) a b ->
  Reference.exhaustive_script df c a i b = [].
Proof.
  induction a as [|x a' IHa]; intros i b Hall.
  - by inversion Hall.
  - inversion Hall as [|? y ? b' Hxy Hrest]; subst.
    rewrite exhaustive_script_unfold, Hxy. by apply IHa.
Qed.

(** ** Inversion of computations that returned *)

Lemma bind_Ret_inv {A B} (m : M A) (k : A -> M B) r y r' :
  bind m k r = Ret (y, r') ->
  exists x r1, m r = Ret (x, r1) /\ k x r1 = Ret (y, r').
Proof.
  unfold bind. destruct (m r) as [[x r1]| |]; [|done..]. intros H. by exists x, r1.
Qed.

Lemma py_assert_Ret_inv c r u r' : py_assert c r = Ret (u, r') -> c = true /\ r' = r.
Proof. destruct c; simpl; [|done]. by intros [= _ ->]. Qed.

Lemma ret_Ret_inv {A} (x y : A) (r r' : Registry) : ret x r = Ret (y, r') -> x = y /\ r = r'.
Proof. by intros [= -> ->]. Qed.

Lemma sequence_validated_Ret_inv env di r d r' :
  sequence_validated env di r = Ret (d, r') -> d = di.
Proof.
  unfold sequence_validated. destruct di as [|e di]; [by intros [= <- _]|].
  destruct (validate_diff env (e :: di)); [by intros [= <- _]|done].
Qed.

Lemma mapping_validated_Ret_inv env di r d r' :
  mapping_validated env di r = Ret (d, r') -> d ≡ₚ di.
Proof.
  unfold mapping_validated. destruct di as [|e di]; [by intros [= <- _]|].
  destruct (validate_diff env _); [|done]. intros [= <- _].
  apply merge_sort_Permutation.
Qed.

Lemma forallb_Forall_true {A} (f : A -> bool) (l : list A) :
  forallb f l = true <-> Forall (fun x => f x = true) l.
Proof.
  induction l as [|x l IH]; simpl.
  - split; [constructor|done].
  - rewrite andb_true_iff, IH. split; [intros []; by constructor|by inversion 1].
Qed.


(** ** The default alignment strategy *)

(** C7, as amended: when no alignment strategy is configured,
    [diff_sequence] runs the exhaustive ([bruteforce]) strategy: the
    module-level setting is ["bruteforce"], and every call returns what
    [diff_sequence_bruteforce] computes. *)
Theorem diff_sequence_default_is_bruteforce env a b c r :
  diff_sequence_algorithm = "bruteforce" /\
  diff_sequence env a b c r = Ret (diff_sequence_bruteforce env a b c, r).
Proof. split; reflexivity. Qed.

(** C7, the claim as stated fails: the setting is not ["myers"], and on
    the sequences [[1]] and [[2]] the default call does not return the
    script of the classic strategy. *)
Lemma diff_sequence_default_is_not_classic :
  diff_sequence_algorithm <> "myers" /\
  diff_sequence Reference.env [num 1] [num 2] OpEq default_predicates
  <> Ret (diff_sequence_myers Reference.env [num 1] [num 2] OpEq, default_predicates).
Proof. split; [discriminate|]. vm_compute. discriminate. Qed.

(** ** The notebook entry points *)

(** C10: [diff_notebooks] and [diff_single_cells] raise [TypeError] on
    every pair of inputs, because they pass the keyword [subdiffs],
    which [diff_dicts] does not accept; likewise the call of
    [diff_lists] in [old_diff_cells] passes the keyword [compare].  No
    diff is returned through them. *)
Theorem notebook_entry_points_raise_TypeError env fuel nba nbb r :
  diff_notebooks env fuel nba nbb r
    = Raise (TypeError "diff_dicts() got an unexpected keyword argument 'subdiffs'") /\
  diff_single_cells env fuel nba nbb r
    = Raise (TypeError "diff_dicts() got an unexpected keyword argument 'subdiffs'") /\
  forall cells_a cells_b shallow_diff,
    old_diff_cells_call env fuel cells_a cells_b shallow_diff r
      = Raise (TypeError "diff_lists() got an unexpected keyword argument 'compare'").
Proof. repeat split. Qed.

(** ** The default registry *)

Lemma default_like_empty : default_like default_predicates.
Proof. intros p cs H. unfold default_predicates in H. by rewrite lookup_empty in H. Qed.

Lemma default_like_getitem path r :
  default_like r ->
  exists r', predicates_getitem path r = Ret ([OpEq], r') /\ default_like r'.
Proof.
  intros Hr. unfold predicates_getitem. destruct (r !! path) as [cs|] eqn:Hp.
  - rewrite (Hr _ _ Hp). by exists r.
  - eexists. split; [done|]. intros p cs Hcs.
    destruct (decide (path = p)) as [->|Hne].
    + rewrite lookup_insert_eq in Hcs. congruence.
    + rewrite lookup_insert_ne in Hcs by done. by eapply Hr.
Qed.

Lemma differs_get_default subpath (diff : Differ) :
  differs_get default_differs subpath diff = diff.
Proof. unfold differs_get, default_differs. by rewrite lookup_empty. Qed.

(** ** Unsupported kinds of values *)

Section Kinds.

Context (env : Collaborators).

Lemma diff_kind_mismatch fuel differs a b path r :
  same_kind a b = false ->
  diff env (S fuel) differs a b path r = Raise UnsupportedValueKind.
Proof. intros H. by destruct a, b. Qed.

Hypothesis bruteforce_aligned : forall a b,
  aligned OpEq 0 a b (diff_sequence_bruteforce env a b OpEq).

Lemma diff_kind_match fuel : forall a b path,
  same_kind a b = true ->
  hoare default_like (diff env fuel default_differs a b path)
    (fun _ r => default_like r) (fun e => e <> UnsupportedValueKind) True.
Proof.
  induction fuel as [|fuel IH]; intros a b path Hkind; [done|].
  cbn [diff].
  eapply (hoare_bind _ _ _ (fun _ r => default_like r)).
  - destruct a as [ | | | sa|la|da], b as [ | | | sb|lb|db]; try done.
    + by apply hoare_ret.
    + eapply hoare_weaken;
        [eapply (diff_lists_spec env _ _ default_like (fun e => e <> UnsupportedValueKind) True default_like la lb path OpEq
                   (fun x y => py_eq x y = true) (fun _ _ _ => True))
        |done| |done|done].
      * intros r Hr. by apply default_like_getitem.
      * apply bruteforce_aligned.
      * intros x y _ _ Hxy Hx. rewrite differs_get_default.
        eapply hoare_weaken; [apply IH|done| |done|done].
        -- by apply py_eq_same_kind.
        -- by intros.
      * done.
      * by intros d r [Hr _].
    + eapply hoare_weaken;
        [eapply (diff_dicts_spec env _ _ default_like (fun e => e <> UnsupportedValueKind) True da db path
                   (fun _ _ _ => True))
        |done| |done|done].
      * intros key x y _ _ Hxy. rewrite differs_get_default.
        eapply hoare_weaken; [apply IH|done| |done|done].
        -- by apply recursed_same_kind.
        -- by intros.
      * done.
      * done.
      * by intros d r [Hr _].
  - intros d. destruct (validate_diff env d).
    + by apply hoare_ret.
    + by apply hoare_raise.
Qed.

End Kinds.

(** C3: [diff] raises [UnsupportedValueKind], and returns no diff,
    whenever the two values are not both sequences, both mappings or
    both text, whatever the registries; and a call [diff(a, b)] with the
    default registries on two sequences, two mappings or two texts never
    raises it (the shallow aligner meeting its contract). *)
Theorem diff_unsupported_value_kind env
    (bruteforce_aligned : forall a b,
       aligned OpEq 0 a b (diff_sequence_bruteforce env a b OpEq)) :
  (forall fuel differs a b path r,
     same_kind a b = false ->
     diff env (S fuel) differs a b path r = Raise UnsupportedValueKind) /\
  (forall fuel a b,
     same_kind a b = true ->
     diff env fuel default_differs a b "" default_predicates
       <> Raise UnsupportedValueKind).
Proof.
  split.
  - intros. by apply diff_kind_mismatch.
  - intros fuel a b Hkind Hraise.
    pose proof (diff_kind_match env bruteforce_aligned fuel a b "" Hkind
                  default_predicates default_like_empty) as H.
    rewrite Hraise in H. done.
Qed.

Lemma diff_unsupported_value_kind_witness :
  diff Reference.env 1 default_differs (num 1) (VList []) "" default_predicates
    = Raise UnsupportedValueKind /\
  diff Reference.env 3 default_differs
    (VList [VStr "a"]) (VList [VStr "b"]) "" default_predicates
    <> Raise UnsupportedValueKind.
Proof.
  pose proof (diff_unsupported_value_kind Reference.env
                (fun a b => exhaustive_script_aligned true OpEq a 0 b)) as [H1 H2].
  split.
  - by apply H1.
  - by apply H2.
Defined.

(** ** Identity *)

Section Identity.

Context (env : Collaborators).

Hypothesis bruteforce_equal : forall a b,
  Forall2 (fun x y => py_eq x y = true) a b ->
  diff_sequence_bruteforce env a b OpEq = [].

Hypothesis difflib_equal : forall a b,
  Forall2 (fun x y => py_eq x y = true) a b ->
  diff_sequence_difflib env a b = [].

Hypothesis validate_empty : validate_diff env [] = true.

Lemma diff_same fuel : forall a path,
  text_only a = true -> wf_value a = true -> depth a <= fuel ->
  hoare default_like (diff env fuel default_differs a a path)
    (fun d r => default_like r /\ d = []) (fun _ => False) False.
Proof.
  induction fuel as [|fuel IH]; intros a path Htext Hwf Hdepth.
  { pose proof (depth_pos a). lia. }
  cbn [diff].
  eapply (hoare_bind _ _ _ (fun d r => default_like r /\ d = [])).
  - destruct a as [ | | |s|la|da]; try done.
    + (* text *)
      apply hoare_ret. intros r Hr. split; [done|].
      unfold diff_strings. apply difflib_equal, chars_py_eq_refl.
    + (* sequence *)
      apply text_only_list in Htext. apply wf_value_list in Hwf.
      assert (Hs : diff_sequence_bruteforce env la la OpEq = []).
      { apply bruteforce_equal. apply Forall2_same_length_lookup. split; [done|].
        intros i x y Hx Hy. assert (x = y) as -> by congruence.
        apply py_eq_refl. rewrite Forall_forall in Hwf.
        eapply Hwf, list_elem_of_lookup_2, Hx. }
      assert (Hd : forall d,
        list_post la la (fun x y => x = y) (fun _ _ cd => cd = []) [] d -> d = []).
      { intros d [Hf Hscript]. rewrite <- Hf. symmetry. apply filter_all.
        eapply script_no_patch; [exact Hscript|].
        intros x y cd (_ & _ & Hne & He). done. }
      eapply hoare_weaken;
        [eapply (diff_lists_spec env _ _ default_like (fun _ => False) False default_like la la path OpEq
                   (fun x y => x = y) (fun _ _ cd => cd = []))
        |done| |done|done].
      * intros r Hr. by apply default_like_getitem.
      * rewrite Hs. apply script_end. clear. induction la; by constructor.
      * intros x y Hx _ <- _. rewrite differs_get_default.
        rewrite Forall_forall in Htext, Hwf.
        apply IH; [by apply Htext|by apply Hwf|].
        pose proof (depth_list_elem x la Hx). lia.
      * rewrite Hs. intros d Hpost Hne. by destruct (Hne (Hd d Hpost)).
      * rewrite Hs. intros d r [Hr Hpost]. split; [done|]. by apply Hd.
    + (* mapping *)
      apply text_only_dict in Htext. apply wf_value_dict in Hwf as [Hnd Hwf].
      assert (Hd : forall d, dict_post da da (fun _ _ cd => cd = []) d -> d = []).
      { intros d (outs & vs & Houts & Hvs & ->).
        assert (key_set da ∖ key_set da = ∅) as Hempty by apply difference_diag_L.
        rewrite Hempty in *.
        rewrite elements_empty in *. unfold sorted in Hvs |- *. simpl in Hvs |- *.
        inversion Hvs; subst. simpl.
        assert (concat outs = []) as ->; [|done].
        clear Hvs. induction Houts as [|key es keys outs Hes _ IHouts]; [done|].
        simpl. rewrite IHouts, app_nil_r.
        destruct Hes as (x & y & Hx & Hy & [[_ [[-> _]|(dd & Hne & -> & _)]]|[Hrec _]]).
        - done.
        - done.
        - assert (x = y) as -> by congruence.
          rewrite Forall_forall in Htext.
          rewrite text_only_recursed in Hrec; [done|].
          apply (Htext (key, y)). by apply dict_get_Some_elem_of. }
      eapply hoare_weaken;
        [eapply (diff_dicts_spec env _ _ default_like (fun _ => False) False da da path
                   (fun _ _ cd => cd = []))
        |done| |done|done].
      * intros key x y Hx Hy _. assert (x = y) as <- by congruence.
        rewrite differs_get_default.
        apply dict_get_Some_elem_of in Hx.
        rewrite Forall_forall in Htext, Hwf.
        apply IH; [apply (Htext _ Hx)|apply (Hwf _ Hx)|].
        pose proof (depth_dict_elem _ _ _ Hx). lia.
      * intros key x y Hx Hy Hrec. assert (x = y) as <- by congruence.
        rewrite Forall_forall in Htext.
        rewrite text_only_recursed in Hrec; [done|].
        apply (Htext (key, x)). by apply dict_get_Some_elem_of.
      * intros d Hpost Hne. by destruct (Hne (Hd d Hpost)).
      * intros d r [Hr Hpost]. split; [done|]. by apply Hd.
  - intros d. apply hoare_pure_l. intros ->. rewrite validate_empty.
    by apply hoare_ret.
Qed.

End Identity.

(** C4: for every value [a] composed only of sequences, mappings and
    text, [diff(a, a)] returns the empty diff (given fuel for the depth
    of [a], aligners that return the empty script on equal sequences,
    and a validator that accepts the empty diff). *)
Theorem diff_identity env a fuel
    (bruteforce_equal : forall a b,
       Forall2 (fun x y => py_eq x y = true) a b ->
       diff_sequence_bruteforce env a b OpEq = [])
    (difflib_equal : forall a b,
       Forall2 (fun x y => py_eq x y = true) a b ->
       diff_sequence_difflib env a b = [])
    (validate_empty : validate_diff env [] = true) :
  text_only a = true -> wf_value a = true -> depth a <= fuel ->
  run_from default_predicates (diff env fuel default_differs a a "") = Ret [].
Proof.
  intros Htext Hwf Hdepth.
  pose proof (diff_same env bruteforce_equal difflib_equal validate_empty
                fuel a "" Htext Hwf Hdepth default_predicates default_like_empty) as H.
  unfold run_from.
  destruct (diff env fuel default_differs a a "" default_predicates)
    as [[d r]| |]; [|done..].
  by destruct H as [_ ->].
Qed.

Lemma diff_identity_witness :
  run_from default_predicates
    (diff Reference.env 3 default_differs
       (VDict [("cells", VList [VStr "x = 1"; VList []]); ("kernel", VStr "python")])
       (VDict [("cells", VList [VStr "x = 1"; VList []]); ("kernel", VStr "python")]) "")
  = Ret [].
Proof.
  apply diff_identity.
  - intros a b. apply (exhaustive_script_equal true OpEq a 0 b).
  - intros a b. apply (exhaustive_script_equal true OpEq a 0 b).
  - reflexivity.
  - reflexivity.
  - vm_compute. reflexivity.
  - vm_compute. lia.
Defined.

(** ** Completeness of [diff_lists] *)

Lemma single_predicate_getitem path c (r : Registry) :
  r !! path = Some [c] \/ (r !! path = None /\ c = OpEq) ->
  exists r', predicates_getitem path r = Ret ([c], r').
Proof.
  unfold predicates_getitem. intros [->|[-> ->]]; eauto.
Qed.

(** C2: the diff that [diff_lists(a, b)] returns accounts for every
    index of [a] and of [b] exactly once: it is an edit script for [a]
    and [b], each element of [a] used by one removal, patch or kept
    pair and each element of [b] by one addition, patch or kept pair.
    When the entry loop finishes, the cursors [i] and [j] are [len(a)]
    and [len(b)]; the asserts of [diff_lists] do not fail (an
    [AssertionError] can only come out of the recursive differ); and
    when the recursive differ returns on the pairs it is given, the
    loop finishes and [diff_lists] passes both asserts and hands the
    entries to the builder's validation.  What is assumed of the
    recursive differ is assumed on the kept pairs only, from the
    registries of an invariant [I]. *)
Theorem diff_lists_accounts_for_every_index env diff differs a b path c r
    (bruteforce_aligned : forall a b c,
       aligned c 0 a b (diff_sequence_bruteforce env a b c))
    (single_predicate : r !! path = Some [c] \/ (r !! path = None /\ c = OpEq)) :
  let subpath := join_path path "*" in
  let diffit := differs_get differs subpath diff in
  let shallow := diff_sequence_bruteforce env a b c in
  let K := fun x y => apply_compare c x y = true in
  let P := fun (_ _ : Value) (_ : Diff) => True in
  (forall d r',
     diff_lists env diff differs a b path None r = Ret (d, r') ->
     script (kept K P) (patched K P) 0 a b d) /\
  (forall r0 i j di r1,
     diff_lists_loop diffit subpath a b shallow 0 0 [] r0 = Ret ((i, j, di), r1) ->
     i = length a /\ j = length b) /\
  (forall I : Registry -> Prop,
     (forall r0, predicates_getitem path r = Ret ([c], r0) -> I r0) ->
     (forall x y, x ∈ a -> y ∈ b -> K x y -> is_atomic x = false ->
        hoare I (diffit x y subpath) (fun _ r1 => I r1)
          (fun e => e <> AssertionError) True) ->
     diff_lists env diff differs a b path None r <> Raise AssertionError) /\
  (forall I : Registry -> Prop,
     (forall r0, predicates_getitem path r = Ret ([c], r0) -> I r0) ->
     (forall x y, x ∈ a -> y ∈ b -> K x y -> is_atomic x = false ->
        hoare I (diffit x y subpath) (fun _ r1 => I r1) (fun _ => False) False) ->
     exists r0 di r1,
       predicates_getitem path r = Ret ([c], r0) /\
       diff_lists_loop diffit subpath a b shallow 0 0 [] r0
         = Ret ((length a, length b, di), r1) /\
       script (kept K P) (patched K P) 0 a b di /\
       diff_lists env diff differs a b path None r = sequence_validated env di r1).
Proof.
  intros subpath diffit shallow K P.
  destruct (single_predicate_getitem path c r single_predicate) as [r' Hg].
  split; [|split; [|split]].
  - intros d r1 Hrun.
    assert (H : hoare (fun r0 => r0 = r) (diff_lists env diff differs a b path None)
              (fun d _ => True /\ list_post a b K P shallow d) (fun _ => True) True).
    { eapply (diff_lists_spec env diff differs (fun _ => True) (fun _ => True) True
                (fun r0 => r0 = r) a b path c K P).
      - intros r0 ->. eauto.
      - apply bruteforce_aligned.
      - intros x y _ _ _ _ r0 _. fold subpath. fold diffit.
        by destruct (diffit x y subpath r0) as [[? ?]| |].
      - done. }
    specialize (H r eq_refl). rewrite Hrun in H. by destruct H as [_ [_ Hs]].
  - intros r0 i j di r1 Hrun.
    assert (Hrec : forall x y, x ∈ a -> y ∈ b -> K x y -> is_atomic x = false ->
      hoare (fun _ => True) (diffit x y subpath)
        (fun cd _ => True /\ P x y cd) (fun _ => True) True).
    { intros x y _ _ _ _ r2 _. by destruct (diffit x y subpath r2) as [[? ?]| |]. }
    pose proof (diff_lists_loop_complete diffit subpath a b K P
                  (fun _ => True) (fun _ => True) True Hrec shallow
                  (bruteforce_aligned a b c) r0 Logic.I) as H.
    rewrite Hrun in H. by destruct H as (_ & -> & -> & _).
  - intros I Hinit Hno Hraise.
    assert (H : hoare (fun r0 => r0 = r) (diff_lists env diff differs a b path None)
              (fun _ _ => True) (fun e => e <> AssertionError) True).
    { eapply hoare_weaken;
        [eapply (diff_lists_spec env diff differs I
                   (fun e => e <> AssertionError) True (fun r0 => r0 = r)
                   a b path c K P)
        |done|done|done|done].
      - intros r0 ->. exists r'. split; [done|]. by apply Hinit.
      - apply bruteforce_aligned.
      - intros x y Hx Hy HK Hna r0 Hr0. specialize (Hno x y Hx Hy HK Hna r0 Hr0).
        fold subpath. fold diffit.
        by destruct (diffit x y subpath r0) as [[? ?]| |].
      - done. }
    specialize (H r eq_refl). rewrite Hraise in H. done.
  - intros I Hinit Hret.
    assert (Hrec : forall x y, x ∈ a -> y ∈ b -> K x y -> is_atomic x = false ->
      hoare I (diffit x y subpath) (fun cd r1 => I r1 /\ P x y cd) (fun _ => False) False).
    { intros x y Hx Hy HK Hna r0 Hr0. specialize (Hret x y Hx Hy HK Hna r0 Hr0).
      by destruct (diffit x y subpath r0) as [[? ?]| |]. }
    pose proof (diff_lists_loop_complete diffit subpath a b K P
                  I (fun _ => False) False Hrec shallow
                  (bruteforce_aligned a b c) r' (Hinit r' Hg)) as Hloop.
    rewrite (diff_lists_unfold env diff differs a b path c r r' Hg).
    fold subpath. fold diffit. fold shallow. unfold bind at 1.
    destruct (diff_lists_loop diffit subpath a b shallow 0 0 [] r')
      as [[[[i j] di] r1]| |] eqn:Hrun; [|done..].
    destruct Hloop as (_ & -> & -> & out & Hout & _ & Hs).
    simpl in Hout. subst out.
    exists r', di, r1. split; [exact Hg|]. split; [exact Hrun|]. split; [done|].
    simpl. unfold bind. by rewrite !py_assert_true by apply Nat.eqb_refl.
Qed.

Lemma diff_lists_accounts_for_every_index_witness :
  let a := [VStr "x"; VList [VStr "y"]; VStr "z"] in
  let b := [VStr "x"; VList [VStr "y"]; VStr "w"] in
  let differ := diff Reference.env 2 default_differs in
  let K := fun x y => py_eq x y = true in
  let P := fun (_ _ : Value) (_ : Diff) => True in
  exists d r',
    diff_lists Reference.env differ default_differs a b "" None default_predicates
      = Ret (d, r') /\
    script (kept K P) (patched K P) 0 a b d.
Proof.
  intros a b differ K P.
  destruct (diff_lists_accounts_for_every_index Reference.env differ default_differs
              a b "" OpEq default_predicates
              (fun a b c => exhaustive_script_aligned true c a 0 b)
              (or_intror (conj eq_refl eq_refl))) as (_ & _ & _ & Hreturns).
  destruct (Hreturns default_like) as (r0 & di & r1 & Hg & Hloop & Hs & Hrun).
  { intros r0 Hg.
    destruct (default_like_getitem "" default_predicates default_like_empty)
      as (r' & Hg' & Hr').
    rewrite Hg' in Hg. injection Hg as <-. exact Hr'. }
  { intros x y Hx Hy Hxy _. rewrite differs_get_default.
    assert (Hsame : forall v, text_only v = true -> wf_value v = true -> depth v <= 2 ->
      hoare default_like (differ v v "/*") (fun _ r1 => default_like r1)
        (fun _ => False) False).
    { intros v Ht Hw Hd. eapply hoare_weaken;
        [apply (diff_same Reference.env
                  (fun a b => exhaustive_script_equal true OpEq a 0 b)
                  (fun a b => exhaustive_script_equal true OpEq a 0 b)
                  eq_refl 2 v "/*" Ht Hw Hd)
        |done| |done|done].
      by intros d r2 [? _]. }
    repeat (apply elem_of_cons in Hx as [->|Hx]);
      [..|by apply elem_of_nil in Hx];
      (repeat (apply elem_of_cons in Hy as [->|Hy]);
       [..|by apply elem_of_nil in Hy]);
      try discriminate Hxy;
      (apply Hsame; [reflexivity|reflexivity|vm_compute; lia]). }
  vm_compute in Hg. injection Hg as <-.
  vm_compute in Hloop. injection Hloop as <- <-.
  eexists _, _. split; [|exact Hs].
  rewrite Hrun. clear Hrun Hs. vm_compute. reflexivity.
Defined.

(** ** Atomic pairs in [diff_lists] *)

(** C9: in [diff_lists], a kept pair whose source element is an atomic
    scalar is not recursed into and adds no entry.  Whatever
    [diff_lists] returns is the script of the shallow aligner with
    patches for kept pairs whose source element is not atomic; and when
    every element of [a] is atomic, [diff_lists] returns exactly the
    validated script of the shallow aligner, whatever the recursive
    differ would do and whatever the values of the kept pairs are. *)
Theorem diff_lists_skips_atomic_pairs env diff differs a b path c r
    (bruteforce_aligned : forall a b c,
       aligned c 0 a b (diff_sequence_bruteforce env a b c))
    (single_predicate : r !! path = Some [c] \/ (r !! path = None /\ c = OpEq)) :
  (forall d r',
     diff_lists env diff differs a b path None r = Ret (d, r') ->
     list_post a b (fun x y => apply_compare c x y = true) (fun _ _ _ => True)
       (diff_sequence_bruteforce env a b c) d) /\
  (Forall (fun x => is_atomic x = true) a ->
   exists r',
     predicates_getitem path r = Ret ([c], r') /\
     diff_lists env diff differs a b path None r
       = sequence_validated env (diff_sequence_bruteforce env a b c) r').
Proof.
  destruct (single_predicate_getitem path c r single_predicate) as [r' Hg].
  set (K := fun x y => apply_compare c x y = true).
  split.
  { intros d r1 Hrun.
    assert (H : hoare (fun r0 => r0 = r) (diff_lists env diff differs a b path None)
              (fun d _ => True /\ list_post a b K (fun _ _ _ => True)
                                    (diff_sequence_bruteforce env a b c) d)
              (fun _ => True) True).
    { eapply (diff_lists_spec env diff differs (fun _ => True) (fun _ => True) True
                (fun r0 => r0 = r) a b path c K (fun _ _ _ => True)).
      - intros r0 ->. eauto.
      - apply bruteforce_aligned.
      - intros x y _ _ _ _ r0 _.
        by destruct (differs_get differs (join_path path "*") diff x y
                       (join_path path "*") r0) as [[? ?]| |].
      - done. }
    specialize (H r eq_refl). rewrite Hrun in H. by destruct H. }
  intros Hatomic.
  exists r'. split; [done|].
  rewrite (diff_lists_unfold env diff differs a b path c r r' Hg).
  set (P := fun (_ _ : Value) (_ : Diff) => False).
  assert (Hrec : forall x y, x ∈ a -> y ∈ b -> K x y -> is_atomic x = false ->
    hoare (fun r0 => r0 = r')
      (differs_get differs (join_path path "*") diff x y (join_path path "*"))
      (fun cd r0 => r0 = r' /\ P x y cd) (fun _ => False) False).
  { intros x y Hx _ _ Hna. rewrite Forall_forall in Hatomic.
    rewrite (Hatomic x Hx) in Hna. done. }
  pose proof (diff_lists_loop_complete _ _ a b K P (fun r0 => r0 = r')
                (fun _ => False) False Hrec _ (bruteforce_aligned a b c) r' eq_refl)
    as Hloop.
  unfold bind at 1.
  destruct (diff_lists_loop _ _ a b _ 0 0 [] r') as [[[[i j] di] r'']| |]; [|done..].
  destruct Hloop as (-> & -> & -> & out & -> & Hf & Hout).
  simpl. unfold bind. rewrite !py_assert_true by apply Nat.eqb_refl.
  rewrite <- Hf. f_equal. symmetry. apply filter_all.
  eapply script_no_patch; [exact Hout|].
  intros x y cd (_ & _ & _ & []).
Qed.

Lemma diff_lists_skips_atomic_pairs_witness :
  let always := Custom (fun _ _ => true) in
  let r : Registry := {[ "" := [always] ]} in
  let failing : Differ := fun _ _ _ => raise IndexError in
  diff_lists Reference.env failing default_differs [num 1] [num 2] "" None r
    = Ret ([], r).
Proof.
  intros always r failing.
  destruct (diff_lists_skips_atomic_pairs Reference.env failing default_differs
              [num 1] [num 2] "" always r
              (fun a b c => exhaustive_script_aligned true c a 0 b)
              (or_introl eq_refl)) as [_ Hskip].
  destruct Hskip as (r' & Hg & ->).
  - repeat constructor.
  - vm_compute in Hg. injection Hg as <-. reflexivity.
Defined.

(** ** Registered paths stay registered *)

Section Invariant.

Context (env : Collaborators) (I : Registry -> Prop).

Notation keeps m := (hoare I m (fun _ r => I r) (fun _ => True) True).

Hypothesis insert_keeps : forall path r, I r -> I (<[path := default_compares]> r).

Hypothesis snakes_keep : forall a b snakes path differs,
  keeps (compute_diff_from_snakes env a b snakes path differs).

Lemma keeps_ret {A} (x : A) : keeps (ret x).
Proof. by apply hoare_ret. Qed.

Lemma keeps_raise {A} e : keeps (@raise A e).
Proof. by apply hoare_raise. Qed.

Lemma keeps_bind {A B} (m : M A) (k : A -> M B) :
  keeps m -> (forall x, keeps (k x)) -> keeps (bind m k).
Proof. intros Hm Hk. eapply hoare_bind; [exact Hm|exact Hk]. Qed.

Lemma keeps_getitem {A} (xs : list A) i : keeps (getitem xs i).
Proof. unfold getitem. destruct (xs !! i); [apply keeps_ret|apply keeps_raise]. Qed.

Lemma keeps_dict_getitem items key : keeps (dict_getitem items key).
Proof.
  unfold dict_getitem. destruct (dict_get key items); [apply keeps_ret|apply keeps_raise].
Qed.

Lemma keeps_assert c : keeps (py_assert c).
Proof. destruct c; [apply keeps_ret|apply keeps_raise]. Qed.

Lemma keeps_predicates_getitem path : keeps (predicates_getitem path).
Proof.
  intros r Hr. unfold predicates_getitem. destruct (r !! path); [done|].
  by apply insert_keeps.
Qed.

Lemma keeps_predicates_contains path : keeps (predicates_contains path).
Proof. by intros r Hr. Qed.

Lemma keeps_sequence_validated d : keeps (sequence_validated env d).
Proof.
  unfold sequence_validated. destruct d; [apply keeps_ret|].
  destruct (validate_diff env _); [apply keeps_ret|apply keeps_raise].
Qed.

Lemma keeps_mapping_validated d : keeps (mapping_validated env d).
Proof.
  unfold mapping_validated. destruct d; [apply keeps_ret|].
  destruct (validate_diff env _); [apply keeps_ret|apply keeps_raise].
Qed.

Lemma keeps_diff_sequence a b c : keeps (diff_sequence env a b c).
Proof. apply keeps_ret. Qed.

Section Recursion.

Context (diff : Differ) (differs : gmap string Differ).

Hypothesis differ_keeps : forall subpath x y,
  keeps (differs_get differs subpath diff x y subpath).

Lemma keeps_diff_items diffit subpath a b i j n : forall k di,
  (forall x y, keeps (diffit x y subpath)) ->
  keeps (diff_items diffit subpath a b i j k n di).
Proof.
  induction n as [|n IH]; intros k di Hd; simpl; [apply keeps_ret|].
  apply keeps_bind; [apply keeps_getitem|intros aval].
  apply keeps_bind; [apply keeps_getitem|intros bval].
  apply keeps_bind; [|intros di'; by apply IH].
  destruct (negb (is_atomic aval)); [|apply keeps_ret].
  apply keeps_bind; [apply Hd|intros cd; apply keeps_ret].
Qed.

Lemma keeps_diff_lists_loop diffit subpath a b shallow : forall i j di,
  (forall x y, keeps (diffit x y subpath)) ->
  keeps (diff_lists_loop diffit subpath a b shallow i j di).
Proof.
  induction shallow as [|e rest IH]; intros i j di Hd; cbn [diff_lists_loop].
  - apply keeps_bind; [apply keeps_assert|intros _].
    apply keeps_bind; [apply keeps_assert|intros _].
    apply keeps_bind; [by apply keeps_diff_items|intros di'; apply keeps_ret].
  - apply keeps_bind.
    { unfold sequence_index. destruct (entry_key e); [apply keeps_ret|apply keeps_raise]. }
    intros index. destruct (count_consumed_symbols e) as [askip bskip].
    apply keeps_bind; [by apply keeps_diff_items|intros di'; by apply IH].
Qed.

Lemma keeps_diff_lists a b path shallow_diff :
  keeps (diff_lists env diff differs a b path shallow_diff).
Proof.
  unfold diff_lists.
  apply keeps_bind; [apply keeps_predicates_getitem|intros compares].
  destruct (1 <? length compares).
  - apply keeps_bind; [apply keeps_assert|intros _].
    unfold diff_sequence_multilevel.
    apply keeps_bind; [apply keeps_predicates_getitem|intros cs; apply snakes_keep].
  - apply keeps_bind.
    { destruct shallow_diff; [apply keeps_ret|].
      apply keeps_bind; [apply keeps_getitem|intros c; apply keeps_diff_sequence]. }
    intros shallow.
    apply keeps_bind; [apply keeps_diff_lists_loop; intros; apply differ_keeps|].
    intros [[i j] di].
    apply keeps_bind; [apply keeps_assert|intros _].
    apply keeps_bind; [apply keeps_assert|intros _].
    apply keeps_sequence_validated.
Qed.

Lemma keeps_diff_dicts_loop a b path keys : forall di,
  keeps (diff_dicts_loop diff differs a b path keys di).
Proof.
  induction keys as [|key keys IH]; intros di; cbn [diff_dicts_loop];
    [apply keeps_ret|].
  apply keeps_bind; [apply keeps_dict_getitem|intros avalue].
  apply keeps_bind; [apply keeps_dict_getitem|intros bvalue].
  apply keeps_bind; [|intros di'; apply IH].
  destruct (_ && _).
  - apply keeps_bind; [apply differ_keeps|intros dd; apply keeps_ret].
  - apply keeps_bind; [apply keeps_predicates_contains|].
    intros [|]; [apply keeps_raise|apply keeps_ret].
Qed.

Lemma keeps_diff_dicts_adds b keys : forall di, keeps (diff_dicts_adds b keys di).
Proof.
  induction keys as [|key keys IH]; intros di; simpl; [apply keeps_ret|].
  apply keeps_bind; [apply keeps_dict_getitem|intros v; apply IH].
Qed.

Lemma keeps_diff_dicts a b path : keeps (diff_dicts env diff differs a b path).
Proof.
  unfold diff_dicts. destruct a; try apply keeps_raise.
  destruct b; try apply keeps_raise.
  apply keeps_bind; [apply keeps_diff_dicts_loop|intros di].
  apply keeps_bind; [apply keeps_diff_dicts_adds|intros di'].
  apply keeps_mapping_validated.
Qed.

End Recursion.

(** The default recursion: [diff] itself at every path. *)
Lemma keeps_diff fuel : forall a b path,
  keeps (diff env fuel default_differs a b path).
Proof.
  induction fuel as [|fuel IH]; intros a b path; [done|].
  cbn [diff].
  assert (Hd : forall subpath x y,
    keeps (differs_get default_differs subpath (diff env fuel default_differs) x y subpath)).
  { intros. rewrite differs_get_default. apply IH. }
  apply keeps_bind.
  - destruct a, b; try apply keeps_raise.
    + apply keeps_ret.
    + by apply keeps_diff_lists.
    + by apply keeps_diff_dicts.
  - intros d. destruct (validate_diff env d); [apply keeps_ret|apply keeps_raise].
Qed.

End Invariant.

(** ** Predicates registered at a path of a mapping *)

(** The loop stops at the first key, in sorted order, that falls to the
    plain comparison: only the recursion on the keys before it has run. *)
Section FirstConflict.

Context (diff : Differ) (differs : gmap string Differ).
Context (a b : list (string * Value)) (path key : string) (x y : Value).
Context (I : Registry -> Prop) (E : Error -> Prop) (F : Prop).

Hypothesis in_a : dict_get key a = Some x.
Hypothesis in_b : dict_get key b = Some y.
Hypothesis plain : recursed x y = false.

Hypothesis invariant_registered : forall r, I r -> is_Some (r !! path).

Hypothesis earlier_recursion : forall k u v,
  string_le k key ->
  dict_get k a = Some u -> dict_get k b = Some v -> recursed u v = true ->
  hoare I (differs_get differs (join_path path k) diff u v (join_path path k))
    (fun _ r => I r) E F.

Hypothesis conflict_allowed : E (PredicateConflict path).


End FirstConflict.




(** ** The entries returned by [diff_dicts] *)

Section DictPost.

Context (a b : list (string * Value)) (P : Value -> Value -> Diff -> Prop).

Notation removes := (sorted (elements (key_set a ∖ key_set b))).
Notation commons := (sorted (elements (key_set a ∩ key_set b))).
Notation adds := (sorted (elements (key_set b ∖ key_set a))).

Lemma elem_of_removes key :
  key ∈ removes <-> is_Some (dict_get key a) /\ dict_get key b = None.
Proof.
  rewrite elem_of_sorted, elem_of_elements, elem_of_difference, !elem_of_key_set.
  by rewrite <- eq_None_not_Some.
Qed.

Lemma elem_of_commons key :
  key ∈ commons <-> is_Some (dict_get key a) /\ is_Some (dict_get key b).
Proof.
  by rewrite elem_of_sorted, elem_of_elements, elem_of_intersection, !elem_of_key_set.
Qed.

Lemma elem_of_adds key :
  key ∈ adds <-> dict_get key a = None /\ is_Some (dict_get key b).
Proof.
  rewrite elem_of_sorted, elem_of_elements, elem_of_difference, !elem_of_key_set.
  rewrite <- eq_None_not_Some. tauto.
Qed.

Lemma common_entry_key key es e :
  common_entry a b P key es -> e ∈ es -> entry_key e = KStr key.
Proof.
  intros (x & y & _ & _ & [[_ [[-> _]|(dd & _ & _ & ->)]]|[_ [[-> _]|[-> _]]]]) He;
    try by apply elem_of_nil in He.
  - by apply list_elem_of_singleton in He as ->.
  - by apply list_elem_of_singleton in He as ->.
Qed.

Lemma common_entries_elem keys outs e :
  Forall2 (common_entry a b P) keys outs -> e ∈ concat outs ->
  exists key es, key ∈ keys /\ common_entry a b P key es /\ e ∈ es.
Proof.
  induction 1 as [|key es keys outs Hes _ IH]; simpl; intros He.
  - by apply elem_of_nil in He.
  - apply elem_of_app in He as [He|He].
    + exists key, es. split; [left|done].
    + destruct (IH He) as (key' & es' & ? & ? & ?). exists key', es'.
      split; [by right|done].
Qed.

Lemma common_entries_lookup keys outs key :
  Forall2 (common_entry a b P) keys outs -> key ∈ keys ->
  exists es, common_entry a b P key es /\ forall e, e ∈ es -> e ∈ concat outs.
Proof.
  induction 1 as [|key' es keys outs Hes _ IH]; simpl; intros Hkey.
  - by apply elem_of_nil in Hkey.
  - apply elem_of_cons in Hkey as [->|Hkey].
    + exists es. split; [done|]. intros e He. apply elem_of_app. by left.
    + destruct (IH Hkey) as (es' & ? & Hsub). exists es'. split; [done|].
      intros e He. apply elem_of_app. right. by apply Hsub.
Qed.

Lemma common_entries_exact keys outs key :
  NoDup keys -> Forall2 (common_entry a b P) keys outs -> key ∈ keys ->
  exists es, common_entry a b P key es /\
    (forall e, e ∈ es -> e ∈ concat outs) /\
    (forall e, e ∈ concat outs -> entry_key e = KStr key -> e ∈ es).
Proof.
  intros Hnd Hall. revert Hnd.
  induction Hall as [|key' es keys outs Hes Hall IH]; simpl; intros Hnd Hkey.
  - by apply elem_of_nil in Hkey.
  - apply NoDup_cons in Hnd as [Hfresh Hnd].
    apply elem_of_cons in Hkey as [->|Hkey].
    + exists es. split; [done|]. split.
      * intros e He. apply elem_of_app. by left.
      * intros e He Hk. apply elem_of_app in He as [He|He]; [done|].
        destruct (common_entries_elem _ _ _ Hall He) as (key'' & es'' & Hin & Hes'' & He'').
        rewrite (common_entry_key _ _ _ Hes'' He'') in Hk. injection Hk as ->. done.
    + destruct (IH Hnd Hkey) as (es' & Hes' & Hsub & Hexact).
      exists es'. split; [done|]. split.
      * intros e He. apply elem_of_app. right. by apply Hsub.
      * intros e He Hk. apply elem_of_app in He as [He|He]; [|by apply Hexact].
        rewrite (common_entry_key _ _ _ Hes He) in Hk. injection Hk as ->. done.
Qed.

Lemma common_entries_keys keys outs :
  Forall2 (common_entry a b P) keys outs ->
  sublist (map entry_key (concat outs)) (map KStr keys).
Proof.
  induction 1 as [|key es keys outs Hes _ IH]; simpl; [constructor|].
  rewrite map_app.
  destruct Hes as (x & y & _ & _ & [[_ [[-> _]|(dd & _ & _ & ->)]]|[_ [[-> _]|[-> _]]]]);
    simpl; by constructor.
Qed.

Lemma adds_elem keys vs e :
  Forall2 (fun key v => dict_get key b = Some v) keys vs ->
  e ∈ zip_with (fun key v => Add (KStr key) v) keys vs ->
  exists key v, key ∈ keys /\ dict_get key b = Some v /\ e = Add (KStr key) v.
Proof.
  induction 1 as [|key v keys vs Hv _ IH]; simpl; intros He.
  - by apply elem_of_nil in He.
  - apply elem_of_cons in He as [->|He].
    + exists key, v. split; [left|done].
    + destruct (IH He) as (key' & v' & ? & ? & ?). exists key', v'.
      split; [by right|done].
Qed.

Lemma adds_lookup keys vs key :
  Forall2 (fun key v => dict_get key b = Some v) keys vs -> key ∈ keys ->
  exists v, dict_get key b = Some v /\
    Add (KStr key) v ∈ zip_with (fun key v => Add (KStr key) v) keys vs.
Proof.
  induction 1 as [|key' v keys vs Hv _ IH]; simpl; intros Hkey.
  - by apply elem_of_nil in Hkey.
  - apply elem_of_cons in Hkey as [->|Hkey].
    + exists v. split; [done|left].
    + destruct (IH Hkey) as (v' & ? & ?). exists v'. split; [done|by right].
Qed.

Lemma adds_keys keys vs :
  Forall2 (fun key v => dict_get key b = Some v) keys vs ->
  map entry_key (zip_with (fun key v => Add (KStr key) v) keys vs) = map KStr keys.
Proof. induction 1; simpl; [done|by f_equal]. Qed.

(** Every entry of the diff is a removal of a key of [a] only, an entry
    of a common key, or an addition of a key of [b] only. *)
Lemma dict_post_elem d e :
  dict_post a b P d -> e ∈ d ->
  (exists key, e = Remove (KStr key) /\ is_Some (dict_get key a) /\ dict_get key b = None) \/
  (exists key es, common_entry a b P key es /\ e ∈ es) \/
  (exists key v, e = Add (KStr key) v /\ dict_get key a = None /\ dict_get key b = Some v).
Proof.
  intros (outs & vs & Houts & Hvs & ->) He.
  rewrite merge_sort_Permutation in He.
  apply elem_of_app in He as [He|He]; [|apply elem_of_app in He as [He|He]].
  - left. apply list_elem_of_fmap in He as (key & -> & Hkey).
    exists key. split; [done|]. by apply elem_of_removes.
  - right; left. destruct (common_entries_elem _ _ _ Houts He) as (key & es & _ & ? & ?).
    eauto.
  - right; right. destruct (adds_elem _ _ _ Hvs He) as (key & v & Hkey & Hv & ->).
    exists key, v. split; [done|]. split; [|done]. by apply elem_of_adds in Hkey as [? _].
Qed.

Lemma dict_post_remove d key :
  dict_post a b P d -> is_Some (dict_get key a) -> dict_get key b = None ->
  Remove (KStr key) ∈ d.
Proof.
  intros (outs & vs & Houts & Hvs & ->) Ha Hb.
  rewrite merge_sort_Permutation. apply elem_of_app. left.
  apply list_elem_of_fmap. exists key. split; [done|]. by apply elem_of_removes.
Qed.

Lemma dict_post_common d key :
  dict_post a b P d -> is_Some (dict_get key a) -> is_Some (dict_get key b) ->
  exists es, common_entry a b P key es /\ forall e, e ∈ es -> e ∈ d.
Proof.
  intros (outs & vs & Houts & Hvs & ->) Ha Hb.
  destruct (common_entries_lookup _ _ key Houts) as (es & Hes & Hsub).
  { by apply elem_of_commons. }
  exists es. split; [done|]. intros e He.
  rewrite merge_sort_Permutation. apply elem_of_app. right.
  apply elem_of_app. left. by apply Hsub.
Qed.

(** The entries at a key of both mappings are exactly those emitted for it. *)
Lemma dict_post_common_exact d key :
  dict_post a b P d -> is_Some (dict_get key a) -> is_Some (dict_get key b) ->
  exists es, common_entry a b P key es /\
    (forall e, e ∈ es -> e ∈ d) /\
    (forall e, e ∈ d -> entry_key e = KStr key -> e ∈ es).
Proof.
  intros (outs & vs & Houts & Hvs & ->) Ha Hb.
  destruct (common_entries_exact _ _ key (sorted_NoDup _ (NoDup_elements _)) Houts)
    as (es & Hes & Hsub & Hexact).
  { by apply elem_of_commons. }
  exists es. split; [done|]. split.
  - intros e He. rewrite merge_sort_Permutation. apply elem_of_app. right.
    apply elem_of_app. left. by apply Hsub.
  - intros e He Hk. rewrite merge_sort_Permutation in He.
    apply elem_of_app in He as [He|He]; [|apply elem_of_app in He as [He|He]].
    + apply list_elem_of_fmap in He as (key' & -> & Hkey'). simpl in Hk.
      injection Hk as ->. apply elem_of_removes in Hkey' as [_ Hnone].
      rewrite Hnone in Hb. by destruct Hb.
    + by apply Hexact.
    + destruct (adds_elem _ _ _ Hvs He) as (key' & v & Hkey' & _ & ->). simpl in Hk.
      injection Hk as ->. apply elem_of_adds in Hkey' as [Hnone _].
      rewrite Hnone in Ha. by destruct Ha.
Qed.

Lemma dict_post_add d key v :
  dict_post a b P d -> dict_get key a = None -> dict_get key b = Some v ->
  Add (KStr key) v ∈ d.
Proof.
  intros (outs & vs & Houts & Hvs & ->) Ha Hb.
  destruct (adds_lookup _ _ key Hvs) as (v' & Hv' & Hin).
  { apply elem_of_adds. eauto. }
  assert (v' = v) as -> by congruence.
  rewrite merge_sort_Permutation. apply elem_of_app. right.
  apply elem_of_app. by right.
Qed.

(** The keys of the entries are distinct, and the entries are in the
    order of their keys. *)
Lemma dict_post_NoDup d : dict_post a b P d -> NoDup (map entry_key d).
Proof.
  intros (outs & vs & Houts & Hvs & ->).
  rewrite merge_sort_Permutation.
  rewrite !map_app, map_map. simpl.
  rewrite (adds_keys _ _ Hvs).
  assert (Hsub : sublist
    (map KStr removes ++ map entry_key (concat outs) ++ map KStr adds)
    (map KStr (removes ++ commons ++ adds))).
  { rewrite !map_app.
    apply sublist_app; [reflexivity|].
    apply sublist_app; [apply (common_entries_keys _ _ Houts)|reflexivity]. }
  assert (Hnd : NoDup (map KStr (removes ++ commons ++ adds))).
  { apply NoDup_fmap_2; [by intros ? ? [=]|].
    apply NoDup_app. split; [apply sorted_NoDup, NoDup_elements|]. split.
    - intros key H1 H2. apply elem_of_removes in H1 as [_ H1].
      apply elem_of_app in H2 as [H2|H2].
      + apply elem_of_commons in H2 as [_ [? H2]]. congruence.
      + apply elem_of_adds in H2 as [_ [? H2]]. congruence.
    - apply NoDup_app. split; [apply sorted_NoDup, NoDup_elements|]. split.
      + intros key H1 H2. apply elem_of_commons in H1 as [[? H1] _].
        apply elem_of_adds in H2 as [H2 _]. congruence.
      + apply sorted_NoDup, NoDup_elements. }
  exact (sublist_NoDup _ _ Hnd Hsub).
Qed.

Lemma dict_post_Sorted d : dict_post a b P d -> Sorted entry_le d.
Proof. intros (outs & vs & _ & _ & ->). apply Sorted_merge_sort, _. Qed.

End DictPost.

(** Whatever [diff_dicts] returns satisfies [dict_post], the recursive
    differ being arbitrary. *)
Lemma diff_dicts_returns env diff differs a b path r d r' :
  diff_dicts env diff differs (VDict a) (VDict b) path r = Ret (d, r') ->
  dict_post a b (fun _ _ _ => True) d.
Proof.
  intros Hrun.
  pose proof (diff_dicts_spec env diff differs (fun _ => True) (fun _ => True) True
                a b path (fun _ _ _ => True)) as H.
  specialize (H ltac:(intros key x y _ _ _ r0 _;
                      by destruct (differs_get differs _ diff x y _ r0) as [[? ?]| |])
                ltac:(done) ltac:(done) r Logic.I).
  rewrite Hrun in H. by destruct H.
Qed.

(** ** Order and determinism of [diff_dicts] *)

Lemma dict_get_perm key a a' :
  NoDup (dict_keys a) -> a' ≡ₚ a -> dict_get key a' = dict_get key a.
Proof.
  intros Hnd Hperm.
  assert (Hnd' : NoDup (dict_keys a')).
  { unfold dict_keys. by rewrite Hperm. }
  destruct (dict_get key a) as [v|] eqn:Ha.
  - apply dict_get_elem_of; [done|]. rewrite Hperm. by apply dict_get_Some_elem_of.
  - apply eq_None_not_Some. rewrite dict_get_is_Some. unfold dict_keys.
    rewrite Hperm. fold (dict_keys a). rewrite <- dict_get_is_Some, Ha.
    by intros [? ?].
Qed.

Lemma key_set_perm a a' : a' ≡ₚ a -> key_set a' = key_set a.
Proof. intros Hperm. unfold key_set, dict_keys. by rewrite Hperm. Qed.

Lemma bind_ext {A B} (m : M A) (k k' : A -> M B) r :
  (forall x r', k x r' = k' x r') -> bind m k r = bind m k' r.
Proof. intros H. unfold bind. by destruct (m r) as [[x r']| |]. Qed.

Lemma diff_dicts_loop_ext diff differs a b a' b' path keys :
  (forall key, dict_get key a' = dict_get key a) ->
  (forall key, dict_get key b' = dict_get key b) ->
  forall di r,
    diff_dicts_loop diff differs a' b' path keys di r
    = diff_dicts_loop diff differs a b path keys di r.
Proof.
  intros Ha Hb.
  induction keys as [|key keys IH]; intros di r; [done|].
  cbn [diff_dicts_loop]. unfold dict_getitem. rewrite Ha, Hb.
  apply bind_ext. intros avalue r1. apply bind_ext. intros bvalue r2.
  apply bind_ext. intros di' r3. apply IH.
Qed.

Lemma diff_dicts_adds_ext b b' keys :
  (forall key, dict_get key b' = dict_get key b) ->
  forall di r, diff_dicts_adds b' keys di r = diff_dicts_adds b keys di r.
Proof.
  intros Hb. induction keys as [|key keys IH]; intros di r; [done|].
  simpl. unfold dict_getitem. rewrite Hb.
  apply bind_ext. intros v r1. apply IH.
Qed.

(** C5: the entries of [diff_dicts(a, b)] are in the order of their
    keys, all kinds of entries together, with no key twice; and the
    result is the same for every insertion order of the two mappings.
    The order across kinds comes from the mapping builder, which is
    taken from the specification. *)
Theorem diff_dicts_sorted_by_key env diff differs a b path r :
  (forall d r',
     diff_dicts env diff differs (VDict a) (VDict b) path r = Ret (d, r') ->
     Sorted entry_le d /\ NoDup (map entry_key d) /\
     Forall (fun e => exists key, entry_key e = KStr key) d) /\
  (forall a' b',
     NoDup (dict_keys a) -> NoDup (dict_keys b) -> a' ≡ₚ a -> b' ≡ₚ b ->
     diff_dicts env diff differs (VDict a') (VDict b') path r
     = diff_dicts env diff differs (VDict a) (VDict b) path r).
Proof.
  split.
  - intros d r' Hrun. apply diff_dicts_returns in Hrun.
    split; [by eapply dict_post_Sorted|]. split; [by eapply dict_post_NoDup|].
    apply Forall_forall. intros e He.
    destruct (dict_post_elem _ _ _ _ _ Hrun He)
      as [(key & -> & _)|[(key & es & Hes & Hin)|(key & v & -> & _)]].
    + by exists key.
    + exists key. by eapply common_entry_key.
    + by exists key.
  - intros a' b' Hnda Hndb Hpa Hpb. unfold diff_dicts.
    rewrite (key_set_perm a a' Hpa), (key_set_perm b b' Hpb).
    pose proof (fun key => dict_get_perm key a a' Hnda Hpa) as Ha.
    pose proof (fun key => dict_get_perm key b b' Hndb Hpb) as Hb.
    unfold bind at 1 3.
    rewrite (diff_dicts_loop_ext diff differs a b a' b' path _ Ha Hb).
    destruct (diff_dicts_loop diff differs a b path _ _ r) as [[di r1]| |]; [|done..].
    unfold bind. by rewrite (diff_dicts_adds_ext b b' _ Hb).
Qed.

(** ** Values compared plainly by [diff_dicts] *)

(** C6, the claim as stated fails: text is not atomic for the differ.
    Two different strings under a common key are diffed by the text
    differ and give a [Patch], not a [Replace]. *)
Lemma diff_dicts_patches_text :
  diff_dicts Reference.env (diff Reference.env 2 default_differs) default_differs
    (VDict [("k", VStr "a")]) (VDict [("k", VStr "b")]) "" default_predicates
  = Ret ([Patch (KStr "k") [Remove (KIdx 0); Add (KIdx 1) (VStr "b")]],
         default_predicates).
Proof. vm_compute. reflexivity. Qed.

(** What the loops of [diff_dicts] leave at one common key that is
    recursed into: the [Patch] with the diff that the differ of that
    key returned, unless it is empty. *)
Section EntryAtKey.

Context (differ : Differ) (differs : gmap string Differ).
Context (a b : list (string * Value)) (path key : string) (x y : Value).

Hypothesis in_a : dict_get key a = Some x.
Hypothesis in_b : dict_get key b = Some y.
Hypothesis recursed_pair : recursed x y = true.

Lemma diff_dicts_loop_grows keys : forall di r di' r',
  diff_dicts_loop differ differs a b path keys di r = Ret (di', r') ->
  forall e, e ∈ di -> e ∈ di'.
Proof.
  induction keys as [|k keys IH]; intros di r di' r' Hrun e He;
    cbn [diff_dicts_loop] in Hrun.
  - by apply ret_Ret_inv in Hrun as [<- _].
  - apply bind_Ret_inv in Hrun as (u & r1 & _ & Hrun).
    apply bind_Ret_inv in Hrun as (v & r2 & _ & Hrun).
    apply bind_Ret_inv in Hrun as (di1 & r3 & Hstep & Hrun).
    apply (IH _ _ _ _ Hrun).
    destruct (PyType_eqb (type_of u) (type_of v) && negb (is_atomic u)).
    + apply bind_Ret_inv in Hstep as (dd & r4 & _ & Hret).
      apply ret_Ret_inv in Hret as [<- _].
      destruct dd; [done|]. apply elem_of_app. by left.
    + apply bind_Ret_inv in Hstep as (registered & r4 & _ & Hret).
      destruct registered; [done|]. apply ret_Ret_inv in Hret as [<- _].
      destruct (negb (py_eq u v)); [|done]. apply elem_of_app. by left.
Qed.

Lemma diff_dicts_loop_other_keys keys : forall di r di' r',
  diff_dicts_loop differ differs a b path keys di r = Ret (di', r') ->
  key ∉ keys ->
  forall e, e ∈ di' -> entry_key e = KStr key -> e ∈ di.
Proof.
  induction keys as [|k keys IH]; intros di r di' r' Hrun Hnot e He Hk;
    cbn [diff_dicts_loop] in Hrun.
  - by apply ret_Ret_inv in Hrun as [<- _].
  - apply not_elem_of_cons in Hnot as [Hne Hnot].
    apply bind_Ret_inv in Hrun as (u & r1 & _ & Hrun).
    apply bind_Ret_inv in Hrun as (v & r2 & _ & Hrun).
    apply bind_Ret_inv in Hrun as (di1 & r3 & Hstep & Hrun).
    pose proof (IH _ _ _ _ Hrun Hnot e He Hk) as He1.
    destruct (PyType_eqb (type_of u) (type_of v) && negb (is_atomic u)).
    + apply bind_Ret_inv in Hstep as (dd & r4 & _ & Hret).
      apply ret_Ret_inv in Hret as [<- _].
      destruct dd as [|e0 dd]; [done|].
      apply elem_of_app in He1 as [?|He1]; [done|].
      apply list_elem_of_singleton in He1 as ->. simpl in Hk. congruence.
    + apply bind_Ret_inv in Hstep as (registered & r4 & _ & Hret).
      destruct registered; [done|]. apply ret_Ret_inv in Hret as [<- _].
      destruct (negb (py_eq u v)); [|done].
      apply elem_of_app in He1 as [?|He1]; [done|].
      apply list_elem_of_singleton in He1 as ->. simpl in Hk. congruence.
Qed.

Lemma diff_dicts_loop_at_key keys : forall di r di' r',
  diff_dicts_loop differ differs a b path keys di r = Ret (di', r') ->
  NoDup keys -> key ∈ keys ->
  exists dd r0 r1,
    differs_get differs (join_path path key) differ x y (join_path path key) r0
      = Ret (dd, r1) /\
    (dd <> [] -> Patch (KStr key) dd ∈ di') /\
    (forall e, e ∈ di' -> entry_key e = KStr key ->
       e ∈ di \/ (e = Patch (KStr key) dd /\ dd <> [])).
Proof.
  induction keys as [|k keys IH]; intros di r di' r' Hrun Hnd Hin.
  { by apply elem_of_nil in Hin. }
  apply NoDup_cons in Hnd as [Hfresh Hnd].
  pose proof Hrun as Hrun0. cbn [diff_dicts_loop] in Hrun.
  apply bind_Ret_inv in Hrun as (u & r1 & Hu & Hrun).
  apply bind_Ret_inv in Hrun as (v & r2 & Hv & Hrun).
  apply bind_Ret_inv in Hrun as (di1 & r3 & Hstep & Hrun).
  destruct (decide (k = key)) as [->|Hne].
  - unfold dict_getitem in Hu, Hv. rewrite in_a in Hu. rewrite in_b in Hv.
    apply ret_Ret_inv in Hu as [<- <-]. apply ret_Ret_inv in Hv as [<- <-].
    fold (recursed x y) in Hstep. rewrite recursed_pair in Hstep.
    apply bind_Ret_inv in Hstep as (dd & r4 & Hdd & Hret).
    apply ret_Ret_inv in Hret as [<- <-].
    exists dd, r, r4. split; [exact Hdd|]. split.
    + intros Hne. apply (diff_dicts_loop_grows _ _ _ _ _ Hrun).
      destruct dd as [|e0 dd]; [done|]. apply elem_of_app. right. by left.
    + intros e He Hk.
      pose proof (diff_dicts_loop_other_keys _ _ _ _ _ Hrun Hfresh e He Hk) as He1.
      destruct dd as [|e0 dd]; [by left|].
      apply elem_of_app in He1 as [?|He1]; [by left|].
      apply list_elem_of_singleton in He1 as ->. by right.
  - apply elem_of_cons in Hin as [?|Hin]; [congruence|].
    destruct (IH _ _ _ _ Hrun Hnd Hin) as (dd & r0 & r4 & Hdd & Hpatch & Honly).
    exists dd, r0, r4. split; [exact Hdd|]. split; [exact Hpatch|].
    intros e He Hk. destruct (Honly e He Hk) as [He1|?]; [|by right]. left.
    destruct (PyType_eqb (type_of u) (type_of v) && negb (is_atomic u)).
    + apply bind_Ret_inv in Hstep as (dd' & r5 & _ & Hret).
      apply ret_Ret_inv in Hret as [<- _].
      destruct dd' as [|e0 dd']; [done|].
      apply elem_of_app in He1 as [?|He1]; [done|].
      apply list_elem_of_singleton in He1 as ->. simpl in Hk. congruence.
    + apply bind_Ret_inv in Hstep as (registered & r5 & _ & Hret).
      destruct registered; [done|]. apply ret_Ret_inv in Hret as [<- _].
      destruct (negb (py_eq u v)); [|done].
      apply elem_of_app in He1 as [?|He1]; [done|].
      apply list_elem_of_singleton in He1 as ->. simpl in Hk. congruence.
Qed.

Lemma diff_dicts_adds_grows keys : forall di r di' r',
  diff_dicts_adds b keys di r = Ret (di', r') ->
  (forall e, e ∈ di -> e ∈ di') /\
  (key ∉ keys -> forall e, e ∈ di' -> entry_key e = KStr key -> e ∈ di).
Proof.
  induction keys as [|k keys IH]; intros di r di' r' Hrun; cbn [diff_dicts_adds] in Hrun.
  - by apply ret_Ret_inv in Hrun as [<- _].
  - apply bind_Ret_inv in Hrun as (v & r1 & _ & Hrun).
    destruct (IH _ _ _ _ Hrun) as [Hgrows Honly]. split.
    + intros e He. apply Hgrows, elem_of_app. by left.
    + intros Hnot e He Hk. apply not_elem_of_cons in Hnot as [Hne Hnot].
      apply (Honly Hnot e He) in Hk as He1.
      apply elem_of_app in He1 as [?|He1]; [done|].
      apply list_elem_of_singleton in He1 as ->. simpl in Hk. congruence.
Qed.

Lemma diff_dicts_at_key env r d r' :
  diff_dicts env differ differs (VDict a) (VDict b) path r = Ret (d, r') ->
  exists dd r0 r1,
    differs_get differs (join_path path key) differ x y (join_path path key) r0
      = Ret (dd, r1) /\
    (dd <> [] -> Patch (KStr key) dd ∈ d) /\
    (forall e, e ∈ d -> entry_key e = KStr key -> e = Patch (KStr key) dd /\ dd <> []).
Proof.
  intros Hrun. unfold diff_dicts in Hrun.
  apply bind_Ret_inv in Hrun as (di1 & r1 & Hloop & Hrun).
  apply bind_Ret_inv in Hrun as (di2 & r2 & Hadds & Hrun).
  apply mapping_validated_Ret_inv in Hrun.
  destruct (diff_dicts_adds_grows _ _ _ _ _ Hadds) as [Hgrows Honly].
  destruct (diff_dicts_loop_at_key _ _ _ _ _ Hloop) as (dd & r0 & r3 & Hdd & Hpatch & Hat).
  { apply sorted_NoDup, NoDup_elements. }
  { apply elem_of_commons. split; by eexists. }
  exists dd, r0, r3. split; [exact Hdd|]. split.
  - intros Hne. rewrite Hrun. by apply Hgrows, Hpatch.
  - intros e He Hk. rewrite Hrun in He.
    apply Honly in He; [|by rewrite elem_of_adds, in_a; intros [? _]|done].
    destruct (Hat e He Hk) as [Hrem|?]; [|done].
    apply list_elem_of_fmap in Hrem as (k & -> & Hrem). simpl in Hk.
    injection Hk as ->. apply elem_of_removes in Hrem as [_ Hnone]. congruence.
Qed.

End EntryAtKey.

(** C6, as amended: for a key of both mappings whose source value is
    atomic for the differ (neither text, list nor dict), the values are
    compared by [==]: every diff that [diff_dicts] returns has a
    [Replace] with the target value at that key when they are unequal,
    no entry at that key when they are equal, and never a [Patch] at
    that key.  Two text values are not compared plainly: they never
    give a [Replace], and where [diff] itself is the differ of the key
    they are diffed by [diff_strings]: the returned diff has the
    [Patch] with that text diff at the key when it is not empty, and
    nothing else at the key. *)
Theorem diff_dicts_compares_atomic_values env differ differs a b path key x y r d r' :
  dict_get key a = Some x -> dict_get key b = Some y ->
  diff_dicts env differ differs (VDict a) (VDict b) path r = Ret (d, r') ->
  (is_atomic x = true ->
     (py_eq x y = false -> Replace (KStr key) y ∈ d) /\
     (py_eq x y = true -> forall e, e ∈ d -> entry_key e <> KStr key) /\
     (forall dd, Patch (KStr key) dd ∉ d)) /\
  (forall s t, x = VStr s -> y = VStr t ->
     (forall v, Replace (KStr key) v ∉ d) /\
     (forall fuel differs0,
        differs_get differs (join_path path key) differ = diff env (S fuel) differs0 ->
        (diff_strings env s t <> [] ->
         Patch (KStr key) (diff_strings env s t) ∈ d) /\
        (forall e, e ∈ d -> entry_key e = KStr key ->
           e = Patch (KStr key) (diff_strings env s t) /\
           diff_strings env s t <> []))).
Proof.
  intros Hx Hy Hrun0. pose proof Hrun0 as Hrun. apply diff_dicts_returns in Hrun.
  assert (Hat : forall e, e ∈ d -> entry_key e = KStr key ->
    exists es, common_entry a b (fun _ _ _ => True) key es /\ e ∈ es).
  { intros e He Hk.
    destruct (dict_post_elem _ _ _ _ _ Hrun He)
      as [(key' & -> & _ & Hb)|[(key' & es & Hes & Hin)|(key' & v & -> & Ha & _)]].
    - simpl in Hk. injection Hk as ->. congruence.
    - rewrite (common_entry_key _ _ _ _ _ _ Hes Hin) in Hk. injection Hk as ->. eauto.
    - simpl in Hk. injection Hk as ->. congruence. }
  split.
  - intros Hatomic.
    assert (Hplain : recursed x y = false).
    { unfold recursed. rewrite Hatomic. apply andb_false_r. }
    split; [|split].
    + intros Hne.
      destruct (dict_post_common _ _ _ _ key Hrun) as (es & Hes & Hsub); [eauto..|].
      apply Hsub.
      destruct Hes as (x' & y' & Hx' & Hy' & Hcases).
      assert (x' = x) as -> by congruence. assert (y' = y) as -> by congruence.
      destruct Hcases as [[Hrec _]|[_ [[_ Heq]|[-> _]]]]; [congruence..|left].
    + intros Heq e He Hk. destruct (Hat e He Hk) as (es & Hes & Hin).
      destruct Hes as (x' & y' & Hx' & Hy' & Hcases).
      assert (x' = x) as -> by congruence. assert (y' = y) as -> by congruence.
      destruct Hcases as [[Hrec _]|[_ [[-> _]|[_ Hne]]]]; [congruence| |congruence].
      by apply elem_of_nil in Hin.
    + intros dd He. destruct (Hat _ He eq_refl) as (es & Hes & Hin).
      destruct Hes as (x' & y' & Hx' & Hy' & Hcases).
      assert (x' = x) as -> by congruence. assert (y' = y) as -> by congruence.
      destruct Hcases as [[Hrec _]|[_ [[-> _]|[-> _]]]]; [congruence|..].
      * by apply elem_of_nil in Hin.
      * by apply list_elem_of_singleton in Hin.
  - intros s t -> ->. split.
    + intros v He. destruct (Hat _ He eq_refl) as (es & Hes & Hin).
      destruct Hes as (x' & y' & Hx' & Hy' & Hcases).
      assert (x' = VStr s) as -> by congruence. assert (y' = VStr t) as -> by congruence.
      destruct Hcases as [[_ [[-> _]|(dd & _ & _ & ->)]]|[Hrec _]]; [..|done].
      * by apply elem_of_nil in Hin.
      * by apply list_elem_of_singleton in Hin.
    + intros fuel differs0 Hdiffer.
      destruct (diff_dicts_at_key differ differs a b path key (VStr s) (VStr t)
                  Hx Hy eq_refl env r d r' Hrun0)
        as (dd & r0 & r1 & Hdd & Hpatch & Honly).
      rewrite Hdiffer in Hdd. cbn [diff] in Hdd.
      apply bind_Ret_inv in Hdd as (d0 & r2 & Hd0 & Hdd).
      apply ret_Ret_inv in Hd0 as [<- _].
      destruct (validate_diff env (diff_strings env s t)); [|done].
      apply ret_Ret_inv in Hdd as [<- _]. split; [exact Hpatch|exact Honly].
Qed.

Lemma diff_dicts_compares_atomic_values_witness :
  let d := [Replace (KStr "b") (num 3);
            Patch (KStr "t") [Remove (KIdx 0); Add (KIdx 1) (VStr "b")]] in
  Replace (KStr "b") (num 3) ∈ d /\
  Patch (KStr "t") (diff_strings Reference.env "a" "b") ∈ d.
Proof.
  intros d.
  assert (Hrun :
    diff_dicts Reference.env (diff Reference.env 2 default_differs) default_differs
      (VDict [("b", num 2); ("t", VStr "a")]) (VDict [("t", VStr "b"); ("b", num 3)])
      "" default_predicates = Ret (d, default_predicates)).
  { vm_compute. reflexivity. }
  split.
  - refine (proj1 (proj1 (diff_dicts_compares_atomic_values Reference.env
              _ default_differs [("b", num 2); ("t", VStr "a")]
              [("t", VStr "b"); ("b", num 3)] "" "b" (num 2) (num 3) default_predicates d
              default_predicates eq_refl eq_refl Hrun) eq_refl) eq_refl).
  - refine (proj1 (proj2 (proj2 (diff_dicts_compares_atomic_values Reference.env
              _ default_differs [("b", num 2); ("t", VStr "a")]
              [("t", VStr "b"); ("b", num 3)] "" "t" (VStr "a") (VStr "b")
              default_predicates d
              default_predicates eq_refl eq_refl Hrun) "a" "b" eq_refl eq_refl)
              1 default_differs (differs_get_default _ _)) _).
    clear Hrun. intros H. vm_compute in H. discriminate H.
Defined.

(** ** Replaying a script on its source sequence *)

Section ReplaySequence.

Context (a : list Value).
Context (K : Value -> Value -> Prop) (P : Value -> Value -> Diff -> Prop).

Notation R := (fun x y : Value => py_eq x y = true).

Hypothesis kept_equal : forall x y, K x y -> R x y.

Hypothesis patched_replays : forall k x y cd,
  P x y cd -> exists x', patch_entry (Patch k cd) x = Some x' /\ R x' y.

Lemma patch_sequence_script i ar br s :
  script K P i ar br s ->
  Forall (fun y => R y y) br ->
  forall taken m bp,
    i = taken + m -> ar = drop i a -> i <= length a ->
    Forall2 R (take m (drop taken a)) bp ->
    (0 < m -> s <> [] /\ head_key_ge i s) ->
    exists out, patch_sequence patch_entry s a taken = Some out /\
                Forall2 R out (bp ++ br).
Proof.
  induction 1 as [i ar br Hall | i k x y ar br e s HK Hkey Hlt Hs IH
                  | i x ar br s Hs IH | i k y ar br s Hle Hs IH
                  | i x y ar br s Hs IH | i x y cd ar br s HP Hs IH];
    intros Hrefl taken m bp Hi Har Hla Hpend Hm.
  - assert (m = 0) as -> by (destruct m; [done|]; destruct Hm as [? _]; [lia|done]).
    rewrite Nat.add_0_r in Hi. subst taken. simpl in Hpend.
    apply Forall2_nil_inv_l in Hpend as ->. simpl.
    exists ar. split; [by rewrite Har|].
    eapply Forall2_impl; [exact Hall|]. intros; by apply kept_equal.
  - subst i. destruct (drop_cons_inv _ _ _ _ (eq_sym Har)) as (Hx & Ha' & ?).
    apply Forall_cons in Hrefl as [_ Hrefl].
    destruct (IH Hrefl taken (S m) (bp ++ [y])) as (out & Hout & Hall).
    + lia.
    + rewrite <- Ha'. f_equal.
    + lia.
    + assert (Hx' : drop taken a !! m = Some x) by (by rewrite lookup_drop).
      rewrite (take_S_r _ _ _ Hx'). apply Forall2_app; [done|].
      constructor; [by apply kept_equal|constructor].
    + intros _. split; [done|]. exists k. split; [done|lia].
    + exists out. split; [done|]. by rewrite <- app_assoc in Hall.
  - (* Remove *)
    subst i. destruct (drop_cons_inv _ _ _ _ (eq_sym Har)) as (Hx & Ha' & ?).
    destruct (IH Hrefl (S (taken + m)) 0 []) as (out & Hout & Hall);
      [lia|done|lia|constructor|lia|].
    cbn [patch_sequence]. rewrite decide_True by lia.
    rewrite Hout. simpl.
    replace (taken + m - taken) with m by lia.
    eexists. split; [done|]. by apply Forall2_app.
  - (* Add *)
    subst i. apply Forall_cons in Hrefl as [Hy Hrefl].
    assert (Hk : k - taken = m /\ Nat.max taken k = taken + m).
    { destruct m; [lia|]. destruct Hm as [_ (k' & Hk' & ?)]; [lia|].
      simpl in Hk'. injection Hk' as ->. lia. }
    destruct Hk as [Hk1 Hk2].
    destruct (IH Hrefl (taken + m) 0 []) as (out & Hout & Hall);
      [lia|done|lia|constructor|lia|].
    cbn [patch_sequence]. rewrite decide_True by lia.
    rewrite Hk2, Hout, Hk1. simpl.
    eexists. split; [done|]. apply Forall2_app; [done|]. by constructor.
  - (* Replace *)
    subst i. destruct (drop_cons_inv _ _ _ _ (eq_sym Har)) as (Hx & Ha' & ?).
    apply Forall_cons in Hrefl as [Hy Hrefl].
    destruct (IH Hrefl (S (taken + m)) 0 []) as (out & Hout & Hall);
      [lia|done|lia|constructor|lia|].
    cbn [patch_sequence]. rewrite decide_True by lia.
    rewrite Hout. simpl.
    replace (taken + m - taken) with m by lia.
    eexists. split; [done|]. apply Forall2_app; [done|]. by constructor.
  - (* Patch *)
    subst i. destruct (drop_cons_inv _ _ _ _ (eq_sym Har)) as (Hx & Ha' & ?).
    apply Forall_cons in Hrefl as [Hy Hrefl].
    destruct (IH Hrefl (S (taken + m)) 0 []) as (out & Hout & Hall);
      [lia|done|lia|constructor|lia|].
    destruct (patched_replays (KIdx (taken + m)) x y cd HP) as (x' & Hx' & HR).
    cbn [patch_sequence]. rewrite decide_True by lia.
    rewrite Hx. cbn [mbind option_bind]. rewrite Hx'. cbn [mbind option_bind].
    rewrite Hout. simpl.
    replace (taken + m - taken) with m by lia.
    eexists. split; [done|]. apply Forall2_app; [done|]. by constructor.
Qed.

(** Replaying a script for [a] and [b] on [a] gives [b] up to [==]. *)
Lemma patch_sequence_correct b s :
  script K P 0 a b s -> Forall (fun y => R y y) b ->
  exists out, patch_sequence patch_entry s a 0 = Some out /\ Forall2 R out b.
Proof.
  intros Hs Hrefl.
  destruct (patch_sequence_script 0 a b s Hs Hrefl 0 0 []) as (out & ? & ?);
    try done; try lia. eauto.
Qed.

End ReplaySequence.

(** ** Replaying a mapping diff *)

Lemma dict_get_app key items k v :
  dict_get key (items ++ [(k, v)]) =
  match dict_get key items with
  | Some x => Some x
  | None => if String.eqb key k then Some v else None
  end.
Proof.
  induction items as [|[k' v'] items IH]; simpl; [done|].
  by destruct (String.eqb key k').
Qed.

Lemma dict_get_del key items k :
  dict_get key (dict_del k items) = if decide (key = k) then None else dict_get key items.
Proof.
  unfold dict_del. induction items as [|[k' v'] items IH]; simpl.
  - by destruct (decide _).
  - destruct (decide (k ≠ k')) as [Hne|Heq%dec_stable].
    + rewrite filter_cons_True by done. simpl.
      destruct (String.eqb_spec key k') as [->|Hne']; [|done].
      by rewrite decide_False by done.
    + rewrite filter_cons_False by (simpl; tauto). subst k'.
      rewrite IH. destruct (decide (key = k)) as [->|Hne]; [done|].
      by destruct (String.eqb_spec key k).
Qed.

Lemma dict_get_set key items k v :
  dict_has k items = true ->
  dict_get key (dict_set k v items) = if decide (key = k) then Some v else dict_get key items.
Proof.
  unfold dict_set, dict_has. intros Hhas. rewrite Hhas.
  apply bool_decide_eq_true in Hhas.
  induction items as [|[k' v'] items IH]; simpl in *.
  - by destruct Hhas.
  - destruct (String.eqb_spec k k') as [->|Hne].
    + simpl. destruct (String.eqb_spec key k') as [->|Hne'].
      * by rewrite decide_True.
      * rewrite decide_False by done. clear IH Hhas.
        induction items as [|[k'' v''] items IH]; simpl; [done|].
        destruct (String.eqb_spec k' k'') as [<-|Hne'']; simpl.
        -- destruct (String.eqb_spec key k'); [done|]. apply IH.
        -- destruct (String.eqb_spec key k''); [done|]. apply IH.
    + simpl. destruct (String.eqb_spec key k') as [->|Hne'].
      * by rewrite decide_False.
      * apply IH. destruct (String.eqb_spec k k'); done.
Qed.

Lemma dict_keys_set items k v :
  dict_has k items = true -> dict_keys (dict_set k v items) = dict_keys items.
Proof.
  unfold dict_set. intros ->. unfold dict_keys.
  induction items as [|[k' v'] items IH]; simpl; [done|].
  rewrite IH. by destruct (String.eqb_spec k k') as [->|].
Qed.

Lemma dict_keys_del_NoDup items k :
  NoDup (dict_keys items) -> NoDup (dict_keys (dict_del k items)).
Proof.
  unfold dict_del, dict_keys. intros Hnd.
  eapply sublist_NoDup; [exact Hnd|].
  apply fmap_sublist, sublist_filter.
Qed.

Lemma dict_keys_app_NoDup items k v :
  NoDup (dict_keys items) -> dict_get k items = None ->
  NoDup (dict_keys (items ++ [(k, v)])).
Proof.
  intros Hnd Hk. unfold dict_keys. rewrite fmap_app. simpl.
  apply NoDup_app. split; [done|]. split; [|apply NoDup_singleton].
  intros k' Hin ->%list_elem_of_singleton.
  apply dict_get_is_Some in Hin. rewrite Hk in Hin. by destruct Hin.
Qed.

Lemma dict_has_true k items : dict_has k items = true <-> is_Some (dict_get k items).
Proof. unfold dict_has. apply bool_decide_eq_true. Qed.

Lemma dict_has_false k items : dict_has k items = false <-> dict_get k items = None.
Proof.
  unfold dict_has. rewrite bool_decide_eq_false. by rewrite eq_None_not_Some.
Qed.

Lemma entry_applies_key items e k o :
  entry_applies items e k o -> entry_key e = KStr k.
Proof. destruct e as [[|]|[|]|[|]|[|]]; simpl; try done; by intros [-> _]. Qed.

Lemma entry_applies_ext items items' e k o :
  dict_get k items' = dict_get k items ->
  entry_applies items e k o -> entry_applies items' e k o.
Proof. destruct e as [[|]|[|]|[|]|[|]]; simpl; try done; by intros ->. Qed.

Lemma entry_applies_functional items e k o k' o' :
  entry_applies items e k o -> entry_applies items e k' o' -> k = k' /\ o = o'.
Proof.
  destruct e as [[|]|[|]|[|]|[|]]; simpl; try done.
  - intros (<- & _ & ->) (<- & _ & ->). done.
  - intros (<- & _ & ->) (<- & _ & ->). done.
  - intros (<- & _ & ->) (<- & _ & ->). done.
  - intros (<- & x & x' & Hx & Hx' & ->) (<- & y & y' & Hy & Hy' & ->).
    split; [done|]. congruence.
Qed.

(** One entry: the mapping afterwards differs at the key of the entry only. *)
Lemma patch_mapping_step items e k o rest :
  NoDup (dict_keys items) ->
  entry_applies items e k o ->
  exists items',
    patch_mapping patch_entry (e :: rest) items = patch_mapping patch_entry rest items' /\
    NoDup (dict_keys items') /\
    dict_get k items' = o /\
    forall k', k' <> k -> dict_get k' items' = dict_get k' items.
Proof.
  intros Hnd Happ.
  destruct e as [[|k0] v|[|k0]|[|k0] v|[|k0] dd]; cbn [entry_applies] in Happ; try done.
  - destruct Happ as (-> & Hk & ->).
    exists (items ++ [(k, v)]). cbn [patch_mapping].
    rewrite (proj2 (dict_has_false k items) Hk).
    split; [done|]. split; [by apply dict_keys_app_NoDup|]. split.
    + by rewrite dict_get_app, Hk, String.eqb_refl.
    + intros k' Hne. rewrite dict_get_app.
      destruct (dict_get k' items); [done|]. by destruct (String.eqb_spec k' k).
  - destruct Happ as (-> & Hk & ->).
    exists (dict_del k items). cbn [patch_mapping].
    rewrite (proj2 (dict_has_true k items) Hk).
    split; [done|]. split; [by apply dict_keys_del_NoDup|]. split.
    + by rewrite dict_get_del, decide_True.
    + intros k' Hne. by rewrite dict_get_del, decide_False.
  - destruct Happ as (-> & Hk & ->).
    exists (dict_set k v items). cbn [patch_mapping].
    pose proof (proj2 (dict_has_true k items) Hk) as Hhas. rewrite Hhas.
    split; [done|]. split; [by rewrite dict_keys_set|]. split.
    + by rewrite dict_get_set, decide_True.
    + intros k' Hne. by rewrite dict_get_set, decide_False.
  - destruct Happ as (-> & x & x' & Hx & Hx' & ->).
    exists (dict_set k x' items). cbn [patch_mapping].
    assert (Hhas : dict_has k items = true) by (apply dict_has_true; eauto).
    rewrite Hx. cbn [mbind option_bind]. rewrite Hx'. cbn [mbind option_bind].
    split; [done|]. split; [by rewrite dict_keys_set|]. split.
    + by rewrite dict_get_set, decide_True.
    + intros k' Hne. by rewrite dict_get_set, decide_False.
Qed.

Lemma patch_mapping_spec d : forall items,
  NoDup (dict_keys items) ->
  NoDup (map entry_key d) ->
  (forall e, e ∈ d -> exists k o, entry_applies items e k o) ->
  exists res,
    patch_mapping patch_entry d items = Some res /\
    NoDup (dict_keys res) /\
    (forall k, (forall e, e ∈ d -> entry_key e <> KStr k) ->
       dict_get k res = dict_get k items) /\
    (forall e k o, e ∈ d -> entry_applies items e k o -> dict_get k res = o).
Proof.
  induction d as [|e rest IH]; intros items Hnd Hkeys Happ.
  - exists items. split; [done|]. split; [done|]. split; [done|].
    intros e k o He. by apply elem_of_nil in He.
  - destruct (Happ e ltac:(left)) as (k & o & He).
    apply NoDup_cons in Hkeys as [Hk Hkeys].
    assert (Hother : forall e', e' ∈ rest -> entry_key e' <> KStr k).
    { intros e' He' Heq. apply Hk. rewrite (entry_applies_key _ _ _ _ He), <- Heq.
      apply list_elem_of_fmap. by exists e'. }
    destruct (patch_mapping_step items e k o rest Hnd He)
      as (items' & Hstep & Hnd' & Hk' & Hrest).
    destruct (IH items' Hnd' Hkeys) as (res & Hres & Hndres & Hkeep & Hset).
    { intros e' He'. destruct (Happ e' ltac:(by right)) as (k' & o' & Happ').
      exists k', o'. eapply entry_applies_ext; [|exact Happ'].
      apply Hrest. intros ->. apply (Hother e' He').
      by eapply entry_applies_key. }
    exists res. split; [by rewrite Hstep|]. split; [done|]. split.
    + intros k0 Hno. rewrite Hkeep.
      * apply Hrest. intros ->. apply (Hno e ltac:(left)).
        by eapply entry_applies_key.
      * intros e' He'. apply Hno. by right.
    + intros e' k' o' He' Happ'. apply elem_of_cons in He' as [->|He'].
      * destruct (entry_applies_functional _ _ _ _ _ _ He Happ') as [<- <-].
        rewrite Hkeep; [done|]. exact Hother.
      * apply (Hset e' k' o' He'). eapply entry_applies_ext; [|exact Happ'].
        apply Hrest. intros ->. apply (Hother e' He').
        by eapply entry_applies_key.
Qed.

(** ** Round trip *)

Lemma join_chars_chars s : join_chars (chars s) = Some s.
Proof.
  unfold chars. induction s as [|c s IH]; simpl; [done|].
  rewrite IH. done.
Qed.

Lemma chars_forall2_eq out s :
  Forall2 (fun x y => py_eq x y = true) out (chars s) -> out = chars s.
Proof.
  unfold chars. generalize (list_ascii_of_string s). intros cs. revert out.
  induction cs as [|c cs IH]; intros out Hall; inversion Hall as [|x y out' l Hxy Hrest];
    subst; simpl; [done|].
  apply py_eq_VStr_r in Hxy. subst. f_equal. by apply IH.
Qed.

Lemma chars_forall_VStr s l :
  l = chars s -> Forall (fun y => py_eq y y = true) l.
Proof.
  intros ->. unfold chars. apply Forall_fmap, Forall_forall. intros c _. simpl.
  apply (String.eqb_refl (String c "")).
Qed.

(** The empty diff replays to the document itself. *)
Lemma patch_nil x : is_atomic x = false -> patch x [] = Some x.
Proof.
  destruct x as [ | | |s|xs|items]; try done; unfold patch, patch_with;
    cbn [patch_sequence patch_mapping]; rewrite ?drop_0; try done.
  cbn [mbind option_bind]. by rewrite join_chars_chars.
Qed.

Lemma patch_entry_Patch k cd x : patch_entry (Patch k cd) x = patch x cd.
Proof. done. Qed.

(** Replaying the diff of two mappings. *)
Lemma patch_mapping_correct a b P d :
  NoDup (dict_keys a) -> NoDup (dict_keys b) ->
  (forall k v, dict_get k b = Some v -> py_eq v v = true) ->
  (forall x y dd, P x y dd -> replays x dd y) ->
  dict_post a b P d ->
  replays (VDict a) d (VDict b).
Proof.
  intros Hnda Hndb Hrefl HP Hpost.
  destruct (patch_mapping_spec d a Hnda (dict_post_NoDup _ _ _ _ Hpost))
    as (res & Hres & Hndres & Hkeep & Hset).
  { intros e He.
    destruct (dict_post_elem _ _ _ _ _ Hpost He)
      as [(key & -> & Ha & _)|[(key & es & Hes & Hin)|(key & v & -> & Ha & _)]].
    - exists key, None. done.
    - destruct Hes as (x & y & Hx & Hy & [[_ [[-> _]|(dd & _ & Hdd & ->)]]|[_ [[-> _]|[-> _]]]]).
      + by apply elem_of_nil in Hin.
      + apply list_elem_of_singleton in Hin as ->.
        destruct (HP _ _ _ Hdd) as (x' & Hx' & _).
        exists key, (Some x'). split; [done|]. exists x, x'. done.
      + by apply elem_of_nil in Hin.
      + apply list_elem_of_singleton in Hin as ->.
        exists key, (Some y). simpl. rewrite Hx. eauto.
    - exists key, (Some v). done. }
  assert (Hrel : forall k,
    match dict_get k res, dict_get k b with
    | Some v, Some w => py_eq v w = true
    | None, None => True
    | _, _ => False
    end).
  { intros k.
    destruct (dict_get k a) as [x|] eqn:Ha, (dict_get k b) as [y|] eqn:Hb.
    - destruct (dict_post_common_exact _ _ _ _ k Hpost) as (es & Hes & Hsub & Hexact);
        [eauto..|].
      destruct Hes as (x0 & y0 & Hx0 & Hy0 & Hcases).
      assert (x0 = x) as -> by congruence. assert (y0 = y) as -> by congruence.
      assert (Hno : es = [] -> dict_get k res = Some x).
      { intros ->. rewrite Hkeep; [done|]. intros e He Hk.
        by apply (Hexact e He) in Hk; apply elem_of_nil in Hk. }
      destruct Hcases as [[Hrec [[-> Hdd]|(dd & _ & Hdd & ->)]]|[_ [[-> Heq]|[-> _]]]].
      + rewrite Hno by done. destruct (HP _ _ _ Hdd) as (x' & Hx' & HR).
        rewrite patch_nil in Hx'; [congruence|]. by destruct x.
      + destruct (HP _ _ _ Hdd) as (x' & Hx' & HR).
        rewrite (Hset (Patch (KStr k) dd) k (Some x')); [done|apply Hsub; left|].
        split; [done|]. exists x, x'. done.
      + by rewrite Hno.
      + rewrite (Hset (Replace (KStr k) y) k (Some y)); [by eapply Hrefl|apply Hsub; left|].
        simpl. rewrite Ha. eauto.
    - rewrite (Hset (Remove (KStr k)) k None); [done| |].
      + eapply dict_post_remove; eauto.
      + simpl. rewrite Ha. eauto.
    - rewrite (Hset (Add (KStr k) y) k (Some y)); [by eapply Hrefl| |done].
      by eapply dict_post_add.
    - rewrite Hkeep, Ha; [done|]. intros e He Hk.
      destruct (dict_post_elem _ _ _ _ _ Hpost He)
        as [(key & -> & [? Hs] & _)|[(key & es & Hes & Hin)|(key & v & -> & _ & Hs)]].
      + simpl in Hk. injection Hk as ->. congruence.
      + rewrite (common_entry_key _ _ _ _ _ _ Hes Hin) in Hk. injection Hk as ->.
        destruct Hes as (? & ? & ? & _). congruence.
      + simpl in Hk. injection Hk as ->. congruence. }
  exists (VDict res). split.
  - unfold patch, patch_with. by rewrite Hres.
  - apply py_eq_dict. split.
    + rewrite <- (length_fmap fst res), <- (length_fmap fst b).
      apply Permutation_length, NoDup_Permutation; [done..|].
      intros k. fold (dict_keys res) (dict_keys b).
      rewrite <- !dict_get_is_Some. specialize (Hrel k).
      destruct (dict_get k res), (dict_get k b); try done;
        split; (by intros [? ?]) || eauto.
    + apply Forall_forall. intros [k v] Hin. simpl.
      apply (dict_get_elem_of _ _ _ Hndres) in Hin.
      specialize (Hrel k). rewrite Hin in Hrel.
      destruct (dict_get k b) as [w|]; [eauto|done].
Qed.

Section RoundTrip.

Context (env : Collaborators).

Hypothesis bruteforce_aligned : forall a b,
  aligned OpEq 0 a b (diff_sequence_bruteforce env a b OpEq).

Hypothesis difflib_aligned : forall a b,
  aligned OpEq 0 a b (diff_sequence_difflib env a b).

Lemma diff_strings_replays sa sb :
  replays (VStr sa) (diff_strings env sa sb) (VStr sb).
Proof.
  unfold diff_strings.
  destruct (patch_sequence_correct (chars sa)
              (fun x y => py_eq x y = true) (fun _ _ _ => False)
              ltac:(done) ltac:(done) (chars sb) _ (difflib_aligned _ _)
              (chars_forall_VStr sb _ eq_refl)) as (out & Hout & Hall).
  apply chars_forall2_eq in Hall. subst out.
  exists (VStr sb). split.
  - unfold patch, patch_with. rewrite Hout. cbn [mbind option_bind].
    by rewrite join_chars_chars.
  - simpl. apply String.eqb_refl.
Qed.

Lemma diff_replays fuel : forall a b path,
  same_kind a b = true -> wf_value a = true -> wf_value b = true ->
  depth a <= fuel ->
  hoare default_like (diff env fuel default_differs a b path)
    (fun d r => default_like r /\ replays a d b) conflict_or_malformed False.
Proof.
  induction fuel as [|fuel IH]; intros a b path Hkind Hwfa Hwfb Hdepth.
  { pose proof (depth_pos a). lia. }
  cbn [diff].
  eapply (hoare_bind _ _ _ (fun d r => default_like r /\ replays a d b)).
  - destruct a as [ | | |sa|la|da], b as [ | | |sb|lb|db]; try done.
    + (* text *)
      apply hoare_ret. intros r Hr. split; [done|]. apply diff_strings_replays.
    + (* sequences *)
      apply wf_value_list in Hwfa, Hwfb. rewrite Forall_forall in Hwfa, Hwfb.
      set (K := fun x y : Value => py_eq x y = true).
      set (P := fun (x y : Value) (cd : Diff) => replays x cd y).
      eapply hoare_weaken;
        [eapply (diff_lists_spec env _ _ default_like conflict_or_malformed False
                   default_like la lb path OpEq K P)
        |done| |done|done].
      * intros r Hr. by apply default_like_getitem.
      * apply bruteforce_aligned.
      * intros x y Hx Hy Hxy Hatom. rewrite differs_get_default.
        apply IH; [by apply py_eq_same_kind|by apply Hwfa|by apply Hwfb|].
        pose proof (depth_list_elem x la Hx). lia.
      * intros. by right.
      * intros d r [Hr [_ Hscript]]. split; [done|].
        destruct (patch_sequence_correct la (kept K P) (patched K P)) with (b := lb) (s := d)
          as (out & Hout & Hall).
        -- by intros x y [? _].
        -- intros k x y cd (_ & _ & _ & HP). exact HP.
        -- exact Hscript.
        -- apply Forall_forall. intros y Hy. by apply py_eq_refl, Hwfb.
        -- exists (VList out). split.
           ++ unfold patch, patch_with. by rewrite Hout.
           ++ by apply py_eq_list.
    + (* mappings *)
      apply wf_value_dict in Hwfa as [Hnda Hwfa], Hwfb as [Hndb Hwfb].
      rewrite Forall_forall in Hwfa, Hwfb.
      set (P := fun (x y : Value) (cd : Diff) => replays x cd y).
      eapply hoare_weaken;
        [eapply (diff_dicts_spec env _ _ default_like conflict_or_malformed False
                   da db path P)
        |done| |done|done].
      * intros key x y Hx Hy Hrec. rewrite differs_get_default.
        apply dict_get_Some_elem_of in Hx, Hy.
        apply IH; [by apply recursed_same_kind|apply (Hwfa _ Hx)|apply (Hwfb _ Hy)|].
        pose proof (depth_dict_elem _ _ _ Hx). lia.
      * intros. left. by eexists.
      * intros. by right.
      * intros d r [Hr Hpost]. split; [done|].
        apply (patch_mapping_correct da db P d Hnda Hndb); [|done|done].
        intros k v Hv. apply py_eq_refl.
        apply (Hwfb (k, v)). by apply dict_get_Some_elem_of.
  - intros d. destruct (validate_diff env d).
    + by apply hoare_ret.
    + apply hoare_raise. by right.
Qed.

End RoundTrip.


(** ** Diffs that the validator of the specification accepts *)

Lemma keys_ordered_spec ks : forall p,
  Reference.keys_ordered p (map KIdx ks) = true <->
  Forall (le p) ks /\ StronglySorted le ks.
Proof.
  induction ks as [|k ks IH]; intros p; simpl.
  - split; [by split; constructor|done].
  - rewrite andb_true_iff, Nat.leb_le, IH, StronglySorted_cons, Forall_cons. split.
    + intros (Hp & Hall & Hs). repeat split; try done.
      eapply Forall_impl; [exact Hall|]. intros q Hq. simpl in Hq. lia.
    + intros [[Hp _] [Hall Hs]]. done.
Qed.

Lemma keys_ordered_index ks : forall p,
  Reference.keys_ordered p ks = true -> exists ns, ks = map KIdx ns.
Proof.
  induction ks as [|[k|s] ks IH]; intros p H; simpl in H.
  - by exists [].
  - apply andb_true_iff in H as [_ H]. destruct (IH _ H) as [ns ->]. by exists (k :: ns).
  - done.
Qed.

Lemma entry_valid_shallow e : is_patch e = false -> Reference.entry_valid e = true.
Proof. by destruct e. Qed.

Lemma entry_valid_Patch k dd :
  dd <> [] -> Reference.validate dd = true -> Reference.entry_valid (Patch k dd) = true.
Proof.
  intros Hne Hv. unfold Reference.validate in Hv. destruct dd as [|e dd]; [done|].
  cbn [Reference.entry_valid]. exact Hv.
Qed.

Lemma validate_sequence d ns :
  map entry_key d = map KIdx ns -> StronglySorted le ns ->
  forallb Reference.entry_valid d = true ->
  Reference.validate d = true.
Proof.
  intros Hk Hs Hv. unfold Reference.validate, Reference.keys_valid. rewrite Hk, Hv.
  assert (Reference.keys_ordered 0 (map KIdx ns) = true) as ->; [|done].
  apply keys_ordered_spec. split; [|done]. apply Forall_forall. intros; lia.
Qed.

Lemma validate_shallow s :
  Reference.keys_ordered 0 (map entry_key s) = true ->
  Forall (fun e => is_patch e = false) s ->
  Reference.validate s = true.
Proof.
  intros Hk Hs. unfold Reference.validate, Reference.keys_valid. rewrite Hk. simpl.
  apply forallb_Forall_true. eapply Forall_impl; [exact Hs|].
  intros e. apply entry_valid_shallow.
Qed.

(** The entries that [diff_lists] builds are in the order of their
    keys when the shallow diff is: a patch is placed before the entry
    whose key it precedes. *)
Section SequenceKeys.

Context (diffit : Differ) (subpath : string) (a b : list Value).

Hypothesis diffit_valid : forall x y r cd r',
  diffit x y subpath r = Ret (cd, r') -> Reference.validate cd = true.

Lemma diff_items_keys i j n : forall k di r di' r',
  diff_items diffit subpath a b i j k n di r = Ret (di', r') ->
  exists ps ns,
    di' = di ++ ps /\ map entry_key ps = map KIdx ns /\ StronglySorted le ns /\
    Forall (fun q => i + k <= q < i + k + n) ns /\
    forallb Reference.entry_valid ps = true.
Proof.
  induction n as [|n IH]; intros k di r di' r' Hrun; cbn [diff_items] in Hrun.
  - apply ret_Ret_inv in Hrun as [<- _]. exists [], []. rewrite app_nil_r.
    repeat split; constructor.
  - apply bind_Ret_inv in Hrun as (x & r1 & _ & Hrun).
    apply bind_Ret_inv in Hrun as (y & r2 & _ & Hrun).
    apply bind_Ret_inv in Hrun as (di1 & r3 & Hstep & Hrun).
    destruct (IH _ _ _ _ _ Hrun) as (ps & ns & -> & Hk & Hs & Hrange & Hv).
    assert (Hrange' : Forall (fun q => i + k <= q < i + k + S n) ns).
    { eapply Forall_impl; [exact Hrange|]. intros q Hq. simpl in Hq. lia. }
    assert (Hsame : di1 = di ->
      exists ps0 ns0,
        di1 ++ ps = di ++ ps0 /\ map entry_key ps0 = map KIdx ns0 /\
        StronglySorted le ns0 /\ Forall (fun q => i + k <= q < i + k + S n) ns0 /\
        forallb Reference.entry_valid ps0 = true).
    { intros ->. by exists ps, ns. }
    destruct (negb (is_atomic x)).
    + apply bind_Ret_inv in Hstep as (cd & r4 & Hcd & Hret).
      apply ret_Ret_inv in Hret as [<- _].
      destruct cd as [|e cd]; [by apply Hsame|].
      exists (Patch (KIdx (i + k)) (e :: cd) :: ps), (i + k :: ns).
      split; [by rewrite <- app_assoc|]. split; [by simpl; rewrite Hk|].
      split; [|split].
      * apply StronglySorted_cons. split; [|done].
        eapply Forall_impl; [exact Hrange|]. intros q Hq. simpl in Hq. lia.
      * constructor; [lia|done].
      * cbn [forallb]. rewrite Hv, andb_true_r.
        apply entry_valid_Patch; [done|]. by eapply diffit_valid.
    + apply ret_Ret_inv in Hstep as [<- _]. by apply Hsame.
Qed.

Lemma diff_lists_loop_keys shallow : forall sks i j di ks r res r',
  diff_lists_loop diffit subpath a b shallow i j di r = Ret (res, r') ->
  map entry_key shallow = map KIdx sks -> StronglySorted le sks ->
  Forall (fun e => is_patch e = false) shallow ->
  map entry_key di = map KIdx ks -> StronglySorted le ks ->
  Forall (fun q => q <= i) ks ->
  Forall (fun q => Forall (le q) sks) ks ->
  forallb Reference.entry_valid di = true ->
  exists ns,
    map entry_key res.2 = map KIdx ns /\ StronglySorted le ns /\
    forallb Reference.entry_valid res.2 = true.
Proof.
  induction shallow as [|e rest IH];
    intros sks i j di ks r res r' Hrun Hsk Hss Hnp Hdk Hds Hbound Hnext Hv;
    cbn [diff_lists_loop] in Hrun.
  - apply bind_Ret_inv in Hrun as (u1 & r1 & _ & Hrun).
    apply bind_Ret_inv in Hrun as (u2 & r2 & _ & Hrun).
    apply bind_Ret_inv in Hrun as (di1 & r3 & Hitems & Hret).
    apply ret_Ret_inv in Hret as [<- _]. simpl.
    destruct (diff_items_keys _ _ _ _ _ _ _ _ Hitems)
      as (ps & ns & -> & Hk & Hs & Hrange & Hpv).
    exists (ks ++ ns). split; [by rewrite !map_app, Hdk, Hk|]. split.
    + apply StronglySorted_app. split; [|done].
      intros q1 q2 H1 H2. rewrite Forall_forall in Hbound, Hrange.
      specialize (Hbound _ H1). specialize (Hrange _ H2). simpl in Hrange. lia.
    + by rewrite forallb_app, Hv, Hpv.
  - destruct sks as [|index sks]; [done|]. simpl in Hsk.
    injection Hsk as Hkey Hsk.
    apply StronglySorted_cons in Hss as [Hle Hss].
    apply Forall_cons in Hnp as [He Hnp].
    apply bind_Ret_inv in Hrun as (index' & r1 & Hindex & Hrun).
    unfold sequence_index in Hindex. rewrite Hkey in Hindex.
    apply ret_Ret_inv in Hindex as [<- _].
    destruct (count_consumed_symbols e) as [askip bskip].
    apply bind_Ret_inv in Hrun as (di1 & r2 & Hitems & Hrun).
    destruct (diff_items_keys _ _ _ _ _ _ _ _ Hitems)
      as (ps & ns & -> & Hk & Hs & Hrange & Hpv).
    rewrite Forall_forall in Hbound, Hrange, Hnext, Hle.
    assert (Hps : forall q, q ∈ ns -> i <= q /\ q < index).
    { intros q Hq. specialize (Hrange _ Hq). simpl in Hrange. lia. }
    assert (Hks : forall q, q ∈ ks -> q <= index).
    { intros q Hq. specialize (Hnext _ Hq). by apply Forall_cons in Hnext as [? _]. }
    eapply (IH sks _ _ _ ((ks ++ ns) ++ [index]) _ _ _ Hrun Hsk Hss Hnp).
    + rewrite !map_app, Hdk, Hk. simpl. by rewrite Hkey.
    + apply StronglySorted_app. split; [|split].
      * intros q1 q2 H1 H2. apply list_elem_of_singleton in H2 as ->.
        apply elem_of_app in H1 as [H1|H1]; [by apply Hks|]. apply Hps in H1. lia.
      * apply StronglySorted_app. split; [|done].
        intros q1 q2 H1 H2. specialize (Hbound _ H1). apply Hps in H2. lia.
      * repeat constructor.
    + apply Forall_forall. intros q Hq.
      apply elem_of_app in Hq as [Hq|Hq]; [apply elem_of_app in Hq as [Hq|Hq]|].
      * specialize (Hbound _ Hq). lia.
      * specialize (Hrange _ Hq). simpl in Hrange. lia.
      * apply list_elem_of_singleton in Hq as ->. lia.
    + apply Forall_forall. intros q Hq. apply Forall_forall. intros q' Hq'.
      specialize (Hle _ Hq').
      apply elem_of_app in Hq as [Hq|Hq]; [apply elem_of_app in Hq as [Hq|Hq]|].
      * apply Hks in Hq. lia.
      * apply Hps in Hq. lia.
      * apply list_elem_of_singleton in Hq as ->. done.
    + rewrite !forallb_app, Hv, Hpv. simpl. by rewrite entry_valid_shallow.
Qed.

End SequenceKeys.

(** The entries that [diff_dicts] builds have distinct string keys. *)
Lemma dict_post_valid a b d :
  dict_post a b (fun _ _ dd => Reference.validate dd = true) d ->
  Reference.validate d = true.
Proof.
  intros Hpost. unfold Reference.validate, Reference.keys_valid.
  apply andb_true_iff. split.
  - apply orb_true_iff. right. apply andb_true_iff. split.
    + apply forallb_Forall_true, Forall_fmap, Forall_forall. intros e He. simpl.
      destruct (dict_post_elem _ _ _ _ _ Hpost He)
        as [(key & -> & _)|[(key & es & Hes & Hin)|(key & v & -> & _)]]; [done| |done].
      by rewrite (common_entry_key _ _ _ _ _ _ Hes Hin).
    + apply bool_decide_eq_true. by eapply dict_post_NoDup.
  - apply forallb_Forall_true, Forall_forall. intros e He.
    destruct (dict_post_elem _ _ _ _ _ Hpost He)
      as [(key & -> & _)|[(key & es & Hes & Hin)|(key & v & -> & _)]]; [done| |done].
    destruct Hes as (x & y & _ & _ & [[_ [[-> _]|(dd & Hne & Hv & ->)]]|[_ [[-> _]|[-> _]]]]).
    + by apply elem_of_nil in Hin.
    + apply list_elem_of_singleton in Hin as ->. by apply entry_valid_Patch.
    + by apply elem_of_nil in Hin.
    + by apply list_elem_of_singleton in Hin as ->.
Qed.

(** Whatever [diff] returns has passed its own validation. *)
Lemma diff_Ret_validated env fuel differs a b path r d r' :
  diff env fuel differs a b path r = Ret (d, r') -> validate_diff env d = true.
Proof.
  destruct fuel as [|fuel]; [done|]. cbn [diff]. intros Hrun.
  apply bind_Ret_inv in Hrun as (d0 & r1 & _ & Hrun).
  destruct (validate_diff env d0) eqn:Hv; [|done].
  by apply ret_Ret_inv in Hrun as [<- _].
Qed.

(** ** Documents on which [diff] produces a diff *)

Lemma kinds_agree_dict da db key x y :
  kinds_agree (VDict da) (VDict db) = true ->
  dict_get key da = Some x -> dict_get key db = Some y ->
  recursed x y = true /\ kinds_agree x y = true.
Proof.
  intros Hagree Hx Hy. cbn [kinds_agree] in Hagree.
  rewrite forallb_Forall_true, Forall_forall in Hagree.
  specialize (Hagree (key, x) (dict_get_Some_elem_of _ _ _ Hx)). simpl in Hagree.
  rewrite Hy in Hagree. by apply andb_true_iff in Hagree.
Qed.

Lemma py_eq_kinds_agree x : forall y,
  text_only x = true -> py_eq x y = true -> kinds_agree x y = true.
Proof.
  induction x as [ |bx|n|s|xs _|items IH] using Value_nested_ind; intros y Htext Heq;
    try by destruct y.
  destruct y as [ | | | | |items']; try done.
  apply py_eq_dict in Heq as [_ Hall]. apply text_only_dict in Htext.
  cbn [kinds_agree]. apply forallb_Forall_true, Forall_forall. intros [k v] Hin.
  rewrite Forall_forall in Hall, Htext, IH.
  destruct (Hall _ Hin) as (w & Hw & Hvw). simpl in Hw, Hvw. simpl. rewrite Hw.
  specialize (Htext _ Hin). simpl in Htext.
  apply andb_true_iff. split.
  - apply same_kind_recursed, py_eq_same_kind; [done|]. by apply text_only_not_atomic.
  - by apply (IH _ Hin).
Qed.

Section Produces.

Context (env : Collaborators).

Hypothesis bruteforce_aligned : forall a b,
  aligned OpEq 0 a b (diff_sequence_bruteforce env a b OpEq).

Hypothesis difflib_aligned : forall a b,
  aligned OpEq 0 a b (diff_sequence_difflib env a b).

Hypothesis bruteforce_ordered : forall a b,
  Reference.keys_ordered 0 (map entry_key (diff_sequence_bruteforce env a b OpEq)) = true.

Hypothesis difflib_ordered : forall a b,
  Reference.keys_ordered 0 (map entry_key (diff_sequence_difflib env a b)) = true.

Hypothesis validator_spec : forall d, validate_diff env d = Reference.validate d.

Lemma diff_produces fuel : forall a b path,
  same_kind a b = true -> kinds_agree a b = true -> text_only a = true ->
  depth a <= fuel ->
  hoare default_like (diff env fuel default_differs a b path)
    (fun _ r => default_like r) (fun _ => False) False.
Proof.
  induction fuel as [|fuel IH]; intros a b path Hkind Hagree Htext Hdepth.
  { pose proof (depth_pos a). lia. }
  cbn [diff].
  assert (Hself : forall x y subpath,
    same_kind x y = true -> kinds_agree x y = true -> text_only x = true ->
    depth x <= fuel ->
    hoare default_like
      (differs_get default_differs subpath (diff env fuel default_differs) x y subpath)
      (fun cd r => default_like r /\ Reference.validate cd = true) (fun _ => False) False).
  { intros x y subpath Hk Ha Ht Hd r0 Hr0. rewrite differs_get_default.
    pose proof (IH x y subpath Hk Ha Ht Hd r0 Hr0) as H.
    destruct (diff env fuel default_differs x y subpath r0) as [[cd r1]| |] eqn:Hrun;
      [|done..].
    split; [done|]. rewrite <- validator_spec. by eapply diff_Ret_validated. }
  eapply (hoare_bind _ _ _ (fun d r => default_like r /\ validate_diff env d = true)).
  - destruct a as [ | | |sa|la|da], b as [ | | |sb|lb|db]; try done.
    + (* text *)
      apply hoare_ret. intros r Hr. split; [done|].
      rewrite validator_spec. apply validate_shallow; [apply difflib_ordered|].
      eapply script_no_patch; [apply difflib_aligned|]. intros ? ? ? [].
    + (* sequences *)
      apply text_only_list in Htext. rewrite Forall_forall in Htext.
      intros r Hr. destruct (default_like_getitem path r Hr) as (r1 & Hg & Hr1).
      rewrite (diff_lists_unfold env _ _ la lb path OpEq r r1 Hg).
      set (K := fun x y : Value => py_eq x y = true).
      set (P := fun (_ _ : Value) (cd : Diff) => Reference.validate cd = true).
      assert (Hrec : forall x y, x ∈ la -> y ∈ lb -> K x y -> is_atomic x = false ->
        hoare default_like
          (differs_get default_differs (join_path path "*")
             (diff env fuel default_differs) x y (join_path path "*"))
          (fun cd r0 => default_like r0 /\ P x y cd) (fun _ => False) False).
      { intros x y Hx _ Hxy Hna. apply Hself.
        - by apply py_eq_same_kind.
        - apply py_eq_kinds_agree; [by apply Htext|done].
        - by apply Htext.
        - pose proof (depth_list_elem x la Hx). lia. }
      pose proof (diff_lists_loop_complete _ _ la lb K P default_like
                    (fun _ => False) False Hrec _ (bruteforce_aligned la lb) r1 Hr1)
        as Hloop.
      unfold bind at 1.
      destruct (diff_lists_loop _ _ la lb _ 0 0 [] r1) as [[[[i j] di] r2]| |] eqn:Hrun;
        [|done..].
      destruct Hloop as (Hr2 & -> & -> & _).
      simpl. unfold bind. rewrite !py_assert_true by apply Nat.eqb_refl.
      assert (Hvalid : Reference.validate di = true).
      { destruct (keys_ordered_index _ _ (bruteforce_ordered la lb)) as [sks Hsks].
        pose proof (bruteforce_ordered la lb) as Hord. rewrite Hsks in Hord.
        apply keys_ordered_spec in Hord as [_ Hsorted].
        assert (Hdv : forall x y r0 cd r3,
          differs_get default_differs (join_path path "*")
            (diff env fuel default_differs) x y (join_path path "*") r0 = Ret (cd, r3) ->
          Reference.validate cd = true).
        { intros x y r0 cd r3 Hd. rewrite differs_get_default in Hd.
          rewrite <- validator_spec. by eapply diff_Ret_validated. }
        assert (Hnp : Forall (fun e => is_patch e = false)
                        (diff_sequence_bruteforce env la lb OpEq)).
        { eapply script_no_patch; [apply bruteforce_aligned|]. intros ? ? ? []. }
        destruct (diff_lists_loop_keys _ _ la lb Hdv _ sks 0 0 [] [] r1 _ r2 Hrun
                    Hsks Hsorted Hnp eq_refl ltac:(constructor) ltac:(constructor)
                    ltac:(constructor) eq_refl) as (ns & Hk & Hs & Hv).
        by eapply validate_sequence. }
      unfold sequence_validated. destruct di as [|e di].
      * simpl. split; [done|]. by rewrite validator_spec.
      * rewrite validator_spec, Hvalid. simpl. split; [done|].
        by rewrite validator_spec.
    + (* mappings *)
      apply text_only_dict in Htext. rewrite Forall_forall in Htext.
      eapply hoare_weaken;
        [eapply (diff_dicts_spec env _ _ default_like (fun _ => False) False
                   da db path (fun _ _ dd => Reference.validate dd = true))
        |done| |done|done].
      * intros key x y Hx Hy _.
        destruct (kinds_agree_dict _ _ _ _ _ Hagree Hx Hy) as [Hrec Hxy].
        apply dict_get_Some_elem_of in Hx.
        apply Hself; [by apply recursed_same_kind|done|apply (Htext _ Hx)|].
        pose proof (depth_dict_elem _ _ _ Hx). lia.
      * intros key x y Hx Hy Hplain.
        destruct (kinds_agree_dict _ _ _ _ _ Hagree Hx Hy) as [Hrec _]. congruence.
      * intros d Hpost _ Hv. rewrite validator_spec, (dict_post_valid _ _ _ Hpost) in Hv.
        done.
      * intros d r [Hr Hpost]. split; [done|].
        rewrite validator_spec. by eapply dict_post_valid.
  - intros d r [Hr Hv]. rewrite Hv. done.
Qed.

End Produces.

(** The exhaustive aligner of the reference instance emits its entries
    in the order of their keys. *)
Lemma exhaustive_script_ordered df c a : forall i b,
  Reference.keys_ordered i (map entry_key (Reference.exhaustive_script df c a i b)) = true.
Proof.
  assert (Hweaken : forall ks p q,
    p <= q -> Reference.keys_ordered q ks = true -> Reference.keys_ordered p ks = true).
  { intros [|[k|s] ks] p q Hpq; simpl; [done| |done].
    rewrite !andb_true_iff, !Nat.leb_le. intros [? ?]. split; [lia|done]. }
  induction a as [|x a' IHa]; intros i b.
  - induction b as [|y b' IHb]; simpl; [done|].
    rewrite Nat.leb_refl. exact IHb.
  - induction b as [|y b' IHb]; rewrite exhaustive_script_unfold.
    + simpl. rewrite Nat.leb_refl. simpl. apply (Hweaken _ i (S i)); [lia|apply IHa].
    + destruct (apply_compare c x y).
      * apply (Hweaken _ i (S i)); [lia|apply IHa].
      * cbv zeta. destruct (if df then _ else _); simpl; rewrite Nat.leb_refl; simpl.
        -- apply (Hweaken _ i (S i)); [lia|apply IHa].
        -- exact IHb.
Qed.

(** ** Round trip *)

(** The lookup [predicates[path]] of [diff_lists] stores the default at
    [path]; a later [diff_dicts] at a path spelled the same (here
    ["/a/b"], reached through the keys ["a"], ["b"] and through the key
    ["a/b"]) then finds a predicate registered and raises. *)
Example diff_conflict_by_path_collision :
  run_from default_predicates
    (diff Reference.env 4 default_differs
       (VDict [("a", VDict [("b", VList [])]); ("a/b", VDict [("k", VStr "s")])])
       (VDict [("a", VDict [("b", VList [])]); ("a/b", VDict [("k", VList [])])]) "")
  = Raise (PredicateConflict "/a/b").
Proof. vm_compute. reflexivity. Qed.

(** C1: for documents [a] and [b] composed only of sequences, mappings
    and text, replaying the diff that [diff(a, b)] produces on [a]
    gives a document equal ([==]) to [b].  The recursion needs no more
    fuel than the depth of [a].  And a diff is produced whenever [a]
    and [b] are of the same kind and their mappings hold values of the
    same kind under every common key, with the validator of the
    specification and aligners that emit their entries in the order of
    their keys.  The aligners are assumed to meet the contract of a
    shallow edit script. *)
Theorem diff_round_trip env a b fuel
    (bruteforce_aligned : forall a b,
       aligned OpEq 0 a b (diff_sequence_bruteforce env a b OpEq))
    (difflib_aligned : forall a b,
       aligned OpEq 0 a b (diff_sequence_difflib env a b)) :
  text_only a = true -> text_only b = true ->
  wf_value a = true -> wf_value b = true ->
  depth a <= fuel ->
  let run := run_from default_predicates (diff env fuel default_differs a b "") in
  (forall d, run = Ret d -> exists b', patch a d = Some b' /\ py_eq b' b = true) /\
  run <> OutOfFuel /\
  (same_kind a b = true -> kinds_agree a b = true ->
   (forall a b,
      Reference.keys_ordered 0
        (map entry_key (diff_sequence_bruteforce env a b OpEq)) = true) ->
   (forall a b,
      Reference.keys_ordered 0 (map entry_key (diff_sequence_difflib env a b)) = true) ->
   (forall d, validate_diff env d = Reference.validate d) ->
   exists d b', run = Ret d /\ patch a d = Some b' /\ py_eq b' b = true).
Proof.
  intros Hta _ Hwfa Hwfb Hdepth run.
  assert (Hrun : match run with
                 | Ret d => exists b', patch a d = Some b' /\ py_eq b' b = true
                 | Raise _ => True
                 | OutOfFuel => False
                 end).
  { unfold run, run_from. destruct (same_kind a b) eqn:Hkind.
    - pose proof (diff_replays env bruteforce_aligned difflib_aligned fuel a b ""
                    Hkind Hwfa Hwfb Hdepth default_predicates default_like_empty) as H.
      destruct (diff env fuel default_differs a b "" default_predicates)
        as [[d r]| |]; [|done..].
      by destruct H.
    - destruct fuel as [|fuel]; [pose proof (depth_pos a); lia|].
      by rewrite diff_kind_mismatch. }
  split; [|split].
  - intros d Hd. by rewrite Hd in Hrun.
  - intros Hd. by rewrite Hd in Hrun.
  - intros Hkind Hagree Hbo Hdo Hvs.
    pose proof (diff_produces env bruteforce_aligned difflib_aligned Hbo Hdo Hvs
                  fuel a b "" Hkind Hagree Hta Hdepth default_predicates
                  default_like_empty) as H.
    assert (Hret : exists d, run = Ret d).
    { unfold run, run_from.
      destruct (diff env fuel default_differs a b "" default_predicates)
        as [[d r]| |]; [|done..].
      by exists d. }
    destruct Hret as [d Hd]. rewrite Hd in Hrun.
    destruct Hrun as (b' & Hpatch & Heq). by exists d, b'.
Qed.

Lemma diff_round_trip_witness :
  let a := VDict [("cells", VList [VStr "x = 1"; VStr "y"]); ("meta", VStr "m")] in
  let b := VDict [("extra", VStr "e");
                  ("cells", VList [VStr "x = 2"; VStr "z"; VStr "y"])] in
  exists d b',
    run_from default_predicates (diff Reference.env 3 default_differs a b "") = Ret d /\
    patch a d = Some b' /\ py_eq b' b = true.
Proof.
  intros a b.
  pose proof (diff_round_trip Reference.env a b 3
                (fun a b => exhaustive_script_aligned true OpEq a 0 b)
                (fun a b => exhaustive_script_aligned true OpEq a 0 b)
                eq_refl eq_refl eq_refl eq_refl) as H.
  specialize (H ltac:(vm_compute; lia)).
  destruct H as (_ & _ & Hproduced).
  apply Hproduced.
  - reflexivity.
  - reflexivity.
  - intros la lb. apply (exhaustive_script_ordered true OpEq la 0 lb).
  - intros la lb. apply (exhaustive_script_ordered true OpEq la 0 lb).
  - intros d. reflexivity.
Defined.

(** * Further properties of the differ *)

(** ** [diff_lists] on any shallow diff *)

(** X1: whenever the loop of [diff_lists] finishes, the cursors are
    [len(a)] and [len(b)], for every shallow diff (computed or supplied
    by the caller) and every recursive differ: the last round has
    already asserted it, so the two asserts after the loop cannot
    fail. *)
Theorem diff_lists_loop_cursors diffit subpath a b shallow :
  forall i j di r i' j' di' r',
    diff_lists_loop diffit subpath a b shallow i j di r = Ret ((i', j', di'), r') ->
    i' = length a /\ j' = length b.
Proof.
  induction shallow as [|e rest IH]; intros i j di r i' j' di' r' Hrun;
    cbn [diff_lists_loop] in Hrun.
  - apply bind_Ret_inv in Hrun as (u1 & r1 & Ha1 & Hrun).
    apply py_assert_Ret_inv in Ha1 as [Hn ->].
    apply bind_Ret_inv in Hrun as (u2 & r2 & Ha2 & Hrun).
    apply py_assert_Ret_inv in Ha2 as [Hm ->].
    apply bind_Ret_inv in Hrun as (di1 & r3 & _ & Hret).
    injection Hret as <- <- _ _. lia.
  - apply bind_Ret_inv in Hrun as (index & r1 & _ & Hrun).
    destruct (count_consumed_symbols e) as [askip bskip].
    apply bind_Ret_inv in Hrun as (di1 & r2 & _ & Hrun).
    by eapply IH.
Qed.

Lemma diff_lists_loop_cursors_witness :
  2 = length [num 1; num 2] /\ 1 = length [num 1].
Proof.
  eapply (diff_lists_loop_cursors (fun _ _ _ => raise IndexError) "/*"
            [num 1; num 2] [num 1] [Remove (KIdx 1)] 0 0 [] default_predicates
            2 1 _ default_predicates).
  vm_compute. reflexivity.
Defined.

(** The inner loop on a position outside of a sequence. *)
Lemma diff_items_index_error diffit subpath a b i j n : forall k di r,
  (forall x y r0, x ∈ a -> y ∈ b -> exists cd r1, diffit x y subpath r0 = Ret (cd, r1)) ->
  (exists t, t < n /\ (a !! (i + k + t) = None \/ b !! (j + k + t) = None)) ->
  diff_items diffit subpath a b i j k n di r = Raise IndexError.
Proof.
  induction n as [|n IH]; intros k di r Hret (t & Ht & Hout); [lia|].
  cbn [diff_items]. unfold bind at 1. unfold getitem at 1.
  destruct (a !! (i + k)) as [x|] eqn:Hx; [|done]. simpl.
  unfold bind at 1. unfold getitem at 1.
  destruct (b !! (j + k)) as [y|] eqn:Hy; [|done]. simpl.
  assert (Hrest : exists t', t' < n /\
            (a !! (i + S k + t') = None \/ b !! (j + S k + t') = None)).
  { destruct t as [|t].
    - rewrite !Nat.add_0_r in Hout. destruct Hout; congruence.
    - exists t. split; [lia|].
      by replace (i + S k + t) with (i + k + S t) by lia;
         replace (j + S k + t) with (j + k + S t) by lia. }
  unfold bind at 1. destruct (negb (is_atomic x)).
  - unfold bind at 1.
    destruct (Hret x y r) as (cd & r1 & ->); [by eapply list_elem_of_lookup_2..|].
    simpl. by apply IH.
  - simpl. by apply IH.
Qed.

(** X2: a supplied shallow diff whose first key lies beyond the end of
    [a] or of [b] makes [diff_lists] raise [IndexError] (the items
    before that key are read one by one), provided the recursive differ
    returns on the items read before. *)
Theorem diff_lists_loop_key_out_of_range diffit subpath a b e rest k di r :
  entry_key e = KIdx k ->
  length a < k \/ length b < k ->
  (forall x y r0, x ∈ a -> y ∈ b -> exists cd r1, diffit x y subpath r0 = Ret (cd, r1)) ->
  diff_lists_loop diffit subpath a b (e :: rest) 0 0 di r = Raise IndexError.
Proof.
  intros Hkey Hout Hret. cbn [diff_lists_loop]. unfold sequence_index. rewrite Hkey.
  unfold bind at 1. simpl. destruct (count_consumed_symbols e) as [askip bskip].
  unfold bind at 1. rewrite Nat.sub_0_r.
  rewrite (diff_items_index_error diffit subpath a b 0 0 k 0 di r Hret); [done|].
  destruct Hout as [Ha|Hb].
  - exists (length a). split; [lia|]. left. simpl. apply lookup_ge_None. lia.
  - exists (length b). split; [lia|]. right. simpl. apply lookup_ge_None. lia.
Qed.

Lemma diff_lists_loop_key_out_of_range_witness :
  diff_lists_loop (diff Reference.env 1 default_differs) "/*"
    [VStr "a"] [VStr "a"] [Remove (KIdx 2)] 0 0 [] default_predicates
  = Raise IndexError.
Proof.
  apply (diff_lists_loop_key_out_of_range _ "/*" [VStr "a"] [VStr "a"]
           (Remove (KIdx 2)) [] 2 [] default_predicates eq_refl).
  - left. simpl. lia.
  - intros x y r0 ->%list_elem_of_singleton ->%list_elem_of_singleton.
    exists [], r0. reflexivity.
Defined.

(** X3: what [diff_lists] does with the tuple registered at its path:
    with several predicates a supplied shallow diff is refused by the
    assert of the multilevel branch, and with an empty tuple the lookup
    [compares[0]] raises [IndexError]. *)
Theorem diff_lists_registered_tuple env diff differs a b path cs (r : Registry) :
  r !! path = Some cs ->
  (1 < length cs ->
   forall s, diff_lists env diff differs a b path (Some s) r = Raise AssertionError) /\
  (cs = [] -> diff_lists env diff differs a b path None r = Raise IndexError).
Proof.
  intros Hcs. split.
  - intros Hlen s. unfold diff_lists, bind at 1, predicates_getitem. rewrite Hcs.
    apply Nat.ltb_lt in Hlen. rewrite Hlen. done.
  - intros ->. unfold diff_lists, bind at 1, predicates_getitem. rewrite Hcs. done.
Qed.

Lemma diff_lists_registered_tuple_witness :
  let r : Registry := {[ "" := [OpEq; Custom (fun _ _ => true)] ]} in
  diff_lists Reference.env (diff Reference.env 1 default_differs) default_differs
    [num 1] [num 1] "" (Some []) r = Raise AssertionError.
Proof.
  intros r.
  refine (proj1 (diff_lists_registered_tuple Reference.env _ default_differs
                   [num 1] [num 1] "" [OpEq; Custom (fun _ _ => true)] r _) _ []).
  - reflexivity.
  - simpl. lia.
Defined.

(** ** The [Patch] entries of [diff_lists] *)

Lemma script_patch_elem K P i a b d key cd :
  script K P i a b d -> Patch key cd ∈ d ->
  exists k x y j, key = KIdx k /\ i <= k /\ a !! (k - i) = Some x /\
    b !! j = Some y /\ P x y cd.
Proof.
  induction 1 as [i ar br Hall | i k x y ar br e s HK Hkey Hlt Hs IH
                  | i x ar br s Hs IH | i k y ar br s Hle Hs IH
                  | i x y ar br s Hs IH | i x y cd' ar br s HP Hs IH]; intros Hin.
  - by apply elem_of_nil in Hin.
  - destruct (IH Hin) as (k' & x' & y' & j & -> & Hk' & Ha & Hb & HP).
    exists k', x', y', (S j). split; [done|]. split; [lia|].
    split; [|done]. by replace (k' - i) with (S (k' - S i)) by lia.
  - apply elem_of_cons in Hin as [?|Hin]; [done|].
    destruct (IH Hin) as (k' & x' & y' & j & -> & Hk' & Ha & Hb & HP).
    exists k', x', y', j. split; [done|]. split; [lia|].
    split; [|done]. by replace (k' - i) with (S (k' - S i)) by lia.
  - apply elem_of_cons in Hin as [?|Hin]; [done|].
    destruct (IH Hin) as (k' & x' & y' & j & -> & Hk' & Ha & Hb & HP).
    exists k', x', y', (S j). done.
  - apply elem_of_cons in Hin as [?|Hin]; [done|].
    destruct (IH Hin) as (k' & x' & y' & j & -> & Hk' & Ha & Hb & HP).
    exists k', x', y', (S j). split; [done|]. split; [lia|].
    split; [|done]. by replace (k' - i) with (S (k' - S i)) by lia.
  - apply elem_of_cons in Hin as [Heq|Hin].
    + injection Heq as -> ->. exists i, x, y, 0. split; [done|]. split; [lia|].
      by rewrite Nat.sub_diag.
    + destruct (IH Hin) as (k' & x' & y' & j & -> & Hk' & Ha & Hb & HP').
      exists k', x', y', (S j). split; [done|]. split; [lia|].
      split; [|done]. by replace (k' - i) with (S (k' - S i)) by lia.
Qed.

(** X4: every [Patch] that [diff_lists] returns sits at an index of [a]
    whose element is not atomic, pairs it with an element of [b] that
    the registered predicate accepts, and carries a non-empty diff that
    the recursive differ returned for that pair. *)
Theorem diff_lists_patch_entries env diff differs a b path c r d r'
    (bruteforce_aligned : forall a b c,
       aligned c 0 a b (diff_sequence_bruteforce env a b c))
    (single_predicate : r !! path = Some [c] \/ (r !! path = None /\ c = OpEq)) :
  diff_lists env diff differs a b path None r = Ret (d, r') ->
  forall key cd, Patch key cd ∈ d ->
    cd <> [] /\
    exists k x y,
      key = KIdx k /\ a !! k = Some x /\ y ∈ b /\
      is_atomic x = false /\ apply_compare c x y = true /\
      exists r0 r1,
        differs_get differs (join_path path "*") diff x y (join_path path "*") r0
          = Ret (cd, r1).
Proof.
  intros Hrun key cd Hin.
  set (diffit := differs_get differs (join_path path "*") diff).
  set (K := fun x y => apply_compare c x y = true).
  set (P := fun x y cd => exists r0 r1,
              diffit x y (join_path path "*") r0 = Ret (cd, r1)).
  assert (H : hoare (fun r0 => r0 = r) (diff_lists env diff differs a b path None)
            (fun d _ => True /\ list_post a b K P (diff_sequence_bruteforce env a b c) d)
            (fun _ => True) True).
  { eapply (diff_lists_spec env diff differs (fun _ => True) (fun _ => True) True
              (fun r0 => r0 = r) a b path c K P).
    - intros r0 ->.
      destruct (single_predicate_getitem path c r single_predicate) as [r1 Hr1]. eauto.
    - apply bruteforce_aligned.
    - intros x y _ _ _ _ r0 _. fold diffit. unfold P.
      destruct (diffit x y (join_path path "*") r0) as [[cd0 r1]| |] eqn:Hd; eauto.
    - done. }
  specialize (H r eq_refl). rewrite Hrun in H. destruct H as [_ [_ Hscript]].
  destruct (script_patch_elem _ _ _ _ _ _ _ _ Hscript Hin)
    as (k & x & y & j & -> & _ & Ha & Hb & (HK & Hatom & Hne & HP)).
  split; [done|]. exists k, x, y. rewrite Nat.sub_0_r in Ha.
  repeat split; try done. by eapply list_elem_of_lookup_2.
Qed.

Lemma diff_lists_patch_entries_witness :
  let r : Registry := {[ "" := [Custom (fun _ _ => true)] ]} in
  exists d r',
    diff_lists Reference.env (diff Reference.env 1 default_differs) default_differs
      [VStr "ab"] [VStr "ac"] "" None r = Ret (d, r') /\
    exists cd, Patch (KIdx 0) cd ∈ d /\ cd <> [].
Proof.
  intros r.
  destruct (diff_lists Reference.env (diff Reference.env 1 default_differs)
              default_differs [VStr "ab"] [VStr "ac"] "" None r)
    as [[d r']| |] eqn:Hrun; [|vm_compute in Hrun; discriminate Hrun..].
  exists d, r'. split; [reflexivity|].
  pose proof (diff_lists_patch_entries Reference.env _ default_differs
                [VStr "ab"] [VStr "ac"] "" (Custom (fun _ _ => true)) r d r'
                (fun a b c => exhaustive_script_aligned true c a 0 b)
                (or_introl eq_refl) Hrun) as H.
  vm_compute in Hrun. injection Hrun as <- _.
  eexists. split; [left|]. eapply H. left.
Defined.

(** ** The entries of [diff_dicts] *)

(** X5: what a diff returned by [diff_dicts(a, b)] contains.  [Remove]
    exactly at the keys of [a] that [b] lacks; [Add] exactly at the keys
    of [b] that [a] lacks, with the value of [b]; [Replace] only at a
    common key whose values are compared plainly and are unequal, with
    the value of [b]; [Patch] only at a common key whose values are
    recursed into, with a non-empty diff. *)
Theorem diff_dicts_entries env diff differs a b path r d r' :
  diff_dicts env diff differs (VDict a) (VDict b) path r = Ret (d, r') ->
  (forall key, Remove (KStr key) ∈ d <->
     is_Some (dict_get key a) /\ dict_get key b = None) /\
  (forall key v, Add (KStr key) v ∈ d <->
     dict_get key a = None /\ dict_get key b = Some v) /\
  (forall key v, Replace (KStr key) v ∈ d ->
     exists x, dict_get key a = Some x /\ dict_get key b = Some v /\
       recursed x v = false /\ py_eq x v = false) /\
  (forall key dd, Patch (KStr key) dd ∈ d ->
     dd <> [] /\ exists x y, dict_get key a = Some x /\ dict_get key b = Some y /\
       recursed x y = true).
Proof.
  intros Hrun. apply diff_dicts_returns in Hrun.
  assert (Hcommon : forall e key es,
    common_entry a b (fun _ _ _ => True) key es -> e ∈ es ->
    exists x y, dict_get key a = Some x /\ dict_get key b = Some y /\
      ((exists dd, e = Patch (KStr key) dd /\ dd <> [] /\ recursed x y = true) \/
       (e = Replace (KStr key) y /\ recursed x y = false /\ py_eq x y = false))).
  { intros e key es (x & y & Hx & Hy & Hcases) He. exists x, y.
    do 2 (split; [done|]).
    destruct Hcases as [[Hrec [[-> _]|(dd & Hne & _ & ->)]]|[Hrec [[-> _]|[-> Hne]]]].
    - by apply elem_of_nil in He.
    - apply list_elem_of_singleton in He as ->. left. by exists dd.
    - by apply elem_of_nil in He.
    - apply list_elem_of_singleton in He as ->. by right. }
  split; [|split; [|split]].
  - intros key. split.
    + intros He.
      destruct (dict_post_elem _ _ _ _ _ Hrun He)
        as [(key' & Heq & Ha & Hb)|[(key' & es & Hes & Hin)|(key' & v & Heq & _)]].
      * by injection Heq as ->.
      * destruct (Hcommon _ _ _ Hes Hin) as (x & y & _ & _ & [(dd & ? & _)|[? _]]); done.
      * done.
    + intros [Ha Hb]. by eapply dict_post_remove.
  - intros key v. split.
    + intros He.
      destruct (dict_post_elem _ _ _ _ _ Hrun He)
        as [(key' & Heq & _)|[(key' & es & Hes & Hin)|(key' & v' & Heq & Ha & Hb)]].
      * done.
      * destruct (Hcommon _ _ _ Hes Hin) as (x & y & _ & _ & [(dd & ? & _)|[? _]]); done.
      * by injection Heq as -> ->.
    + intros [Ha Hb]. by eapply dict_post_add.
  - intros key v He.
    destruct (dict_post_elem _ _ _ _ _ Hrun He)
      as [(key' & Heq & _)|[(key' & es & Hes & Hin)|(key' & v' & Heq & _)]]; [done| |done].
    destruct (Hcommon _ _ _ Hes Hin) as (x & y & Hx & Hy & [(dd & ? & _)|(Heq & ? & ?)]);
      [done|].
    injection Heq as -> ->. by exists x.
  - intros key dd He.
    destruct (dict_post_elem _ _ _ _ _ Hrun He)
      as [(key' & Heq & _)|[(key' & es & Hes & Hin)|(key' & v' & Heq & _)]]; [done| |done].
    destruct (Hcommon _ _ _ Hes Hin) as (x & y & Hx & Hy & [(dd' & Heq & ? & ?)|(? & _)]);
      [|done].
    injection Heq as -> ->. split; [done|]. by exists x, y.
Qed.

Lemma diff_dicts_entries_witness :
  Remove (KStr "a") ∈ [Remove (KStr "a"); Add (KStr "c") (num 3)] <->
  is_Some (dict_get "a" [("a", num 1); ("b", num 2)]) /\
  dict_get "a" [("b", num 2); ("c", num 3)] = None.
Proof.
  refine (proj1 (diff_dicts_entries Reference.env
                   (diff Reference.env 1 default_differs) default_differs
                   [("a", num 1); ("b", num 2)] [("b", num 2); ("c", num 3)] ""
                   default_predicates _ default_predicates _) "a").
  vm_compute. reflexivity.
Defined.

(** ** Side effects on the shared registry *)

(** X6: [diff_lists] registers its own path: a path that is not in
    [predicates] before the call is there after it (the lookup
    [predicates[path]] on the defaultdict stores the default), provided
    the recursive differ leaves it registered. *)
Theorem diff_lists_registers_path env diff differs a b path shallow_diff
    (r : Registry) d r' :
  r !! path = None ->
  (forall x y r0 cd r1,
     differs_get differs (join_path path "*") diff x y (join_path path "*") r0
       = Ret (cd, r1) ->
     is_Some (r0 !! path) -> is_Some (r1 !! path)) ->
  diff_lists env diff differs a b path shallow_diff r = Ret (d, r') ->
  is_Some (r' !! path).
Proof.
  intros Hnone Hkeeps Hrun.
  set (I := fun r0 : Registry => is_Some (r0 !! path)).
  unfold diff_lists in Hrun.
  apply bind_Ret_inv in Hrun as (cs & r1 & Hget & Hrun).
  unfold predicates_getitem in Hget. rewrite Hnone in Hget.
  injection Hget as <- <-. cbn [length default_compares Nat.ltb Nat.leb] in Hrun.
  assert (Hrest : hoare I
    (let* shallow := match shallow_diff with
                     | Some s => ret s
                     | None => let* c := getitem default_compares 0
                               in diff_sequence env a b c
                     end
     in let* (i, j, di)
        := diff_lists_loop (differs_get differs (join_path path "*") diff)
             (join_path path "*") a b shallow 0 0 []
        in py_assert (i =? length a);;; py_assert (j =? length b);;;
           sequence_validated env di)
    (fun _ r0 => I r0) (fun _ => True) True).
  { apply keeps_bind.
    { destruct shallow_diff; [apply keeps_ret|].
      apply keeps_bind; [apply keeps_getitem|intros c; apply keeps_ret]. }
    intros shallow. apply keeps_bind.
    { apply keeps_diff_lists_loop. intros x y r0 Hr0.
      specialize (Hkeeps x y r0).
      destruct (differs_get differs _ diff x y _ r0) as [[cd r2]| |];
        [exact (Hkeeps _ _ eq_refl Hr0)|done|done]. }
    intros [[i j] di].
    apply keeps_bind; [apply keeps_assert|intros _].
    apply keeps_bind; [apply keeps_assert|intros _].
    apply keeps_sequence_validated. }
  specialize (Hrest (<[path := default_compares]> r)).
  rewrite Hrun in Hrest. apply Hrest. unfold I. by rewrite lookup_insert_eq.
Qed.

Lemma diff_lists_registers_path_witness :
  exists d r',
    diff_lists Reference.env (diff Reference.env 1 default_differs) default_differs
      [VStr "a"] [VStr "a"; VStr "b"] "/cells" None default_predicates = Ret (d, r') /\
    is_Some (r' !! "/cells").
Proof.
  destruct (diff_lists Reference.env (diff Reference.env 1 default_differs)
              default_differs [VStr "a"] [VStr "a"; VStr "b"] "/cells" None
              default_predicates) as [[d r']| |] eqn:Hrun;
    [|vm_compute in Hrun; discriminate Hrun..].
  exists d, r'. split; [reflexivity|].
  eapply (diff_lists_registers_path Reference.env _ default_differs _ _ "/cells" None
            default_predicates d r' eq_refl); [|exact Hrun].
  intros x y r0 cd r1 Hd Hr0. rewrite differs_get_default in Hd.
  pose proof (keeps_diff Reference.env (fun r : Registry => is_Some (r !! "/cells"))) as H.
  specialize (H ltac:(intros p r2 Hr2; destruct (decide (p = "/cells")) as [->|];
                      [by rewrite lookup_insert_eq|by rewrite lookup_insert_ne])
                ltac:(by intros) 1 x y (join_path "/cells" "*") r0 Hr0).
  by rewrite Hd in H.
Defined.

(** X7: [diff] with the default differs never unregisters a path:
    whatever is registered in [predicates] before the call is
    registered after it (the multilevel differ being assumed to do the
    same). *)
Theorem diff_keeps_registered env p fuel a b path (r : Registry) d r' :
  (forall a b snakes path differs,
     hoare (fun r0 : Registry => is_Some (r0 !! p))
       (compute_diff_from_snakes env a b snakes path differs)
       (fun _ r0 => is_Some (r0 !! p)) (fun _ => True) True) ->
  is_Some (r !! p) ->
  diff env fuel default_differs a b path r = Ret (d, r') ->
  is_Some (r' !! p).
Proof.
  intros Hsnakes Hr Hrun.
  pose proof (keeps_diff env (fun r0 : Registry => is_Some (r0 !! p))) as H.
  specialize (H ltac:(intros q r2 Hr2; destruct (decide (q = p)) as [->|];
                      [by rewrite lookup_insert_eq|by rewrite lookup_insert_ne])
                Hsnakes fuel a b path r Hr).
  by rewrite Hrun in H.
Qed.

Lemma diff_keeps_registered_witness :
  let r : Registry := {[ "/other" := [Custom (fun _ _ => false)] ]} in
  exists d r',
    diff Reference.env 2 default_differs (VList [VStr "a"]) (VList [VStr "b"]) "" r
      = Ret (d, r') /\
    is_Some (r' !! "/other").
Proof.
  intros r.
  destruct (diff Reference.env 2 default_differs (VList [VStr "a"]) (VList [VStr "b"])
              "" r) as [[d r']| |] eqn:Hrun;
    [|vm_compute in Hrun; discriminate Hrun..].
  exists d, r'. split; [reflexivity|].
  eapply (diff_keeps_registered Reference.env "/other" 2 _ _ "" r d r');
    [by intros|by eexists|exact Hrun].
Defined.

(** ** Validation at every level *)

Lemma shallow_entry_checked V e : is_patch e = false -> entry_checked V e = true.
Proof. by destruct e. Qed.

Section Checked.

Context (env : Collaborators).

Notation V := (validate_diff env).
Notation all_checked := (Forall (fun e => entry_checked (validate_diff env) e = true)).

Lemma checked_all d : checked V d = true -> all_checked d.
Proof. unfold checked. rewrite andb_true_iff, forallb_Forall_true. by intros []. Qed.

Lemma diff_items_checked diffit subpath a b i j n : forall k di r di' r',
  (forall x y r0 cd r1, diffit x y subpath r0 = Ret (cd, r1) -> checked V cd = true) ->
  diff_items diffit subpath a b i j k n di r = Ret (di', r') ->
  all_checked di -> all_checked di'.
Proof.
  induction n as [|n IH]; intros k di r di' r' Hd Hrun Hdi; cbn [diff_items] in Hrun.
  - apply ret_Ret_inv in Hrun as [<- _]. done.
  - apply bind_Ret_inv in Hrun as (x & r1 & _ & Hrun).
    apply bind_Ret_inv in Hrun as (y & r2 & _ & Hrun).
    apply bind_Ret_inv in Hrun as (di1 & r3 & Hstep & Hrun).
    apply (IH _ _ _ _ _ Hd Hrun).
    destruct (negb (is_atomic x)).
    + apply bind_Ret_inv in Hstep as (cd & r4 & Hcd & Hret).
      apply ret_Ret_inv in Hret as [<- _]. destruct cd as [|e cd]; [done|].
      apply Forall_app. split; [done|]. constructor; [|constructor].
      apply Hd in Hcd. exact Hcd.
    + apply ret_Ret_inv in Hstep as [<- _]. done.
Qed.

Lemma diff_lists_loop_checked diffit subpath a b shallow : forall i j di r res r',
  (forall x y r0 cd r1, diffit x y subpath r0 = Ret (cd, r1) -> checked V cd = true) ->
  diff_lists_loop diffit subpath a b shallow i j di r = Ret (res, r') ->
  all_checked shallow -> all_checked di -> all_checked res.2.
Proof.
  induction shallow as [|e rest IH]; intros i j di r res r' Hd Hrun Hs Hdi;
    cbn [diff_lists_loop] in Hrun.
  - apply bind_Ret_inv in Hrun as (u1 & r1 & _ & Hrun).
    apply bind_Ret_inv in Hrun as (u2 & r2 & _ & Hrun).
    apply bind_Ret_inv in Hrun as (di1 & r3 & Hitems & Hret).
    apply ret_Ret_inv in Hret as [<- _]. simpl.
    by eapply diff_items_checked.
  - apply bind_Ret_inv in Hrun as (index & r1 & _ & Hrun).
    destruct (count_consumed_symbols e) as [askip bskip].
    apply bind_Ret_inv in Hrun as (di1 & r2 & Hitems & Hrun).
    inversion Hs as [|? ? He Hrest]; subst.
    eapply IH; [exact Hd|exact Hrun|exact Hrest|].
    apply Forall_app. split; [by eapply diff_items_checked|by constructor].
Qed.

Section Recursion.

Context (diff : Differ) (differs : gmap string Differ).

Hypothesis bruteforce_shallow : forall a b c,
  Forall (fun e => is_patch e = false) (diff_sequence_bruteforce env a b c).

Hypothesis snakes_checked : forall a b snakes path differs r d r',
  compute_diff_from_snakes env a b snakes path differs r = Ret (d, r') ->
  all_checked d.

Hypothesis differ_checked : forall subpath x y r cd r',
  differs_get differs subpath diff x y subpath r = Ret (cd, r') -> checked V cd = true.

Lemma diff_lists_checked a b path r d r' :
  diff_lists env diff differs a b path None r = Ret (d, r') -> all_checked d.
Proof.
  intros Hrun. unfold diff_lists in Hrun.
  apply bind_Ret_inv in Hrun as (cs & r1 & _ & Hrun).
  destruct (1 <? length cs).
  - apply bind_Ret_inv in Hrun as (u & r2 & _ & Hrun).
    unfold diff_sequence_multilevel in Hrun.
    apply bind_Ret_inv in Hrun as (cs' & r3 & _ & Hrun).
    by eapply snakes_checked.
  - apply bind_Ret_inv in Hrun as (shallow & r2 & Hshallow & Hrun).
    apply bind_Ret_inv in Hrun as ([[i j] di] & r3 & Hloop & Hrun).
    apply bind_Ret_inv in Hrun as (u1 & r4 & _ & Hrun).
    apply bind_Ret_inv in Hrun as (u2 & r5 & _ & Hrun).
    apply sequence_validated_Ret_inv in Hrun as ->.
    apply bind_Ret_inv in Hshallow as (c & r6 & _ & Hshallow).
    unfold diff_sequence in Hshallow.
    change (String.eqb diff_sequence_algorithm "difflib") with false in Hshallow.
    change (String.eqb diff_sequence_algorithm "bruteforce") with true in Hshallow.
    cbv iota in Hshallow. apply ret_Ret_inv in Hshallow as [<- _].
    change di with (i, j, di).2.
    eapply diff_lists_loop_checked; [|exact Hloop| |constructor].
    + intros x y r0 cd r7. apply differ_checked.
    + eapply Forall_impl; [apply bruteforce_shallow|].
      intros e. apply shallow_entry_checked.
Qed.

Lemma diff_dicts_loop_checked a b path keys : forall di r di' r',
  diff_dicts_loop diff differs a b path keys di r = Ret (di', r') ->
  all_checked di -> all_checked di'.
Proof.
  induction keys as [|key rest IH]; intros di r di' r' Hrun Hdi;
    cbn [diff_dicts_loop] in Hrun.
  - apply ret_Ret_inv in Hrun as [<- _]. done.
  - apply bind_Ret_inv in Hrun as (x & r1 & _ & Hrun).
    apply bind_Ret_inv in Hrun as (y & r2 & _ & Hrun).
    apply bind_Ret_inv in Hrun as (di1 & r3 & Hstep & Hrun).
    apply (IH _ _ _ _ Hrun).
    destruct (PyType_eqb (type_of x) (type_of y) && negb (is_atomic x)).
    + apply bind_Ret_inv in Hstep as (dd & r4 & Hdd & Hret).
      apply ret_Ret_inv in Hret as [<- _]. destruct dd as [|e dd]; [done|].
      apply Forall_app. split; [done|]. constructor; [|constructor].
      apply differ_checked in Hdd. exact Hdd.
    + apply bind_Ret_inv in Hstep as (registered & r4 & _ & Hret).
      destruct registered; [done|].
      apply ret_Ret_inv in Hret as [<- _].
      destruct (negb (py_eq x y)); [|done].
      apply Forall_app. split; [done|]. by constructor.
Qed.

Lemma diff_dicts_adds_checked b keys : forall di r di' r',
  diff_dicts_adds b keys di r = Ret (di', r') -> all_checked di -> all_checked di'.
Proof.
  induction keys as [|key rest IH]; intros di r di' r' Hrun Hdi;
    cbn [diff_dicts_adds] in Hrun.
  - apply ret_Ret_inv in Hrun as [<- _]. done.
  - apply bind_Ret_inv in Hrun as (y & r1 & _ & Hrun).
    apply (IH _ _ _ _ Hrun). apply Forall_app. split; [done|]. by constructor.
Qed.

Lemma diff_dicts_checked a b path r d r' :
  diff_dicts env diff differs a b path r = Ret (d, r') -> all_checked d.
Proof.
  intros Hrun. destruct a as [ | | | | |a]; try done. destruct b as [ | | | | |b]; try done.
  unfold diff_dicts in Hrun.
  apply bind_Ret_inv in Hrun as (di1 & r1 & Hloop & Hrun).
  apply bind_Ret_inv in Hrun as (di2 & r2 & Hadds & Hrun).
  apply mapping_validated_Ret_inv in Hrun. rewrite Hrun.
  eapply diff_dicts_adds_checked; [exact Hadds|].
  eapply diff_dicts_loop_checked; [exact Hloop|].
  apply Forall_forall. intros e He. apply list_elem_of_fmap in He as (key & -> & _). done.
Qed.

End Recursion.

End Checked.

(** X8: a diff returned by [diff] (default differs, any registry of
    predicates) has passed [validate_diff] at every level: the diff
    itself and the sub-diff of every [Patch] in it, however deeply
    nested.  The shallow aligners are taken to return no [Patch], and
    the multilevel differ to return checked entries. *)
Theorem diff_validates_every_level env fuel :
  forall a b path (r : Registry) d r'
    (bruteforce_shallow : forall a b c,
       Forall (fun e => is_patch e = false) (diff_sequence_bruteforce env a b c))
    (difflib_shallow : forall a b,
       Forall (fun e => is_patch e = false) (diff_sequence_difflib env a b))
    (snakes_checked : forall a b snakes path differs r d r',
       compute_diff_from_snakes env a b snakes path differs r = Ret (d, r') ->
       Forall (fun e => entry_checked (validate_diff env) e = true) d),
    diff env fuel default_differs a b path r = Ret (d, r') ->
    checked (validate_diff env) d = true.
Proof.
  induction fuel as [|fuel IH]; intros a b path r d r' Hbf Hdl Hsn Hrun; [done|].
  cbn [diff] in Hrun.
  apply bind_Ret_inv in Hrun as (d0 & r1 & Hd0 & Hrun).
  destruct (validate_diff env d0) eqn:Hv; [|done].
  apply ret_Ret_inv in Hrun as [<- _].
  unfold checked. rewrite Hv. simpl. apply forallb_Forall_true.
  assert (Hrec : forall subpath x y r0 cd r2,
    differs_get default_differs subpath (diff env fuel default_differs) x y subpath r0
      = Ret (cd, r2) -> checked (validate_diff env) cd = true).
  { intros subpath x y r0 cd r2. rewrite differs_get_default. intros H. by eapply IH. }
  destruct a as [ | | |sa|la|da], b as [ | | |sb|lb|db]; try done.
  - apply ret_Ret_inv in Hd0 as [<- _].
    eapply Forall_impl; [apply Hdl|]. intros e. apply shallow_entry_checked.
  - by eapply diff_lists_checked.
  - by eapply diff_dicts_checked.
Qed.

Lemma diff_validates_every_level_witness :
  exists d r',
    diff Reference.env 3 default_differs
      (VDict [("cells", VList [VStr "ab"; VStr "x"])])
      (VDict [("cells", VList [VStr "ac"; VStr "x"])]) "" default_predicates
      = Ret (d, r') /\
    checked Reference.validate d = true.
Proof.
  destruct (diff Reference.env 3 default_differs
              (VDict [("cells", VList [VStr "ab"; VStr "x"])])
              (VDict [("cells", VList [VStr "ac"; VStr "x"])]) "" default_predicates)
    as [[d r']| |] eqn:Hrun; [|vm_compute in Hrun; discriminate Hrun..].
  exists d, r'. split; [reflexivity|].
  refine (diff_validates_every_level Reference.env 3 _ _ "" default_predicates d r'
            _ _ _ Hrun).
  - intros a b c.
    exact (script_no_patch _ _ _ _ _ _ (exhaustive_script_aligned true c a 0 b)
             (fun _ _ _ H => H)).
  - intros a b.
    exact (script_no_patch _ _ _ _ _ _ (exhaustive_script_aligned true OpEq a 0 b)
             (fun _ _ _ H => H)).
  - intros a b snakes path differs r0 d0 r1 H. discriminate H.
Defined.

(** ** Termination of the recursion *)

Lemma bind_halts {A B} (m : M A) (k : A -> M B) r :
  m r <> OutOfFuel -> (forall x r1, k x r1 <> OutOfFuel) -> bind m k r <> OutOfFuel.
Proof. intros Hm Hk. unfold bind. destruct (m r) as [[x r1]| |]; [apply Hk|done..]. Qed.

Section Halts.

Context (env : Collaborators) (diff : Differ) (differs : gmap string Differ).

Hypothesis snakes_halt : forall a b snakes path differs r,
  compute_diff_from_snakes env a b snakes path differs r <> OutOfFuel.

Lemma diff_items_halts diffit subpath a b i j n : forall k di r,
  (forall x y r0, x ∈ a -> diffit x y subpath r0 <> OutOfFuel) ->
  diff_items diffit subpath a b i j k n di r <> OutOfFuel.
Proof.
  induction n as [|n IH]; intros k di r Hd; cbn [diff_items]; [done|].
  unfold bind at 1, getitem at 1. destruct (a !! (i + k)) as [x|] eqn:Hx; [|done]. simpl.
  unfold bind at 1, getitem at 1. destruct (b !! (j + k)) as [y|] eqn:Hy; [|done]. simpl.
  unfold bind at 1. destruct (negb (is_atomic x)).
  - unfold bind at 1. pose proof (Hd x y r (list_elem_of_lookup_2 _ _ _ Hx)) as Hxy.
    destruct (diffit x y subpath r) as [[cd r1]| |]; [|done..]. simpl. by apply IH.
  - simpl. by apply IH.
Qed.

Lemma diff_lists_loop_halts diffit subpath a b shallow : forall i j di r,
  (forall x y r0, x ∈ a -> diffit x y subpath r0 <> OutOfFuel) ->
  diff_lists_loop diffit subpath a b shallow i j di r <> OutOfFuel.
Proof.
  induction shallow as [|e rest IH]; intros i j di r Hd; cbn [diff_lists_loop].
  - unfold bind at 1. destruct (py_assert _ r) as [[u r1]| |] eqn:H1; [|done|by destruct (0 <=? _)%Z].
    unfold bind at 1. destruct (py_assert _ r1) as [[u2 r2]| |] eqn:H2;
      [|done|by destruct (_ =? _)%Z].
    unfold bind at 1.
    pose proof (diff_items_halts diffit subpath a b i j
                  (Z.to_nat (Z.of_nat (length a) - Z.of_nat i)) 0 di r2 Hd) as Hitems.
    by destruct (diff_items _ _ _ _ _ _ _ _ _ r2) as [[di1 r3]| |].
  - unfold bind at 1, sequence_index. destruct (entry_key e) as [index|s]; [|done]. simpl.
    destruct (count_consumed_symbols e) as [askip bskip].
    unfold bind at 1.
    pose proof (diff_items_halts diffit subpath a b i j
                  (Nat.max 0 (index - i)) 0 di r Hd) as Hitems.
    destruct (diff_items _ _ _ _ _ _ _ _ _ r) as [[di1 r3]| |]; [|done..].
    by apply IH.
Qed.

Lemma diff_lists_halts a b path r :
  (forall x y r0, x ∈ a ->
     differs_get differs (join_path path "*") diff x y (join_path path "*") r0
       <> OutOfFuel) ->
  diff_lists env diff differs a b path None r <> OutOfFuel.
Proof.
  intros Hd. unfold diff_lists. unfold bind at 1, predicates_getitem at 1.
  assert (Hbody : forall cs r1,
    (if 1 <? length cs
     then py_assert (bool_decide (None = @None Diff));;;
          diff_sequence_multilevel env differs a b path
     else let* shallow := let* c := getitem cs 0 in diff_sequence env a b c
          in let* (i, j, di)
             := diff_lists_loop (differs_get differs (join_path path "*") diff)
                  (join_path path "*") a b shallow 0 0 []
             in py_assert (i =? length a);;; py_assert (j =? length b);;;
                sequence_validated env di) r1 <> OutOfFuel).
  { intros cs r1. destruct (1 <? length cs).
    - unfold bind at 1. simpl. unfold diff_sequence_multilevel, bind at 1, predicates_getitem.
      destruct (r1 !! path); apply snakes_halt.
    - unfold bind at 1, bind at 1, getitem. destruct (cs !! 0) as [c|]; [|done]. simpl.
      unfold diff_sequence.
      change (String.eqb diff_sequence_algorithm "difflib") with false.
      change (String.eqb diff_sequence_algorithm "bruteforce") with true.
      cbv iota. simpl. unfold bind at 1.
      pose proof (diff_lists_loop_halts _ (join_path path "*") a b
                    (diff_sequence_bruteforce env a b c) 0 0 [] r1 Hd) as Hloop.
      destruct (diff_lists_loop _ _ a b _ 0 0 [] r1) as [[[[i j] di] r2]| |]; [|done..].
      unfold bind. destruct (py_assert (i =? length a) r2) as [[u r3]| |] eqn:H1;
        [|done|by destruct (i =? length a)].
      destruct (py_assert (j =? length b) r3) as [[u2 r4]| |] eqn:H2;
        [|done|by destruct (j =? length b)].
      unfold sequence_validated. destruct di as [|e di]; [done|].
      by destruct (validate_diff env (e :: di)). }
  destruct (r !! path); apply Hbody.
Qed.

Lemma diff_dicts_loop_halts a b path keys : forall di r,
  (forall key x y r0, dict_get key a = Some x ->
     differs_get differs (join_path path key) diff x y (join_path path key) r0
       <> OutOfFuel) ->
  diff_dicts_loop diff differs a b path keys di r <> OutOfFuel.
Proof.
  induction keys as [|key rest IH]; intros di r Hd; cbn [diff_dicts_loop]; [done|].
  unfold bind at 1, dict_getitem at 1. destruct (dict_get key a) as [x|] eqn:Hx; [|done].
  simpl. unfold bind at 1, dict_getitem at 1.
  destruct (dict_get key b) as [y|] eqn:Hy; [|done]. simpl.
  unfold bind at 1.
  destruct (PyType_eqb (type_of x) (type_of y) && negb (is_atomic x)).
  - unfold bind at 1. pose proof (Hd key x y r Hx) as Hxy.
    destruct (differs_get differs _ diff x y _ r) as [[dd r1]| |]; [|done..].
    simpl. by apply IH.
  - unfold bind at 1, predicates_contains.
    destruct (bool_decide (is_Some (r !! path))); [done|]. simpl. by apply IH.
Qed.

Lemma diff_dicts_adds_halts b keys : forall di r,
  diff_dicts_adds b keys di r <> OutOfFuel.
Proof.
  induction keys as [|key rest IH]; intros di r; cbn [diff_dicts_adds]; [done|].
  unfold bind, dict_getitem. destruct (dict_get key b) as [y|]; [|done]. simpl. apply IH.
Qed.

Lemma diff_dicts_halts a b path r :
  (forall key x y r0, dict_get key a = Some x ->
     differs_get differs (join_path path key) diff x y (join_path path key) r0
       <> OutOfFuel) ->
  diff_dicts env diff differs (VDict a) (VDict b) path r <> OutOfFuel.
Proof.
  intros Hd. unfold diff_dicts. unfold bind at 1.
  pose proof (diff_dicts_loop_halts a b path (sorted (elements (key_set a ∩ key_set b)))
                (map (fun key => Remove (KStr key))
                   (sorted (elements (key_set a ∖ key_set b)))) r Hd) as Hloop.
  destruct (diff_dicts_loop _ _ a b path _ _ r) as [[di1 r1]| |]; [|done..].
  unfold bind at 1.
  pose proof (diff_dicts_adds_halts b (sorted (elements (key_set b ∖ key_set a))) di1 r1)
    as Hadds.
  destruct (diff_dicts_adds b _ di1 r1) as [[di2 r2]| |]; [|done..].
  unfold mapping_validated. destruct di2 as [|e di2]; [done|].
  by destruct (validate_diff env _).
Qed.

End Halts.

(** X9: the recursion of [diff] is never deeper than the nesting of
    [a]: given fuel for [depth a] levels, [diff] with the default
    differs returns a diff or raises, on any [b], path and registry
    (the multilevel differ being assumed to do so). *)
Theorem diff_recursion_bounded_by_depth env
    (snakes_halt : forall a b snakes path differs r,
       compute_diff_from_snakes env a b snakes path differs r <> OutOfFuel) :
  forall fuel a b path (r : Registry),
    depth a <= fuel ->
    diff env fuel default_differs a b path r <> OutOfFuel.
Proof.
  induction fuel as [|fuel IH]; intros a b path r Hdepth.
  { pose proof (depth_pos a). lia. }
  cbn [diff]. apply bind_halts.
  - destruct a as [ | | |sa|la|da], b as [ | | |sb|lb|db]; try done.
    + apply diff_lists_halts; [done|].
      intros x y r0 Hx. rewrite differs_get_default. apply IH.
      pose proof (depth_list_elem x la Hx). lia.
    + apply diff_dicts_halts.
      intros key x y r0 Hx. rewrite differs_get_default. apply IH.
      apply dict_get_Some_elem_of in Hx.
      pose proof (depth_dict_elem _ _ _ Hx). lia.
  - intros d r1. by destruct (validate_diff env d).
Qed.

Lemma diff_recursion_bounded_by_depth_witness :
  diff Reference.env 3 default_differs
    (VList [VDict [("k", VStr "v")]]) (VList [num 1]) "" default_predicates
  <> OutOfFuel.
Proof.
  apply (diff_recursion_bounded_by_depth Reference.env); [done|].
  vm_compute. lia.
Defined.

(** ** [diff_dicts] with its arguments exchanged *)

Lemma common_entry_not_shallow a b P key es e :
  common_entry a b P key es -> e ∈ es ->
  (exists dd, e = Patch (KStr key) dd) \/ (exists v, e = Replace (KStr key) v).
Proof.
  intros (x & y & _ & _ & Hcases) He.
  destruct Hcases as [[_ [[-> _]|(dd & _ & _ & ->)]]|[_ [[-> _]|[-> _]]]].
  - by apply elem_of_nil in He.
  - apply list_elem_of_singleton in He as ->. left. by exists dd.
  - by apply elem_of_nil in He.
  - apply list_elem_of_singleton in He as ->. right. by exists y.
Qed.

Lemma dict_post_Remove_inv a b P d key :
  dict_post a b P d -> Remove (KStr key) ∈ d ->
  is_Some (dict_get key a) /\ dict_get key b = None.
Proof.
  intros Hpost He.
  destruct (dict_post_elem _ _ _ _ _ Hpost He)
    as [(key' & Heq & Ha & Hb)|[(key' & es & Hes & Hin)|(key' & v & Heq & _)]].
  - by injection Heq as ->.
  - by destruct (common_entry_not_shallow _ _ _ _ _ _ Hes Hin) as [[dd ?]|[v ?]].
  - done.
Qed.

Lemma dict_post_Add_inv a b P d key v :
  dict_post a b P d -> Add (KStr key) v ∈ d ->
  dict_get key a = None /\ dict_get key b = Some v.
Proof.
  intros Hpost He.
  destruct (dict_post_elem _ _ _ _ _ Hpost He)
    as [(key' & Heq & _)|[(key' & es & Hes & Hin)|(key' & v' & Heq & Ha & Hb)]].
  - done.
  - by destruct (common_entry_not_shallow _ _ _ _ _ _ Hes Hin) as [[dd ?]|[v' ?]].
  - by injection Heq as -> ->.
Qed.

(** X10: exchanging the two mappings exchanges removals and additions:
    [diff_dicts(a, b)] removes a key exactly when [diff_dicts(b, a)]
    adds it, and what the latter adds there is the value of [a]
    (whatever the paths, registries and recursive differs of the two
    calls). *)
Theorem diff_dicts_swap env diff1 differs1 diff2 differs2 a b path1 path2
    (r1 r2 : Registry) d1 d2 r1' r2' :
  diff_dicts env diff1 differs1 (VDict a) (VDict b) path1 r1 = Ret (d1, r1') ->
  diff_dicts env diff2 differs2 (VDict b) (VDict a) path2 r2 = Ret (d2, r2') ->
  forall key,
    (Remove (KStr key) ∈ d1 <-> exists v, Add (KStr key) v ∈ d2) /\
    (forall v, Add (KStr key) v ∈ d2 -> dict_get key a = Some v).
Proof.
  intros H1 H2 key. apply diff_dicts_returns in H1, H2. split; [split|].
  - intros He. apply (dict_post_Remove_inv _ _ _ _ _ H1) in He as [[v Ha] Hb].
    exists v. by eapply dict_post_add.
  - intros [v He]. apply (dict_post_Add_inv _ _ _ _ _ _ H2) in He as [Hb Ha].
    by eapply dict_post_remove.
  - intros v He. by apply (dict_post_Add_inv _ _ _ _ _ _ H2) in He as [_ Ha].
Qed.

Lemma diff_dicts_swap_witness :
  (Remove (KStr "a") ∈ [Remove (KStr "a"); Add (KStr "c") (num 3)] <->
   exists v, Add (KStr "a") v ∈ [Add (KStr "a") (num 1); Remove (KStr "c")]) /\
  (forall v, Add (KStr "a") v ∈ [Add (KStr "a") (num 1); Remove (KStr "c")] ->
     dict_get "a" [("a", num 1); ("b", num 2)] = Some v).
Proof.
  refine (diff_dicts_swap Reference.env
            (diff Reference.env 1 default_differs) default_differs
            (diff Reference.env 1 default_differs) default_differs
            [("a", num 1); ("b", num 2)] [("b", num 2); ("c", num 3)] "" ""
            default_predicates default_predicates _ _ default_predicates default_predicates
            _ _ "a").
  - vm_compute. reflexivity.
  - vm_compute. reflexivity.
Defined.

(** X11: a diff returned by [diff_dicts] has at most one entry for a
    key, and every entry is at a string key of [a] or of [b]. *)
Theorem diff_dicts_one_entry_per_key env diff differs a b path (r : Registry) d r' :
  diff_dicts env diff differs (VDict a) (VDict b) path r = Ret (d, r') ->
  NoDup (map entry_key d) /\
  forall e, e ∈ d ->
    exists key, entry_key e = KStr key /\
      (is_Some (dict_get key a) \/ is_Some (dict_get key b)).
Proof.
  intros Hrun. apply diff_dicts_returns in Hrun. split.
  - by eapply dict_post_NoDup.
  - intros e He.
    destruct (dict_post_elem _ _ _ _ _ Hrun He)
      as [(key & -> & Ha & _)|[(key & es & Hes & Hin)|(key & v & -> & _ & Hb)]].
    + exists key. split; [done|]. by left.
    + exists key. split.
      * by destruct (common_entry_not_shallow _ _ _ _ _ _ Hes Hin) as [[dd ->]|[v ->]].
      * destruct Hes as (x & y & Hx & _). left. by exists x.
    + exists key. split; [done|]. right. by exists v.
Qed.

Lemma diff_dicts_one_entry_per_key_witness :
  exists d r',
    diff_dicts Reference.env (diff Reference.env 1 default_differs) default_differs
      (VDict [("a", num 1); ("b", VStr "x")]) (VDict [("b", VStr "y"); ("c", num 3)]) ""
      default_predicates = Ret (d, r') /\
    NoDup (map entry_key d).
Proof.
  destruct (diff_dicts Reference.env (diff Reference.env 1 default_differs)
              default_differs (VDict [("a", num 1); ("b", VStr "x")])
              (VDict [("b", VStr "y"); ("c", num 3)]) "" default_predicates)
    as [[d r']| |] eqn:Hrun; [|vm_compute in Hrun; discriminate Hrun..].
  exists d, r'. split; [reflexivity|].
  exact (proj1 (diff_dicts_one_entry_per_key _ _ _ _ _ _ _ _ _ Hrun)).
Defined.

(** ** The predicates of [notebooks.py] *)

Lemma result_bind_Ok_inv {A B} (m : result A) (k : A -> result B) y :
  result_bind m k = Ok y -> exists x, m = Ok x /\ k x = Ok y.
Proof. destruct m as [x|e]; [|done]. intros H. by exists x. Qed.

Lemma join_lines_py_eq xs : forall ys s,
  Forall2 (fun x y => py_eq x y = true) xs ys ->
  join_lines xs = Ok s -> join_lines ys = Ok s.
Proof.
  induction xs as [|x xs IH]; intros ys s Hall Hjoin.
  - by inversion Hall.
  - inversion Hall as [|? y ? ys' Hxy Hrest]; subst.
    destruct x as [ | | |sx| | ]; try done.
    apply py_eq_VStr_l in Hxy as ->.
    destruct xs as [|x' xs].
    + inversion Hrest; subst. exact Hjoin.
    + inversion Hrest as [|? y' ? ys'' Hxy' Hrest']; subst.
      cbn [join_lines] in Hjoin |- *.
      change (match x' with
              | VStr s0 => match xs with
                           | [] => Ok s0
                           | _ :: _ => match join_lines xs with
                                       | Ok t => Ok (s0 +:+ String "010" t)
                                       | Fail e => Fail e
                                       end
                           end
              | _ => Fail (NbTypeError "sequence item: expected str instance")
              end) with (join_lines (x' :: xs)) in Hjoin.
      change (match y' with
              | VStr s0 => match ys'' with
                           | [] => Ok s0
                           | _ :: _ => match join_lines ys'' with
                                       | Ok t => Ok (s0 +:+ String "010" t)
                                       | Fail e => Fail e
                                       end
                           end
              | _ => Fail (NbTypeError "sequence item: expected str instance")
              end) with (join_lines (y' :: ys'')).
      destruct (join_lines (x' :: xs)) as [t|e] eqn:Ht; [|done].
      by rewrite (IH (y' :: ys'') t Hrest eq_refl).
Qed.

Section NotebookPredicates.

Context (real_quick_ratio_below quick_ratio_below ratio_above :
           Value -> Value -> result bool).

Notation compare_cell_source_approximate :=
  (compare_cell_source_approximate real_quick_ratio_below quick_ratio_below ratio_above).

(** What [compare_cell_source_exact] has read when it answers [True]. *)
Lemma compare_cell_source_exact_true x y :
  compare_cell_source_exact x y = Ok true ->
  exists xt yt xs ys,
    subscript x "cell_type" = Ok xt /\ subscript y "cell_type" = Ok yt /\
    py_eq xt yt = true /\
    subscript x "source" = Ok xs /\ subscript y "source" = Ok ys /\
    py_eq xs ys = true.
Proof.
  unfold compare_cell_source_exact. intros H.
  apply result_bind_Ok_inv in H as (xt & Hxt & H).
  apply result_bind_Ok_inv in H as (yt & Hyt & H).
  destruct (py_eq xt yt) eqn:Ht; [|done]. simpl in H.
  apply result_bind_Ok_inv in H as (xs & Hxs & H).
  apply result_bind_Ok_inv in H as (ys & Hys & H).
  destruct (py_eq xs ys) eqn:Hs; [|done].
  by exists xt, yt, xs, ys.
Qed.

End NotebookPredicates.

(** X12: the predicates that [diff_cells] lists from low to high
    precedence are nested at the top: where
    [compare_cell_source_and_outputs] answers [True] so does
    [compare_cell_source_exact], where the latter answers [False] so
    does the former, and on a cell that is not a code cell the two are
    the same function, errors included. *)
Theorem compare_cell_source_and_outputs_refines_exact x y :
  (compare_cell_source_and_outputs x y = Ok true ->
   compare_cell_source_exact x y = Ok true) /\
  (compare_cell_source_exact x y = Ok false ->
   compare_cell_source_and_outputs x y = Ok false) /\
  (forall t, subscript x "cell_type" = Ok t -> py_eq t (VStr "code") = false ->
   compare_cell_source_and_outputs x y = compare_cell_source_exact x y).
Proof.
  unfold compare_cell_source_and_outputs, compare_cell_source_exact.
  destruct (subscript x "cell_type") as [xt|e] eqn:Hxt; simpl;
    [|split; [done|split; [done|by intros]]].
  destruct (subscript y "cell_type") as [yt|e]; simpl;
    [|split; [done|split; [done|by intros]]].
  destruct (py_eq xt yt); simpl; [|split; [done|split; [done|by intros]]].
  destruct (subscript x "source") as [xs|e]; simpl;
    [|split; [done|split; [done|by intros]]].
  destruct (subscript y "source") as [ys|e]; simpl;
    [|split; [done|split; [done|by intros]]].
  destruct (py_eq xs ys); simpl; [|split; [done|split; [done|by intros]]].
  split; [done|]. split; [done|].
  intros t [= <-] Hcode. by rewrite Hcode.
Qed.

Lemma compare_cell_source_and_outputs_refines_exact_witness :
  let x := VDict [("cell_type", VStr "markdown"); ("source", VStr "# title")] in
  compare_cell_source_and_outputs x x = compare_cell_source_exact x x.
Proof.
  intros x.
  refine (proj2 (proj2 (compare_cell_source_and_outputs_refines_exact x x))
            (VStr "markdown") _ _); reflexivity.
Defined.

(** X13: two cells that [compare_cell_source_exact] accepts are accepted
    by [compare_cell_source_approximate] on the equality cutoff, whatever
    [difflib] would say of them, provided the source of [x], when it is
    a list, is a list of strings (otherwise the join raises). *)
Theorem compare_cell_source_exact_implies_approximate
    (real_quick_ratio_below quick_ratio_below ratio_above :
       Value -> Value -> result bool) x y :
  compare_cell_source_exact x y = Ok true ->
  (forall items, subscript x "source" = Ok (VList items) ->
     exists s, join_lines items = Ok s) ->
  compare_cell_source_approximate real_quick_ratio_below quick_ratio_below ratio_above
    x y = Ok true.
Proof.
  intros Hexact Hlines.
  apply compare_cell_source_exact_true in Hexact
    as (xt & yt & xs & ys & Hxt & Hyt & Ht & Hxs & Hys & Hs).
  unfold compare_cell_source_approximate.
  rewrite Hxt, Hyt. simpl. rewrite Ht. simpl. rewrite Hxs, Hys. simpl.
  destruct xs as [ | | |sx|lx|mx].
  - destruct ys; try done.
  - destruct ys; try done; simpl; simpl in Hs; by rewrite Hs.
  - destruct ys; try done; simpl; simpl in Hs; by rewrite Hs.
  - apply py_eq_VStr_l in Hs as ->. simpl. by rewrite String.eqb_refl.
  - destruct (py_eq_VList_l _ _ Hs) as [ly ->].
    destruct (Hlines lx Hxs) as [s Hjoin].
    apply py_eq_list in Hs.
    cbn [joined_if_list]. rewrite Hjoin, (join_lines_py_eq lx ly s Hs Hjoin).
    simpl. by rewrite String.eqb_refl.
  - destruct ys; try done. cbn [joined_if_list result_bind]. by rewrite Hs.
Qed.

Lemma compare_cell_source_exact_implies_approximate_witness :
  let x := VDict [("cell_type", VStr "code"); ("source", VList [VStr "a = 1"; VStr "b"])] in
  compare_cell_source_approximate
    (fun _ _ => Ok true) (fun _ _ => Ok true) (fun _ _ => Ok false) x x = Ok true.
Proof.
  intros x.
  apply compare_cell_source_exact_implies_approximate.
  - reflexivity.
  - intros items [= <-]. by eexists.
Defined.

(** X14: the predicates that [diff_outputs] lists are nested: where
    [compare_output_data] answers [True] so does
    [compare_output_data_keys], and where that one answers [True] so
    does [compare_output_type]. *)
Theorem compare_output_predicates_nested x y :
  (compare_output_data x y = Ok true -> compare_output_data_keys x y = Ok true) /\
  (compare_output_data_keys x y = Ok true -> compare_output_type x y = Ok true).
Proof.
  unfold compare_output_data, compare_output_data_keys, compare_output_type.
  destruct (subscript x "output_type") as [xt|e]; simpl; [|done].
  destruct (subscript y "output_type") as [yt|e]; simpl; [|done].
  destruct (py_eq xt yt); simpl; [|done].
  split; [|done].
  destruct (subscript x "data") as [xd|e]; simpl; [|done].
  destruct (method_keys xd) as [xk|e]; simpl; [|done].
  destruct (subscript y "data") as [yd|e]; simpl; [|done].
  destruct (method_keys yd) as [yk|e]; simpl; [|done].
  by destruct (bool_decide (xk <> yk)).
Qed.

Lemma compare_output_predicates_nested_witness :
  let x := VDict [("output_type", VStr "display_data");
                  ("data", VDict [("text/plain", VStr "1")])] in
  compare_output_data_keys x x = Ok true.
Proof.
  intros x. apply (proj1 (compare_output_predicates_nested x x)). reflexivity.
Defined.

(** Equal dicts have the same keys. *)
Lemma py_eq_dict_key_set m n :
  NoDup (dict_keys m) -> NoDup (dict_keys n) ->
  py_eq (VDict m) (VDict n) = true -> key_set m = key_set n.
Proof.
  intros Hm Hn [Hlen Hall]%py_eq_dict.
  assert (Hsub : dict_keys m ⊆+ dict_keys n).
  { apply NoDup_submseteq; [done|]. intros k Hk.
    apply list_elem_of_fmap in Hk as ([k' v] & -> & Hkv). simpl.
    rewrite Forall_forall in Hall. destruct (Hall _ Hkv) as (w & Hw & _). simpl in Hw.
    apply dict_get_is_Some. by exists w. }
  assert (Hperm : dict_keys m ≡ₚ dict_keys n).
  { apply submseteq_length_Permutation; [done|].
    unfold dict_keys. rewrite !length_map. lia. }
  unfold key_set. apply set_eq. intros k. rewrite !elem_of_list_to_set. by rewrite Hperm.
Qed.

(** X15: the test on the key sets in [compare_output_data] ("keys are
    potentially a lot cheaper to compare than values") never changes
    the answer: on outputs whose [data] are dicts, the predicate is
    the conjunction of the equality of the output types and of the
    data. *)
Theorem compare_output_data_is_equality x y xt yt xd yd :
  subscript x "output_type" = Ok xt -> subscript y "output_type" = Ok yt ->
  subscript x "data" = Ok (VDict xd) -> subscript y "data" = Ok (VDict yd) ->
  NoDup (dict_keys xd) -> NoDup (dict_keys yd) ->
  compare_output_data x y = Ok (py_eq xt yt && py_eq (VDict xd) (VDict yd)).
Proof.
  intros Hxt Hyt Hxd Hyd Hndx Hndy. unfold compare_output_data.
  rewrite Hxt, Hyt. cbn [result_bind]. destruct (py_eq xt yt); [|done]. cbn [negb andb].
  rewrite Hxd, Hyd. cbn [result_bind method_keys].
  destruct (py_eq (VDict xd) (VDict yd)) eqn:Heq.
  - rewrite (py_eq_dict_key_set xd yd Hndx Hndy Heq).
    rewrite bool_decide_eq_false_2 by (intros H; by apply H). done.
  - by destruct (bool_decide (key_set xd <> key_set yd)).
Qed.

Lemma compare_output_data_is_equality_witness :
  compare_output_data
    (VDict [("output_type", VStr "display_data");
            ("data", VDict [("text/plain", VStr "1"); ("image/png", VStr "iVBOR")])])
    (VDict [("output_type", VStr "display_data");
            ("data", VDict [("image/png", VStr "iVBOR"); ("text/plain", VStr "1")])])
  = Ok true.
Proof.
  apply (compare_output_data_is_equality _ _ (VStr "display_data") (VStr "display_data")
           [("text/plain", VStr "1"); ("image/png", VStr "iVBOR")]
           [("image/png", VStr "iVBOR"); ("text/plain", VStr "1")]);
    try reflexivity; compute_done.
Defined.
